(** * Chord and key theory engine of the worship-setlist backend

    Shallow embedding of [backend/app/services/key_transition.py] and
    [backend/app/services/chord_service.py], and of the two handlers of
    [backend/app/api/routes/chords.py] that validate, transpose and detect
    keys with them; the properties of the engine that its specification
    states (C1 to C10), and further properties of the code (X1 to X28).

    A Python [str] is modelled as a [string] of this file: a sequence of
    Unicode code points, so that [len], indices and slices count
    characters, as in Python.  String literals are read as UTF-8.  White
    space ([str.strip], [str.isspace], the class [\s]), the word class
    [\w] and the decimal digits that [int] accepts are those of Python for
    every code point.  The case mappings [upper] and [lower] are exact on
    ASCII and on the one other character that [lower] maps to an ASCII
    character; see [upper_char] and [lower_char] for the other characters.
    Python [int] values are [Z].
    A Python exception that is not caught inside the modelled function is
    the result [None] of a function returning [option]. *)

From Stdlib Require Import ZArith NArith Strings.Byte.
From stdpp Require Import base option list gmap.

Local Open Scope Z_scope.

(** ** Python strings *)

Module PyStr.

(** A character: its Unicode code point. *)
Inductive char := Char (code : N).

Definition code (c : char) : N := let 'Char n := c in n.

Inductive string := EmptyString | String (c : char) (t : string).

#[global] Instance char_eq_dec : EqDecision char.
Proof. solve_decision. Defined.

#[global] Instance string_eq_dec : EqDecision string.
Proof. solve_decision. Defined.

(** *** Literals

    A literal is the UTF-8 text between the quotes. *)

Definition continuation (b : byte) : option N :=
  let n := Byte.to_N b in
  if ((128 <=? n) && (n <? 192))%N then Some (n - 128)%N else None.

Fixpoint decode (l : list byte) : option string :=
  match l with
  | [] => Some EmptyString
  | b0 :: r =>
      let n0 := Byte.to_N b0 in
      if (n0 <? 128)%N then String (Char n0) <$> decode r
      else if (n0 <? 192)%N then None
      else if (n0 <? 224)%N then
        match r with
        | b1 :: r1 =>
            n1 ← continuation b1;
            String (Char ((n0 - 192) * 64 + n1)) <$> decode r1
        | _ => None
        end
      else if (n0 <? 240)%N then
        match r with
        | b1 :: b2 :: r2 =>
            n1 ← continuation b1; n2 ← continuation b2;
            String (Char (((n0 - 224) * 64 + n1) * 64 + n2)) <$> decode r2
        | _ => None
        end
      else
        match r with
        | b1 :: b2 :: b3 :: r3 =>
            n1 ← continuation b1; n2 ← continuation b2; n3 ← continuation b3;
            String (Char ((((n0 - 240) * 64 + n1) * 64 + n2) * 64 + n3)) <$> decode r3
        | _ => None
        end
  end.

Definition decode_char (l : list byte) : option char :=
  match decode l with
  | Some (String c EmptyString) => Some c
  | _ => None
  end.

Definition to_byte (n : N) : byte := default x00 (Byte.of_N n).

Definition encode_char (c : char) : list byte :=
  let n := code c in
  if (n <? 128)%N then [to_byte n]
  else if (n <? 2048)%N then [to_byte (192 + n / 64); to_byte (128 + n mod 64)]
  else if (n <? 65536)%N then
    [to_byte (224 + n / 4096); to_byte (128 + (n / 64) mod 64); to_byte (128 + n mod 64)]
  else
    [to_byte (240 + n / 262144); to_byte (128 + (n / 4096) mod 64);
     to_byte (128 + (n / 64) mod 64); to_byte (128 + n mod 64)].

Fixpoint encode (s : string) : list byte :=
  match s with
  | EmptyString => []
  | String c t => encode_char c ++ encode t
  end.

Declare Scope str_scope.
Delimit Scope str_scope with str.
Bind Scope str_scope with string.
Declare Scope chr_scope.
Delimit Scope chr_scope with chr.
Bind Scope chr_scope with char.
String Notation string decode encode : str_scope.
String Notation char decode_char encode_char : chr_scope.
#[global] Open Scope str_scope.

(** The code points of a string, and the string of a list of code
    points. *)
Fixpoint codes (s : string) : list N :=
  match s with
  | EmptyString => []
  | String c t => code c :: codes t
  end.

Fixpoint of_codes (l : list N) : string :=
  match l with
  | [] => EmptyString
  | n :: r => String (Char n) (of_codes r)
  end.

#[global] Instance string_countable : Countable string.
Proof.
  apply (inj_countable' codes of_codes).
  intros s. induction s as [|[n] t IH]; simpl; [done|by rewrite IH].
Defined.

(** *** Operations *)

(** [a + b] *)
Fixpoint append (a b : string) : string :=
  match a with
  | EmptyString => b
  | String c t => String c (append t b)
  end.
#[global] Arguments append !_ _ / : simpl nomatch.

Infix "+:+" := append (at level 60, right associativity) : str_scope.

(** [len(s)] *)
Fixpoint len (s : string) : nat :=
  match s with
  | EmptyString => O
  | String _ t => S (len t)
  end.

(** [s[n:n+m]] for [0 <= n] and [0 <= m]. *)
Fixpoint substring (n m : nat) (s : string) : string :=
  match n, m, s with
  | O, O, _ => EmptyString
  | O, S m', EmptyString => s
  | O, S m', String c t => String c (substring 0 m' t)
  | S n', _, EmptyString => s
  | S n', _, String _ t => substring n' m t
  end.

(** [s.startswith(p)] *)
Fixpoint startswith (p s : string) : bool :=
  match p with
  | EmptyString => true
  | String a p' =>
      match s with
      | EmptyString => false
      | String b s' => bool_decide (a = b) && startswith p' s'
      end
  end.

(** [sep.join(l)] *)
Fixpoint join (sep : string) (l : list string) : string :=
  match l with
  | [] => EmptyString
  | [x] => x
  | x :: r => x +:+ sep +:+ join sep r
  end.

(** [str(n)] for a decimal number [n]. *)
Fixpoint str_of_uint (d : Decimal.uint) : string :=
  match d with
  | Decimal.Nil => EmptyString
  | Decimal.D0 d => String "0" (str_of_uint d)
  | Decimal.D1 d => String "1" (str_of_uint d)
  | Decimal.D2 d => String "2" (str_of_uint d)
  | Decimal.D3 d => String "3" (str_of_uint d)
  | Decimal.D4 d => String "4" (str_of_uint d)
  | Decimal.D5 d => String "5" (str_of_uint d)
  | Decimal.D6 d => String "6" (str_of_uint d)
  | Decimal.D7 d => String "7" (str_of_uint d)
  | Decimal.D8 d => String "8" (str_of_uint d)
  | Decimal.D9 d => String "9" (str_of_uint d)
  end.

(** [f"{n}"] for a non-negative [int]. *)
Definition str_of_nat (n : nat) : string := str_of_uint (Nat.to_uint n).

(** [s[-1]] when [s] is not empty. *)
Fixpoint last_char (s : string) : option char :=
  match s with
  | EmptyString => None
  | String c EmptyString => Some c
  | String _ t => last_char t
  end.

(** [s[:-1]] *)
Fixpoint drop_last (s : string) : string :=
  match s with
  | EmptyString => EmptyString
  | String _ EmptyString => EmptyString
  | String c t => String c (drop_last t)
  end.

(** [s.endswith(c)] for a one-character suffix [c]. *)
Definition endswith (c : char) (s : string) : bool :=
  match last_char s with
  | Some d => bool_decide (d = c)
  | None => false
  end.

End PyStr.

Export PyStr.

(** ** key_transition.py *)

Module KeyTransition.
Import PyStr.

(** The [Literal] type [KeyCompatibility]; its three values are the
    strings returned by [label]. *)
Inductive KeyCompatibility := NATURAL | OK | AWKWARD.

Definition label (c : KeyCompatibility) : string :=
  match c with
  | NATURAL => "자연스러움"
  | OK => "괜찮음"
  | AWKWARD => "어색함"
  end.

#[global] Instance KeyCompatibility_eq_dec : EqDecision KeyCompatibility.
Proof. solve_decision. Defined.

Definition KEY_SEMITONES : gmap string Z :=
  list_to_map
    [("C", 0); ("C#", 1); ("Db", 1); ("D", 2); ("D#", 3); ("Eb", 3);
     ("E", 4); ("F", 5); ("F#", 6); ("Gb", 6); ("G", 7); ("G#", 8);
     ("Ab", 8); ("A", 9); ("A#", 10); ("Bb", 10); ("B", 11)].

Definition RELATIVE_KEYS : gmap string string :=
  list_to_map
    [("C", "Am"); ("G", "Em"); ("D", "Bm"); ("A", "F#m"); ("E", "C#m");
     ("B", "G#m"); ("F#", "D#m"); ("Gb", "Ebm"); ("Db", "Bbm"); ("Ab", "Fm");
     ("Eb", "Cm"); ("Bb", "Gm"); ("F", "Dm");
     ("Am", "C"); ("Em", "G"); ("Bm", "D"); ("F#m", "A"); ("C#m", "E");
     ("G#m", "B"); ("D#m", "F#"); ("Ebm", "Gb"); ("Bbm", "Db"); ("Fm", "Ab");
     ("Cm", "Eb"); ("Gm", "Bb"); ("Dm", "F")].

Definition normalize_key (key : string) : string * bool :=
  let is_minor := endswith "m" key in
  let base := if is_minor then drop_last key else key in
  (base, is_minor).

Definition get_semitone (key : string) : Z :=
  let '(base, _) := normalize_key key in
  default 0 (KEY_SEMITONES !! base).

Definition get_key_distance (from_key to_key : string) : Z :=
  let from_semi := get_semitone from_key in
  let to_semi := get_semitone to_key in
  let distance := Z.abs (to_semi - from_semi) in
  Z.min distance (12 - distance).

Definition check_key_compatibility (from_key to_key : string) : KeyCompatibility :=
  if bool_decide (from_key = to_key) then NATURAL
  else
    let distance := get_key_distance from_key to_key in
    if bool_decide (RELATIVE_KEYS !! from_key = Some to_key)
       || bool_decide (RELATIVE_KEYS !! to_key = Some from_key)
    then OK
    else
      let from_semi := get_semitone from_key in
      let to_semi := get_semitone to_key in
      let interval := (to_semi - from_semi) mod 12 in
      if bool_decide (interval ∈ [5; 7]) then NATURAL
      else if distance <=? 2 then NATURAL
      else if distance =? 3 then OK
      else AWKWARD.

Definition get_pivot_chords (from_key to_key : string) : list string :=
  let '(from_base, from_minor) := normalize_key from_key in
  let '(to_base, to_minor) := normalize_key to_key in
  let pivot_options := [] in
  let pivot_options :=
    if get_key_distance from_key to_key =? 2
    then pivot_options ++ [from_base +:+ "sus4 → " +:+ to_base]
    else pivot_options in
  let from_semi := get_semitone from_key in
  let to_semi := get_semitone to_key in
  let interval := (to_semi - from_semi) mod 12 in
  let pivot_options :=
    if interval =? 5
    then pivot_options ++ [from_base +:+ " → " +:+ from_base +:+ "7 → " +:+ to_base]
    else if interval =? 7
    then pivot_options ++ [from_base +:+ " → " +:+ to_base +:+ "/F# → " +:+ to_base]
    else pivot_options in
  let pivot_options :=
    if bool_decide (get_key_distance from_key to_key ∈ [1; 2])
    then pivot_options ++ [from_base +:+ " → " +:+ from_base +:+ "sus4 → " +:+ to_base]
    else pivot_options in
  match pivot_options with
  | [] => [from_base +:+ " → " +:+ to_base]
  | _ => pivot_options
  end.

(** One entry of the ["progressions"] list. *)
Record Progression := mkProgression {
  p_type : string;
  p_chords : string;
  p_description : string
}.

(** The dictionary returned by [suggest_bridge_progression]. *)
Record Bridge := mkBridge {
  b_compatibility : KeyCompatibility;
  b_distance : Z;
  b_progressions : list Progression
}.

(** [None] is the [IndexError] of [get_pivot_chords(from_key, to_key)[0]]. *)
Definition suggest_bridge_progression (from_key to_key : string) : option Bridge :=
  let compatibility := check_key_compatibility from_key to_key in
  let distance := get_key_distance from_key to_key in
  progressions ←
    match compatibility with
    | NATURAL =>
        if bool_decide (from_key = to_key) then
          Some [mkProgression "direct" (from_key +:+ " → " +:+ to_key)
                              "같은 키로 직접 연결"]
        else
          pivot ← head (get_pivot_chords from_key to_key);
          Some [mkProgression "direct" (from_key +:+ " → " +:+ to_key)
                              "직접 전환 가능";
                mkProgression "pivot" pivot "피벗 코드를 통한 부드러운 전환"]
    | OK =>
        pivot ← head (get_pivot_chords from_key to_key);
        Some [mkProgression "pivot" pivot "피벗 코드 사용 권장";
              mkProgression "bridge"
                (from_key +:+ " → (2마디 브릿지) → " +:+ to_key)
                "악기 브릿지로 자연스럽게 연결"]
    | AWKWARD =>
        Some [mkProgression "bridge"
                (from_key +:+ " → (4마디 브릿지) → " +:+ to_key)
                "충분한 악기 브릿지 필요";
              mkProgression "modulation"
                (from_key +:+ " → 중간 키 → " +:+ to_key)
                "중간 키를 거쳐 점진적 전조 권장"]
    end;
  Some (mkBridge compatibility distance progressions).

(** One entry of the ["transitions"] list. *)
Record Transition := mkTransition {
  t_from : string;
  t_to : string;
  t_compatibility : KeyCompatibility
}.

(** The dictionary returned by [analyze_setlist_key_flow]. *)
Record KeyFlow := mkKeyFlow {
  overall : KeyCompatibility;
  transitions : list Transition;
  warnings : list string
}.

(** The local dictionary [compatibility_order]. *)
Definition compatibility_order (c : KeyCompatibility) : Z :=
  match c with NATURAL => 0 | OK => 1 | AWKWARD => 2 end.

(** The warning text built in the loop body for index [i]. *)
Definition awkward_warning (i : nat) (from_key to_key : string) : string :=
  str_of_nat (i + 1) +:+ "번째 → " +:+ str_of_nat (i + 2) +:+ "번째 곡: "
  +:+ from_key +:+ " → " +:+ to_key +:+ " 전환이 어색할 수 있습니다".

(** One iteration of the loop, on the state
    [(transitions, warnings, worst_compatibility)]. *)
Definition flow_step (i : nat) (from_key to_key : string) (st : KeyFlow) : KeyFlow :=
  let compatibility := check_key_compatibility from_key to_key in
  let transitions' :=
    transitions st ++ [mkTransition from_key to_key compatibility] in
  let worst :=
    if compatibility_order (overall st) <? compatibility_order compatibility
    then compatibility else overall st in
  let warnings' :=
    if bool_decide (compatibility = AWKWARD)
    then warnings st ++ [awkward_warning i from_key to_key]
    else warnings st in
  mkKeyFlow worst transitions' warnings'.

(** [for i in range(len(keys) - 1)], where the list argument is [keys[i:]]:
    the body reads [keys[i]] and [keys[i + 1]]. *)
Fixpoint flow_loop (i : nat) (keys : list string) (st : KeyFlow) : KeyFlow :=
  match keys with
  | from_key :: (to_key :: _) as rest =>
      flow_loop (S i) rest (flow_step i from_key to_key st)
  | _ => st
  end.

Definition analyze_setlist_key_flow (keys : list string) : KeyFlow :=
  if bool_decide (length keys < 2)%nat then mkKeyFlow NATURAL [] []
  else flow_loop 0 keys (mkKeyFlow NATURAL [] []).

End KeyTransition.


(** ** chord_service.py *)

Module ChordService.
Import PyStr.

Definition CHROMATIC_SHARP : list string :=
  ["C"; "C#"; "D"; "D#"; "E"; "F"; "F#"; "G"; "G#"; "A"; "A#"; "B"].

Definition CHROMATIC_FLAT : list string :=
  ["C"; "Db"; "D"; "Eb"; "E"; "F"; "Gb"; "G"; "Ab"; "A"; "Bb"; "B"].

Definition FLAT_TO_SHARP : gmap string string :=
  list_to_map [("Db", "C#"); ("Eb", "D#"); ("Gb", "F#"); ("Ab", "G#"); ("Bb", "A#")].

Definition FLAT_KEYS : list string :=
  ["F"; "Bb"; "Eb"; "Ab"; "Db"; "Gb"; "Dm"; "Gm"; "Cm"; "Fm"; "Bbm"; "Ebm"].

Record ChordInfo := mkChordInfo {
  root : string;
  quality : string;
  bass : option string
}.

(** A segment is a [(chord, lyric)] pair; the chord may be [None]. *)
Definition Segment : Type := option string * string.

Record ParsedLine := mkParsedLine { segments : list Segment }.

Record ParsedChordPro := mkParsedChordPro {
  title : option string;
  artist : option string;
  key : option string;
  tempo : option Z;
  lines : list ParsedLine;
  raw_chords : list string
}.

(** *** Characters and strings *)

Definition LF : char := Char 10.

Definition code_in (lo hi : N) (c : char) : bool :=
  ((lo <=? code c) && (code c <=? hi))%N.

(** The character is in one of the ranges of code points. *)
Definition in_ranges (ranges : list (N * N)) (c : char) : bool :=
  existsb (λ r, code_in r.1 r.2 c) ranges.

(** The white space of Unicode above the ASCII characters: NEL, the
    no-break space, the Ogham space mark, the spaces U+2000 to U+200A, the
    line and the paragraph separator, the narrow no-break space, the medium
    mathematical space and the ideographic space. *)
Definition SPACE_RANGES : list (N * N) :=
  [(133, 133); (160, 160); (5760, 5760); (8192, 8202); (8232, 8233); (8239, 8239);
   (8287, 8287); (12288, 12288)]%N.

(** [str.isspace], the characters that [str.strip] removes, and the class
    [\s]: TAB..CR, FS..US, the blank, and the white space of Unicode. *)
Definition isspace (c : char) : bool :=
  code_in 9 13 c || code_in 28 32 c || in_ranges SPACE_RANGES c.

(** The ASCII digits. *)
Definition isdigit (c : char) : bool := code_in 48 57 c.

(** The characters above 127 that the class [\w] of [re] matches in a [str]
    pattern, as ranges of code points (the letters, digits and numbers of
    Unicode 14.0.0, the version of Python 3.11). *)
Definition WORD_RANGES : list (N * N) :=
  [(170, 170); (178, 179); (181, 181); (185, 186); (188, 190); (192, 214); (216, 246);
   (248, 705); (710, 721); (736, 740); (748, 748); (750, 750); (880, 884); (886, 887);
   (890, 893); (895, 895); (902, 902); (904, 906); (908, 908); (910, 929); (931, 1013);
   (1015, 1153); (1162, 1327); (1329, 1366); (1369, 1369); (1376, 1416); (1488, 1514);
   (1519, 1522); (1568, 1610); (1632, 1641); (1646, 1647); (1649, 1747); (1749, 1749);
   (1765, 1766); (1774, 1788); (1791, 1791); (1808, 1808); (1810, 1839); (1869, 1957);
   (1969, 1969); (1984, 2026); (2036, 2037); (2042, 2042); (2048, 2069); (2074, 2074);
   (2084, 2084); (2088, 2088); (2112, 2136); (2144, 2154); (2160, 2183); (2185, 2190);
   (2208, 2249); (2308, 2361); (2365, 2365); (2384, 2384); (2392, 2401); (2406, 2415);
   (2417, 2432); (2437, 2444); (2447, 2448); (2451, 2472); (2474, 2480); (2482, 2482);
   (2486, 2489); (2493, 2493); (2510, 2510); (2524, 2525); (2527, 2529); (2534, 2545);
   (2548, 2553); (2556, 2556); (2565, 2570); (2575, 2576); (2579, 2600); (2602, 2608);
   (2610, 2611); (2613, 2614); (2616, 2617); (2649, 2652); (2654, 2654); (2662, 2671);
   (2674, 2676); (2693, 2701); (2703, 2705); (2707, 2728); (2730, 2736); (2738, 2739);
   (2741, 2745); (2749, 2749); (2768, 2768); (2784, 2785); (2790, 2799); (2809, 2809);
   (2821, 2828); (2831, 2832); (2835, 2856); (2858, 2864); (2866, 2867); (2869, 2873);
   (2877, 2877); (2908, 2909); (2911, 2913); (2918, 2927); (2929, 2935); (2947, 2947);
   (2949, 2954); (2958, 2960); (2962, 2965); (2969, 2970); (2972, 2972); (2974, 2975);
   (2979, 2980); (2984, 2986); (2990, 3001); (3024, 3024); (3046, 3058); (3077, 3084);
   (3086, 3088); (3090, 3112); (3114, 3129); (3133, 3133); (3160, 3162); (3165, 3165);
   (3168, 3169); (3174, 3183); (3192, 3198); (3200, 3200); (3205, 3212); (3214, 3216);
   (3218, 3240); (3242, 3251); (3253, 3257); (3261, 3261); (3293, 3294); (3296, 3297);
   (3302, 3311); (3313, 3314); (3332, 3340); (3342, 3344); (3346, 3386); (3389, 3389);
   (3406, 3406); (3412, 3414); (3416, 3425); (3430, 3448); (3450, 3455); (3461, 3478);
   (3482, 3505); (3507, 3515); (3517, 3517); (3520, 3526); (3558, 3567); (3585, 3632);
   (3634, 3635); (3648, 3654); (3664, 3673); (3713, 3714); (3716, 3716); (3718, 3722);
   (3724, 3747); (3749, 3749); (3751, 3760); (3762, 3763); (3773, 3773); (3776, 3780);
   (3782, 3782); (3792, 3801); (3804, 3807); (3840, 3840); (3872, 3891); (3904, 3911);
   (3913, 3948); (3976, 3980); (4096, 4138); (4159, 4169); (4176, 4181); (4186, 4189);
   (4193, 4193); (4197, 4198); (4206, 4208); (4213, 4225); (4238, 4238); (4240, 4249);
   (4256, 4293); (4295, 4295); (4301, 4301); (4304, 4346); (4348, 4680); (4682, 4685);
   (4688, 4694); (4696, 4696); (4698, 4701); (4704, 4744); (4746, 4749); (4752, 4784);
   (4786, 4789); (4792, 4798); (4800, 4800); (4802, 4805); (4808, 4822); (4824, 4880);
   (4882, 4885); (4888, 4954); (4969, 4988); (4992, 5007); (5024, 5109); (5112, 5117);
   (5121, 5740); (5743, 5759); (5761, 5786); (5792, 5866); (5870, 5880); (5888, 5905);
   (5919, 5937); (5952, 5969); (5984, 5996); (5998, 6000); (6016, 6067); (6103, 6103);
   (6108, 6108); (6112, 6121); (6128, 6137); (6160, 6169); (6176, 6264); (6272, 6276);
   (6279, 6312); (6314, 6314); (6320, 6389); (6400, 6430); (6470, 6509); (6512, 6516);
   (6528, 6571); (6576, 6601); (6608, 6618); (6656, 6678); (6688, 6740); (6784, 6793);
   (6800, 6809); (6823, 6823); (6917, 6963); (6981, 6988); (6992, 7001); (7043, 7072);
   (7086, 7141); (7168, 7203); (7232, 7241); (7245, 7293); (7296, 7304); (7312, 7354);
   (7357, 7359); (7401, 7404); (7406, 7411); (7413, 7414); (7418, 7418); (7424, 7615);
   (7680, 7957); (7960, 7965); (7968, 8005); (8008, 8013); (8016, 8023); (8025, 8025);
   (8027, 8027); (8029, 8029); (8031, 8061); (8064, 8116); (8118, 8124); (8126, 8126);
   (8130, 8132); (8134, 8140); (8144, 8147); (8150, 8155); (8160, 8172); (8178, 8180);
   (8182, 8188); (8304, 8305); (8308, 8313); (8319, 8329); (8336, 8348); (8450, 8450);
   (8455, 8455); (8458, 8467); (8469, 8469); (8473, 8477); (8484, 8484); (8486, 8486);
   (8488, 8488); (8490, 8493); (8495, 8505); (8508, 8511); (8517, 8521); (8526, 8526);
   (8528, 8585); (9312, 9371); (9450, 9471); (10102, 10131); (11264, 11492); (11499,
   11502); (11506, 11507); (11517, 11517); (11520, 11557); (11559, 11559); (11565,
   11565); (11568, 11623); (11631, 11631); (11648, 11670); (11680, 11686); (11688,
   11694); (11696, 11702); (11704, 11710); (11712, 11718); (11720, 11726); (11728,
   11734); (11736, 11742); (11823, 11823); (12293, 12295); (12321, 12329); (12337,
   12341); (12344, 12348); (12353, 12438); (12445, 12447); (12449, 12538); (12540,
   12543); (12549, 12591); (12593, 12686); (12690, 12693); (12704, 12735); (12784,
   12799); (12832, 12841); (12872, 12879); (12881, 12895); (12928, 12937); (12977,
   12991); (13312, 19903); (19968, 42124); (42192, 42237); (42240, 42508); (42512,
   42539); (42560, 42606); (42623, 42653); (42656, 42735); (42775, 42783); (42786,
   42888); (42891, 42954); (42960, 42961); (42963, 42963); (42965, 42969); (42994,
   43009); (43011, 43013); (43015, 43018); (43020, 43042); (43056, 43061); (43072,
   43123); (43138, 43187); (43216, 43225); (43250, 43255); (43259, 43259); (43261,
   43262); (43264, 43301); (43312, 43334); (43360, 43388); (43396, 43442); (43471,
   43481); (43488, 43492); (43494, 43518); (43520, 43560); (43584, 43586); (43588,
   43595); (43600, 43609); (43616, 43638); (43642, 43642); (43646, 43695); (43697,
   43697); (43701, 43702); (43705, 43709); (43712, 43712); (43714, 43714); (43739,
   43741); (43744, 43754); (43762, 43764); (43777, 43782); (43785, 43790); (43793,
   43798); (43808, 43814); (43816, 43822); (43824, 43866); (43868, 43881); (43888,
   44002); (44016, 44025); (44032, 55203); (55216, 55238); (55243, 55291); (63744,
   64109); (64112, 64217); (64256, 64262); (64275, 64279); (64285, 64285); (64287,
   64296); (64298, 64310); (64312, 64316); (64318, 64318); (64320, 64321); (64323,
   64324); (64326, 64433); (64467, 64829); (64848, 64911); (64914, 64967); (65008,
   65019); (65136, 65140); (65142, 65276); (65296, 65305); (65313, 65338); (65345,
   65370); (65382, 65470); (65474, 65479); (65482, 65487); (65490, 65495); (65498,
   65500); (65536, 65547); (65549, 65574); (65576, 65594); (65596, 65597); (65599,
   65613); (65616, 65629); (65664, 65786); (65799, 65843); (65856, 65912); (65930,
   65931); (66176, 66204); (66208, 66256); (66273, 66299); (66304, 66339); (66349,
   66378); (66384, 66421); (66432, 66461); (66464, 66499); (66504, 66511); (66513,
   66517); (66560, 66717); (66720, 66729); (66736, 66771); (66776, 66811); (66816,
   66855); (66864, 66915); (66928, 66938); (66940, 66954); (66956, 66962); (66964,
   66965); (66967, 66977); (66979, 66993); (66995, 67001); (67003, 67004); (67072,
   67382); (67392, 67413); (67424, 67431); (67456, 67461); (67463, 67504); (67506,
   67514); (67584, 67589); (67592, 67592); (67594, 67637); (67639, 67640); (67644,
   67644); (67647, 67669); (67672, 67702); (67705, 67742); (67751, 67759); (67808,
   67826); (67828, 67829); (67835, 67867); (67872, 67897); (67968, 68023); (68028,
   68047); (68050, 68096); (68112, 68115); (68117, 68119); (68121, 68149); (68160,
   68168); (68192, 68222); (68224, 68255); (68288, 68295); (68297, 68324); (68331,
   68335); (68352, 68405); (68416, 68437); (68440, 68466); (68472, 68497); (68521,
   68527); (68608, 68680); (68736, 68786); (68800, 68850); (68858, 68899); (68912,
   68921); (69216, 69246); (69248, 69289); (69296, 69297); (69376, 69415); (69424,
   69445); (69457, 69460); (69488, 69505); (69552, 69579); (69600, 69622); (69635,
   69687); (69714, 69743); (69745, 69746); (69749, 69749); (69763, 69807); (69840,
   69864); (69872, 69881); (69891, 69926); (69942, 69951); (69956, 69956); (69959,
   69959); (69968, 70002); (70006, 70006); (70019, 70066); (70081, 70084); (70096,
   70106); (70108, 70108); (70113, 70132); (70144, 70161); (70163, 70187); (70272,
   70278); (70280, 70280); (70282, 70285); (70287, 70301); (70303, 70312); (70320,
   70366); (70384, 70393); (70405, 70412); (70415, 70416); (70419, 70440); (70442,
   70448); (70450, 70451); (70453, 70457); (70461, 70461); (70480, 70480); (70493,
   70497); (70656, 70708); (70727, 70730); (70736, 70745); (70751, 70753); (70784,
   70831); (70852, 70853); (70855, 70855); (70864, 70873); (71040, 71086); (71128,
   71131); (71168, 71215); (71236, 71236); (71248, 71257); (71296, 71338); (71352,
   71352); (71360, 71369); (71424, 71450); (71472, 71483); (71488, 71494); (71680,
   71723); (71840, 71922); (71935, 71942); (71945, 71945); (71948, 71955); (71957,
   71958); (71960, 71983); (71999, 71999); (72001, 72001); (72016, 72025); (72096,
   72103); (72106, 72144); (72161, 72161); (72163, 72163); (72192, 72192); (72203,
   72242); (72250, 72250); (72272, 72272); (72284, 72329); (72349, 72349); (72368,
   72440); (72704, 72712); (72714, 72750); (72768, 72768); (72784, 72812); (72818,
   72847); (72960, 72966); (72968, 72969); (72971, 73008); (73030, 73030); (73040,
   73049); (73056, 73061); (73063, 73064); (73066, 73097); (73112, 73112); (73120,
   73129); (73440, 73458); (73648, 73648); (73664, 73684); (73728, 74649); (74752,
   74862); (74880, 75075); (77712, 77808); (77824, 78894); (82944, 83526); (92160,
   92728); (92736, 92766); (92768, 92777); (92784, 92862); (92864, 92873); (92880,
   92909); (92928, 92975); (92992, 92995); (93008, 93017); (93019, 93025); (93027,
   93047); (93053, 93071); (93760, 93846); (93952, 94026); (94032, 94032); (94099,
   94111); (94176, 94177); (94179, 94179); (94208, 100343); (100352, 101589); (101632,
   101640); (110576, 110579); (110581, 110587); (110589, 110590); (110592, 110882);
   (110928, 110930); (110948, 110951); (110960, 111355); (113664, 113770); (113776,
   113788); (113792, 113800); (113808, 113817); (119520, 119539); (119648, 119672);
   (119808, 119892); (119894, 119964); (119966, 119967); (119970, 119970); (119973,
   119974); (119977, 119980); (119982, 119993); (119995, 119995); (119997, 120003);
   (120005, 120069); (120071, 120074); (120077, 120084); (120086, 120092); (120094,
   120121); (120123, 120126); (120128, 120132); (120134, 120134); (120138, 120144);
   (120146, 120485); (120488, 120512); (120514, 120538); (120540, 120570); (120572,
   120596); (120598, 120628); (120630, 120654); (120656, 120686); (120688, 120712);
   (120714, 120744); (120746, 120770); (120772, 120779); (120782, 120831); (122624,
   122654); (123136, 123180); (123191, 123197); (123200, 123209); (123214, 123214);
   (123536, 123565); (123584, 123627); (123632, 123641); (124896, 124902); (124904,
   124907); (124909, 124910); (124912, 124926); (124928, 125124); (125127, 125135);
   (125184, 125251); (125259, 125259); (125264, 125273); (126065, 126123); (126125,
   126127); (126129, 126132); (126209, 126253); (126255, 126269); (126464, 126467);
   (126469, 126495); (126497, 126498); (126500, 126500); (126503, 126503); (126505,
   126514); (126516, 126519); (126521, 126521); (126523, 126523); (126530, 126530);
   (126535, 126535); (126537, 126537); (126539, 126539); (126541, 126543); (126545,
   126546); (126548, 126548); (126551, 126551); (126553, 126553); (126555, 126555);
   (126557, 126557); (126559, 126559); (126561, 126562); (126564, 126564); (126567,
   126570); (126572, 126578); (126580, 126583); (126585, 126588); (126590, 126590);
   (126592, 126601); (126603, 126619); (126625, 126627); (126629, 126633); (126635,
   126651); (127232, 127244); (130032, 130041); (131072, 173791); (173824, 177976);
   (177984, 178205); (178208, 183969); (183984, 191456); (194560, 195101); (196608,
   201546)]%N.

(** The characters above 127 with the decimal value 0; the nine characters
    after each of them have the values 1 to 9. *)
Definition DECIMAL_ZEROS : list N :=
  [1632; 1776; 1984; 2406; 2534; 2662; 2790; 2918; 3046; 3174; 3302; 3430; 3558; 3664;
   3792; 3872; 4160; 4240; 6112; 6160; 6470; 6608; 6784; 6800; 6992; 7088; 7232; 7248;
   42528; 43216; 43264; 43472; 43504; 43600; 44016; 65296; 66720; 68912; 69734; 69872;
   69942; 70096; 70384; 70736; 70864; 71248; 71360; 71472; 71904; 72016; 72784; 73040;
   73120; 92768; 92864; 93008; 120782; 120792; 120802; 120812; 120822; 123200; 123632;
   125264; 130032]%N.

(** The class [\w]: the ASCII letters and digits, the underscore, and the
    letters, digits and numbers of Unicode. *)
Definition is_word (c : char) : bool :=
  code_in 97 122 c || code_in 65 90 c || isdigit c || bool_decide (c = "_"%chr)
  || in_ranges WORD_RANGES c.

(** The class [[A-Ga-g]]. *)
Definition is_note_letter (c : char) : bool := code_in 65 71 c || code_in 97 103 c.

(** The class [[#b]]. *)
Definition is_accidental (c : char) : bool :=
  bool_decide (c = "#"%chr) || bool_decide (c = "b"%chr).

(** [c.upper()], where the code uses it: to look a note up in the
    pitch-class tables, and on the letter A-G that a pattern has matched.
    It is exact on ASCII.  A character above 127 is left as it is.  In
    Python the upper case of ten such characters is ASCII text (SS, I, S,
    FF, FI, FL, FFI, FFL and ST), which is no note name and does not
    become one with a further character after it, and the upper case of
    any other one holds a character above 127; so a note with a character
    above 127 among its first two is in no table, in Python as here. *)
Definition upper_char (c : char) : char :=
  if code_in 97 122 c then Char (code c - 32) else c.

(** [c.lower()], where the code uses it: to look a note up in the
    pitch-class tables, and to compare the name of a directive with the
    names that the parser knows.  It is exact on ASCII and on the Kelvin
    sign, the only character above 127 whose lower case is an ASCII
    character ([k]).  Any other character above 127 is left as it is: its
    lower case in Python holds a character above 127, so a name with it is
    none of the names of the parser and of the tables, in Python as
    here. *)
Definition lower_char (c : char) : char :=
  if code_in 65 90 c then Char (code c + 32)
  else if bool_decide (c = Char 8490) then "k"%chr
  else c.

Fixpoint str_map (f : char → char) (s : string) : string :=
  match s with
  | EmptyString => EmptyString
  | String c t => String (f c) (str_map f t)
  end.

Definition upper : string → string := str_map upper_char.
Definition lower : string → string := str_map lower_char.

Definition capitalize (s : string) : string :=
  match s with
  | EmptyString => EmptyString
  | String c t => String (upper_char c) (lower t)
  end.

Definition is_empty (s : string) : bool :=
  match s with EmptyString => true | String _ _ => false end.

Fixpoint lstrip (s : string) : string :=
  match s with
  | EmptyString => EmptyString
  | String c t => if isspace c then lstrip t else s
  end.

Fixpoint rstrip (s : string) : string :=
  match s with
  | EmptyString => EmptyString
  | String c t =>
      match rstrip t with
      | EmptyString => if isspace c then EmptyString else String c EmptyString
      | String d r => String c (String d r)
      end
  end.

Definition strip (s : string) : string := lstrip (rstrip s).

(** [c in s] for a one-character [c]. *)
Fixpoint contains (c : char) (s : string) : bool :=
  match s with
  | EmptyString => false
  | String d t => bool_decide (d = c) || contains c t
  end.

(** [s.count(c)] for a one-character [c]. *)
Fixpoint count (c : char) (s : string) : nat :=
  match s with
  | EmptyString => O
  | String d t => ((if bool_decide (d = c) then 1 else 0) + count c t)%nat
  end.

(** [s.split(sep)] for a one-character separator: the first part and the
    list of the parts after it (the result of [split] is never empty). *)
Fixpoint split (sep : char) (s : string) : string * list string :=
  match s with
  | EmptyString => (EmptyString, [])
  | String c t =>
      let '(p, ps) := split sep t in
      if bool_decide (c = sep) then (EmptyString, p :: ps) else (String c p, ps)
  end.

(** [s.replace(c, "")] for a one-character [c]. *)
Fixpoint remove_char (c : char) (s : string) : string :=
  match s with
  | EmptyString => EmptyString
  | String d t => if bool_decide (d = c) then remove_char c t else String d (remove_char c t)
  end.

(** [s[a:b]] for [0 <= a] and [0 <= b]. *)
Definition slice (s : string) (a b : nat) : string := substring a (b - a) s.

(** [s[a:]] for [0 <= a]. *)
Definition slice_from (s : string) (a : nat) : string := substring a (len s - a) s.

(** [sub in s] *)
Fixpoint has_substring (sub s : string) : bool :=
  startswith sub s || match s with EmptyString => false | String _ t => has_substring sub t end.

Fixpoint concat_all (l : list string) : string :=
  match l with
  | [] => EmptyString
  | s :: r => s +:+ concat_all r
  end.

(** [l.index(x)]; [None] is the [ValueError]. *)
Fixpoint list_index (x : string) (l : list string) : option nat :=
  match l with
  | [] => None
  | y :: r => if bool_decide (y = x) then Some O else S <$> list_index x r
  end.

(** [l[i]] with Python's negative indices; [None] is the [IndexError]. *)
Definition getitem {A} (l : list A) (i : Z) : option A :=
  if 0 <=? i then l !! Z.to_nat i
  else if 0 <=? Z.of_nat (length l) + i then l !! Z.to_nat (Z.of_nat (length l) + i)
  else None.

(** The maximal prefix of [s] whose characters satisfy [p], and the rest:
    a greedy [c*] for a character class [c]. *)
Fixpoint span (p : char → bool) (s : string) : string * string :=
  match s with
  | EmptyString => (EmptyString, EmptyString)
  | String c t =>
      if p c then let '(a, b) := span p t in (String c a, b) else (EmptyString, s)
  end.

(** The text before the first [stop] and the text after it: [[^c]*c] for
    a character [c]; [None] when [stop] does not occur. *)
Fixpoint until (stop : char) (s : string) : option (string * string) :=
  match s with
  | EmptyString => None
  | String c t =>
      if bool_decide (c = stop) then Some (EmptyString, t)
      else '(b, r) ← until stop t; Some (String c b, r)
  end.

(** *** The regular expressions *)

(** [(.*?)$] at the current position: the shortest run of characters other
    than a line feed after which the string ends, or only its final line
    feed is left. *)
Fixpoint lazy_dot_to_end (s : string) : option string :=
  match s with
  | EmptyString => Some EmptyString
  | String c t =>
      if bool_decide (c = LF) then (if is_empty t then Some EmptyString else None)
      else String c <$> lazy_dot_to_end t
  end.

(** [re.match(r'^([A-Ga-g][#b]?)(.*?)$', s)]: groups 1 and 2.  The
    accidental is taken when it is there, and given back when the rest
    does not match with it. *)
Definition ROOT_PATTERN_match (s : string) : option (string * string) :=
  match s with
  | EmptyString => None
  | String c t =>
      if is_note_letter c then
        let without := (λ q, (String c EmptyString, q)) <$> lazy_dot_to_end t in
        match t with
        | EmptyString => without
        | String a t' =>
            if is_accidental a then
              match lazy_dot_to_end t' with
              | Some q => Some (String c (String a EmptyString), q)
              | None => without
              end
            else without
        end
      else None
  end.

(** [CHORD_PATTERN], written with blanks [\[ ( [A-Ga-g] [#b]? [^]]* ) \]], at the start of [s]:
    group 1 and the text after the match.  The characters of [[#b]] are in
    [[^]]], so the group is the note letter and all that follows up to the
    first closing bracket. *)
Definition CHORD_PATTERN_match (s : string) : option (string * string) :=
  match s with
  | String o (String c t) =>
      if bool_decide (o = "["%chr) && is_note_letter c then
        '(b, r) ← until "]"%chr t; Some (String c b, r)
      else None
  | _ => None
  end.

(** What the scanner of [CHORD_PATTERN] sees from left to right: a
    character that starts no match, or a match with its group 1. *)
Inductive piece := Text (c : char) | Bracket (group1 : string).

Fixpoint scan_fuel (fuel : nat) (s : string) : list piece :=
  match fuel with
  | O => []
  | S fuel =>
      match s with
      | EmptyString => []
      | String c t =>
          match CHORD_PATTERN_match s with
          | Some (g, rest) => Bracket g :: scan_fuel fuel rest
          | None => Text c :: scan_fuel fuel t
          end
      end
  end.

Definition scan (s : string) : list piece := scan_fuel (len s) s.

(** A match object: [start()], [end()] and [group(1)]. *)
Record Match := mkMatch { m_start : nat; m_end : nat; m_group1 : string }.

Fixpoint matches_from (pos : nat) (ps : list piece) : list Match :=
  match ps with
  | [] => []
  | Text _ :: r => matches_from (S pos) r
  | Bracket g :: r =>
      let e := (pos + len g + 2)%nat in
      mkMatch pos e g :: matches_from e r
  end.

(** [CHORD_PATTERN.finditer(s)] *)
Definition CHORD_PATTERN_finditer (s : string) : list Match := matches_from 0 (scan s).

(** [CHORD_PATTERN.sub(repl, s)] for a function [repl] of group 1. *)
Definition CHORD_PATTERN_sub (repl : string → option string) (s : string) : option string :=
  concat_all <$>
    mapM (λ p, match p with
               | Text c => Some (String c EmptyString)
               | Bracket g => repl g
               end) (scan s).

(** [re.match(r'^[A-Ga-g]', s)] as a truth value. *)
Definition starts_with_note_letter (s : string) : bool :=
  match s with
  | EmptyString => false
  | String c _ => is_note_letter c
  end.

(** Groups 1, 2 and 3 of a match of [DIRECTIVE_PATTERN]. *)
Record DirectiveMatch := mkDirectiveMatch {
  d_group1 : option string;
  d_group2 : option string;
  d_group3 : option string
}.

(** [DIRECTIVE_PATTERN], written with blanks
    [\{ (\w+) : \s* ( [^}]* ) \} | \{ (\w+) \}], at the start of
    [s].  After the brace both alternatives take the whole run of word
    characters; a colon selects the first alternative, a closing brace the
    second one. *)
Definition DIRECTIVE_PATTERN_match (s : string) : option DirectiveMatch :=
  match s with
  | EmptyString => None
  | String o t =>
      if bool_decide (o = "{"%chr) then
        let '(name, r) := span is_word t in
        if is_empty name then None
        else
          match r with
          | EmptyString => None
          | String d r' =>
              if bool_decide (d = ":"%chr) then
                let '(_, r'') := span isspace r' in
                '(value, _) ← until "}"%chr r'';
                Some (mkDirectiveMatch (Some name) (Some value) None)
              else if bool_decide (d = "}"%chr) then
                Some (mkDirectiveMatch None None (Some name))
              else None
          end
      else None
  end.

(** [DIRECTIVE_PATTERN.search(s)]: the leftmost match. *)
Fixpoint DIRECTIVE_PATTERN_search (s : string) : option DirectiveMatch :=
  match DIRECTIVE_PATTERN_match s with
  | Some m => Some m
  | None =>
      match s with
      | EmptyString => None
      | String _ t => DIRECTIVE_PATTERN_search t
      end
  end.

(** The white space that [int] skips around a number: TAB..CR and the
    blank (not FS..US, which [str.strip] removes as well). *)
Definition is_int_space (c : char) : bool := code_in 9 13 c || code_in 32 32 c.

Fixpoint lstrip_int (s : string) : string :=
  match s with
  | EmptyString => EmptyString
  | String c t => if is_int_space c then lstrip_int t else s
  end.

Fixpoint rstrip_int (s : string) : string :=
  match s with
  | EmptyString => EmptyString
  | String c t =>
      match rstrip_int t with
      | EmptyString => if is_int_space c then EmptyString else String c EmptyString
      | String d r => String c (String d r)
      end
  end.

(** [s.isascii()] *)
Fixpoint isascii (s : string) : bool :=
  match s with
  | EmptyString => true
  | String c t => (code c <? 128)%N && isascii t
  end.

(** The decimal value of a character above 127, if it has one. *)
Definition decimal_value (c : char) : option N :=
  head (omap (λ zero, if ((zero <=? code c) && (code c <? zero + 10))%N
                      then Some (code c - zero)%N else None) DECIMAL_ZEROS).

(** What [int] makes of the characters of a string that is not ASCII
    before it reads the number: from code 127 on, white space becomes a
    blank and a character with a decimal value the ASCII digit of that
    value; any other character is not part of a number (it becomes a
    question mark here). *)
Definition int_char (c : char) : char :=
  if (code c <? 127)%N then c
  else if isspace c then " "%chr
  else match decimal_value c with
       | Some d => Char (48 + d)
       | None => "?"%chr
       end.

(** [int(s)] for a string: white space around an optional sign and
    decimal digits, single underscores allowed between digits; [None] is
    the [ValueError], also raised for more than 4300 digits. *)
Fixpoint int_digits (acc : Z) (n : nat) (after_digit : bool) (s : string) : option (Z * nat) :=
  match s with
  | EmptyString => if after_digit then Some (acc, n) else None
  | String c t =>
      if isdigit c then
        int_digits (10 * acc + Z.of_N (code c - 48)) (S n) true t
      else if bool_decide (c = "_"%chr) && after_digit then int_digits acc n false t
      else None
  end.

Definition int_of_str (s : string) : option Z :=
  let s := if isascii s then s else str_map int_char s in
  let s := lstrip_int (rstrip_int s) in
  let '(negative, body) :=
    match s with
    | String c t =>
        if bool_decide (c = "-"%chr) then (true, t)
        else if bool_decide (c = "+"%chr) then (false, t)
        else (false, s)
    | EmptyString => (false, s)
    end in
  '(v, n) ← int_digits 0 0 false body;
  if (4300 <? n)%nat then None else Some (if negative then - v else v).

(** The truth value of an [Optional[str]]. *)
Definition truthy (o : option string) : bool :=
  match o with
  | Some s => negb (is_empty s)
  | None => false
  end.

(** *** The service *)

Definition parse_chord (chord_str : string) : ChordInfo :=
  let chord_str := strip chord_str in
  let '(chord_str, bass) :=
    if contains "/" chord_str then
      let '(p0, ps) := split "/" chord_str in
      (p0, match ps with p1 :: _ => Some p1 | [] => None end)
    else (chord_str, None) in
  match ROOT_PATTERN_match chord_str with
  | Some (g1, g2) =>
      let root := capitalize g1 in
      let root :=
        match root with
        | String r0 (String r1 _) =>
            String (upper_char r0) (String (lower_char r1) EmptyString)
        | _ => root
        end in
      mkChordInfo root g2 bass
  | None => mkChordInfo chord_str EmptyString bass
  end.

Definition get_semitone_index (note : string) : Z :=
  let note := strip note in
  let note :=
    match note with
    | String n0 (String n1 _) =>
        String (upper_char n0) (String (lower_char n1) EmptyString)
    | _ => upper note
    end in
  let note := default note (FLAT_TO_SHARP !! note) in
  match list_index note CHROMATIC_SHARP with
  | Some i => Z.of_nat i
  | None => 0
  end.

Definition transpose_note (note : string) (semitones : Z) (use_flats : bool) : option string :=
  if is_empty note then Some note
  else
    let index := get_semitone_index note in
    let new_index := (index + semitones) mod 12 in
    if use_flats then getitem CHROMATIC_FLAT new_index
    else getitem CHROMATIC_SHARP new_index.

Definition transpose_chord (chord_str : string) (semitones : Z) (use_flats : bool) : option string :=
  let chord_info := parse_chord chord_str in
  new_root ← transpose_note (root chord_info) semitones use_flats;
  new_bass ←
    (if truthy (bass chord_info)
     then Some <$> transpose_note (default EmptyString (bass chord_info)) semitones use_flats
     else Some None);
  let result := new_root +:+ quality chord_info in
  let result :=
    if truthy new_bass then result +:+ "/" +:+ default EmptyString new_bass
    else result in
  Some result.

Definition calculate_transpose_semitones (from_key to_key : string) : Z :=
  let from_root := strip (remove_char "m" from_key) in
  let to_root := strip (remove_char "m" to_key) in
  let from_index := get_semitone_index from_root in
  let to_index := get_semitone_index to_root in
  (to_index - from_index) mod 12.

Definition transpose_chordpro (content from_key to_key : string) : option string :=
  let semitones := calculate_transpose_semitones from_key to_key in
  if semitones =? 0 then Some content
  else
    let use_flats := bool_decide (to_key ∈ FLAT_KEYS) in
    let replace_chord := λ chord,
      transposed ← transpose_chord chord semitones use_flats;
      Some ("[" +:+ transposed +:+ "]") in
    CHORD_PATTERN_sub replace_chord content.

(** [segments[-1] = x] for a list that is not empty. *)
Fixpoint set_last {A} (l : list A) (x : A) : list A :=
  match l with
  | [] => []
  | [_] => [x]
  | y :: r => y :: set_last r x
  end.

(** The body of the loop over the matches of a line, on the state
    [(all_chords, segments, last_end)]. *)
Definition segment_step (line : string)
    (st : list string * list Segment * nat) (m : Match)
  : list string * list Segment * nat :=
  let '(all_chords, segments, last_end) := st in
  let chord := m_group1 m in
  let all_chords := all_chords ++ [chord] in
  let lyric_before := slice line last_end (m_start m) in
  let segments :=
    if negb (is_empty lyric_before) || bool_decide (segments ≠ []) then
      match last segments with
      | Some (prev_chord, prev_lyric) =>
          set_last segments (prev_chord, prev_lyric +:+ lyric_before)
      | None => segments ++ [(None, lyric_before)]
      end
    else segments in
  (all_chords, segments ++ [(Some chord, EmptyString)], m_end m).

(** The part of the loop body of [parse_chordpro] after the directive
    check: the segments of [line], and [all_chords] extended. *)
Definition parse_chord_line (all_chords : list string) (line : string)
  : list string * ParsedLine :=
  let '(all_chords, segments, last_end) :=
    foldl (segment_step line) (all_chords, [], O) (CHORD_PATTERN_finditer line) in
  let remaining := slice_from line last_end in
  let segments :=
    match last segments with
    | Some (prev_chord, prev_lyric) =>
        set_last segments (prev_chord, prev_lyric +:+ remaining)
    | None => if negb (is_empty remaining) then [(None, remaining)] else []
    end in
  (all_chords, mkParsedLine segments).

(** [a or b] on optional strings, and [a or ""]. *)
Definition or_else (a b : option string) : option string := if truthy a then a else b.
Definition or_empty (a : option string) : string :=
  if truthy a then default EmptyString a else EmptyString.

(** The body of the loop over the lines of the document. *)
Definition line_step (st : ParsedChordPro) (line : string) : ParsedChordPro :=
  let line := rstrip line in
  match DIRECTIVE_PATTERN_search line with
  | Some directive_match =>
      let directive :=
        lower (or_empty (or_else (d_group1 directive_match) (d_group3 directive_match))) in
      let value := or_empty (d_group2 directive_match) in
      if bool_decide (directive ∈ ["title"; "t"]) then
        mkParsedChordPro (Some value) (artist st) (key st) (tempo st) (lines st) (raw_chords st)
      else if bool_decide (directive ∈ ["artist"; "subtitle"; "st"]) then
        mkParsedChordPro (title st) (Some value) (key st) (tempo st) (lines st) (raw_chords st)
      else if bool_decide (directive = "key") then
        mkParsedChordPro (title st) (artist st) (Some value) (tempo st) (lines st) (raw_chords st)
      else if bool_decide (directive ∈ ["tempo"; "bpm"]) then
        match int_of_str value with
        | Some n =>
            mkParsedChordPro (title st) (artist st) (key st) (Some n) (lines st) (raw_chords st)
        | None => st
        end
      else st
  | None =>
      let '(all_chords, parsed_line) := parse_chord_line (raw_chords st) line in
      mkParsedChordPro (title st) (artist st) (key st) (tempo st)
        (lines st ++ [parsed_line]) all_chords
  end.

(** [content.split('\n')] as a list. *)
Definition split_lines (content : string) : list string :=
  let '(l, ls) := split LF content in l :: ls.

Definition parse_chordpro (content : string) : ParsedChordPro :=
  foldl line_step (mkParsedChordPro None None None None [] []) (split_lines content).

(** The dictionary [root_counts]: keys in the order of their insertion. *)
Fixpoint dict_get (d : list (string * Z)) (k : string) (dflt : Z) : Z :=
  match d with
  | [] => dflt
  | (k', v) :: r => if bool_decide (k' = k) then v else dict_get r k dflt
  end.

Fixpoint dict_set (d : list (string * Z)) (k : string) (v : Z) : list (string * Z) :=
  match d with
  | [] => [(k, v)]
  | (k', v') :: r => if bool_decide (k' = k) then (k', v) :: r else (k', v') :: dict_set r k v
  end.

(** [max(d, key=d.get)] on a dictionary that is not empty: the first key,
    in the order of the dictionary, that no later key exceeds. *)
Definition dict_max_key (d : list (string * Z)) : option string :=
  match d with
  | [] => None
  | e :: r =>
      Some (fst (foldl (λ best x, if snd best <? snd x then x else best) e r))
  end.

Definition count_roots (chords : list string) : list (string * Z) :=
  foldl (λ root_counts chord_str,
           let chord_info := parse_chord chord_str in
           let root := root chord_info in
           dict_set root_counts root (dict_get root_counts root 0 + 1))
        [] chords.

Definition detect_key (content : string) : option string :=
  let parsed := parse_chordpro content in
  if truthy (key parsed) then key parsed
  else
    let chords := raw_chords parsed in
    match chords with
    | [] => None
    | chord0 :: _ =>
        let root_counts := count_roots chords in
        let first_chord := parse_chord chord0 in
        let root_counts :=
          dict_set root_counts (root first_chord)
                   (dict_get root_counts (root first_chord) 0 + 2) in
        match root_counts with
        | [] => None
        | _ => dict_max_key root_counts
        end
    end.

Definition mismatch_warning (open_count close_count : nat) : string :=
  "Mismatched brackets: " +:+ str_of_nat open_count +:+ " '[' vs "
  +:+ str_of_nat close_count +:+ " ']'".

Definition empty_warning : string := "Empty chord brackets found".

Definition invalid_warning (chord : string) : string := "Invalid chord: " +:+ chord.

Definition validate_chordpro (content : string) : bool * list string :=
  let warnings := [] in
  let open_count := count "[" content in
  let close_count := count "]" content in
  let warnings :=
    if bool_decide (open_count ≠ close_count)
    then warnings ++ [mismatch_warning open_count close_count] else warnings in
  let warnings :=
    if has_substring "[]" content then warnings ++ [empty_warning] else warnings in
  let warnings :=
    foldl (λ warnings m,
             let chord := m_group1 m in
             if negb (starts_with_note_letter chord)
             then warnings ++ [invalid_warning chord] else warnings)
          warnings (CHORD_PATTERN_finditer content) in
  let is_valid := bool_decide (length warnings = O) in
  (is_valid, warnings).

(** *** Chord lists and renderings *)

(** [CHORD_PATTERN.findall(s)]: group 1 of every match. *)
Definition CHORD_PATTERN_findall (s : string) : list string :=
  m_group1 <$> CHORD_PATTERN_finditer s.

Definition extract_chords (content : string) : list string :=
  let chords := CHORD_PATTERN_findall content in
  let '(seen, unique_chords) :=
    foldl (λ (st : gset string * list string) chord,
             let '(seen, unique_chords) := st in
             if bool_decide (chord ∉ seen)
             then (seen ∪ {[chord]}, unique_chords ++ [chord])
             else (seen, unique_chords))
          (∅, []) chords in
  unique_chords.

(** [s.replace(c, new)] for a one-character [c]. *)
Fixpoint replace_char (c : char) (new s : string) : string :=
  match s with
  | EmptyString => EmptyString
  | String d t =>
      (if bool_decide (d = c) then new else String d EmptyString) +:+ replace_char c new t
  end.

(** The double quote. *)
Definition DQUOTE : char := Char 34.

Definition _escape_html (text : string) : string :=
  replace_char "'" "&#39;"
    (replace_char DQUOTE "&quot;"
       (replace_char ">" "&gt;"
          (replace_char "<" "&lt;"
             (replace_char "&" "&amp;" text)))).

(** [s] between double quotes. *)
Definition quoted (s : string) : string :=
  String DQUOTE (s +:+ String DQUOTE EmptyString).




(** The entry of [html_parts] for one segment. *)
Definition html_part (highlight_class : string) (seg : Segment) : string :=
  let '(chord, lyric) := seg in
  if truthy chord then
    "<span class=" +:+ quoted "chord-segment" +:+ ">"
    +:+ "<span class=" +:+ quoted highlight_class +:+ ">"
    +:+ _escape_html (default EmptyString chord) +:+ "</span>"
    +:+ "<span class=" +:+ quoted "lyric" +:+ ">" +:+ _escape_html lyric +:+ "</span>"
    +:+ "</span>"
  else
    "<span class=" +:+ quoted "lyric" +:+ ">" +:+ _escape_html lyric +:+ "</span>".

(** The body of the loop of [chordpro_to_html] over the parsed lines. *)
Definition html_step (highlight_class : string) (html_lines : list string)
    (line : ParsedLine) : list string :=
  match segments line with
  | [] => html_lines ++ ["<div class=" +:+ quoted "chord-line empty" +:+ "></div>"]
  | _ =>
      let html_parts :=
        foldl (λ html_parts seg, html_parts ++ [html_part highlight_class seg])
              [] (segments line) in
      html_lines
      ++ ["<div class=" +:+ quoted "chord-line" +:+ ">" +:+ join "" html_parts +:+ "</div>"]
  end.

(** The default of [highlight_class] is ["chord"]. *)
Definition chordpro_to_html (content highlight_class : string) : string :=
  let parsed := parse_chordpro content in
  let html_lines := foldl (html_step highlight_class) [] (lines parsed) in
  join (String LF EmptyString) html_lines.

(** The loop [while len(''.join(chord_line)) < position:
    chord_line.append(' ')]; every round makes the joined text one
    character longer, so [position] rounds are enough. *)
Fixpoint pad_loop (fuel : nat) (chord_line : list string) (position : nat) : list string :=
  match fuel with
  | O => chord_line
  | S fuel =>
      if (len (join "" chord_line) <? position)%nat
      then pad_loop fuel (chord_line ++ [" "]) position
      else chord_line
  end.

(** The body of the loop over the segments of a line, on the state
    [(chord_line, lyric_line, position)]. *)
Definition text_step (st : list string * list string * nat) (seg : Segment)
  : list string * list string * nat :=
  let '(chord_line, lyric_line, position) := st in
  let '(chord, lyric) := seg in
  let chord_line :=
    if truthy chord
    then pad_loop position chord_line position ++ [default EmptyString chord]
    else chord_line in
  (chord_line, lyric_line ++ [lyric], (position + len lyric)%nat).

(** The body of the loop of [chordpro_to_text] over the parsed lines. *)
Definition text_line_step (show_chords : bool) (text_lines : list string)
    (line : ParsedLine) : list string :=
  match segments line with
  | [] => text_lines ++ [EmptyString]
  | _ =>
      if show_chords then
        let '(chord_line, lyric_line, position) :=
          foldl text_step ([], [], O) (segments line) in
        let chord_str := join "" chord_line in
        let lyric_str := join "" lyric_line in
        let text_lines :=
          if negb (is_empty (strip chord_str)) then text_lines ++ [chord_str]
          else text_lines in
        if negb (is_empty (strip lyric_str)) then text_lines ++ [lyric_str]
        else text_lines
      else
        let lyric_parts := snd <$> segments line in
        text_lines ++ [join "" lyric_parts]
  end.

(** The default of [show_chords] is [True]. *)
Definition chordpro_to_text (content : string) (show_chords : bool) : string :=
  let parsed := parse_chordpro content in
  let text_lines := foldl (text_line_step show_chords) [] (lines parsed) in
  join (String LF EmptyString) text_lines.

End ChordService.

(** ** api/routes/chords.py *)

Module ChordRoutes.
Import ChordService.

Record TransposeRequest := mkTransposeRequest {
  request_content : string;
  request_from_key : string;
  request_to_key : string
}.

Record TransposeResponse := mkTransposeResponse {
  content : string;
  from_key : string;
  to_key : string;
  semitones : Z
}.

Record HTTPException := mkHTTPException {
  status_code : Z;
  detail : string
}.

(** What a handler does: it returns a response or raises an
    [HTTPException]. *)
Inductive outcome (A : Type) :=
  | Return (response : A)
  | Raise (exc : HTTPException).
Arguments Return {A} response.
Arguments Raise {A} exc.

(** [None] is an exception raised by [transpose_chordpro]. *)
Definition transpose_chords (request : TransposeRequest)
  : option (outcome TransposeResponse) :=
  let '(is_valid, warnings) := validate_chordpro (request_content request) in
  if negb is_valid then
    Some (Raise (mkHTTPException 400
                   ("Invalid ChordPro content: " +:+ join ", " warnings)))
  else
    let semitones :=
      calculate_transpose_semitones (request_from_key request) (request_to_key request) in
    transposed ←
      transpose_chordpro (request_content request) (request_from_key request)
                         (request_to_key request);
    Some (Return (mkTransposeResponse transposed (request_from_key request)
                    (request_to_key request) semitones)).

Record DetectKeyResponse := mkDetectKeyResponse {
  detected : option string;
  confidence : string
}.

(** The handler [detect_key]; the field [key] of its response is
    [detected] here. *)
Definition detect_key (request_content : string) : DetectKeyResponse :=
  let parsed := parse_chordpro request_content in
  if truthy (key parsed) then mkDetectKeyResponse (key parsed) "high"
  else
    let detected_key := ChordService.detect_key request_content in
    let confidence := if truthy detected_key then "medium" else "low" in
    mkDetectKeyResponse detected_key confidence.

End ChordRoutes.

(** * Statements of the specification *)

Module Spec.
Import PyStr KeyTransition ChordService.

(** ** Key compatibility (section 4.8) *)

(** The pair is in the relative major/minor table, in either direction. *)
Definition relative_pair (a b : string) : Prop :=
  RELATIVE_KEYS !! a = Some b ∨ RELATIVE_KEYS !! b = Some a.

(** The ordered rule chain of [classify], on the pitch classes of the two
    keys and their folded distance. *)
Definition classify (from_key to_key : string) : KeyCompatibility :=
  let from_pc := get_semitone from_key in
  let to_pc := get_semitone to_key in
  let folded := get_key_distance from_key to_key in
  if decide (from_key = to_key) then NATURAL
  else if decide (relative_pair from_key to_key) then OK
  else if decide ((to_pc - from_pc) mod 12 = 5 ∨ (to_pc - from_pc) mod 12 = 7) then NATURAL
  else if decide (0 ≤ folded ≤ 2) then NATURAL
  else if decide (folded = 3) then OK
  else AWKWARD.

(** ** Setlist key flow (section 4.9) *)

(** The adjacent pairs of a list, in order. *)
Definition adjacent_pairs (keys : list string) : list (string * string) :=
  zip keys (tail keys).

(** The larger of two tiers under NATURAL < OK < AWKWARD. *)
Definition tier_max (a b : KeyCompatibility) : KeyCompatibility :=
  match a, b with
  | AWKWARD, _ | _, AWKWARD => AWKWARD
  | OK, _ | _, OK => OK
  | NATURAL, NATURAL => NATURAL
  end.

Definition max_tier (l : list KeyCompatibility) : KeyCompatibility :=
  foldr tier_max NATURAL l.

(** The warning for the pair of the songs at the 1-based positions [p] and
    [p + 1]. *)
Definition position_warning (p : nat) (from_key to_key : string) : string :=
  str_of_nat p +:+ "번째 → " +:+ str_of_nat (p + 1) +:+ "번째 곡: "
  +:+ from_key +:+ " → " +:+ to_key +:+ " 전환이 어색할 수 있습니다".

(** The warnings of the AWKWARD pairs among [ps], the first of which is at
    the 1-based position [p]. *)
Fixpoint awkward_warnings (p : nat) (ps : list (string * string)) : list string :=
  match ps with
  | [] => []
  | (a, b) :: r =>
      (if decide (check_key_compatibility a b = AWKWARD)
       then [position_warning p a b] else [])
      ++ awkward_warnings (S p) r
  end.

Definition analyze_flow (keys : list string) : KeyFlow :=
  let pairs := adjacent_pairs keys in
  let tiers := (λ ab, check_key_compatibility ab.1 ab.2) <$> pairs in
  {| overall := max_tier tiers;
     transitions := (λ ab, mkTransition ab.1 ab.2 (check_key_compatibility ab.1 ab.2)) <$> pairs;
     warnings := awkward_warnings 1 pairs |}.

(** ** Documents as scanned by [CHORD_PATTERN] *)

(** The text that a list of pieces was scanned from. *)
Fixpoint source (ps : list piece) : string :=
  match ps with
  | [] => ""
  | Text c :: r => String c (source r)
  | Bracket g :: r => "[" +:+ g +:+ "]" +:+ source r
  end.

(** Group 1 of the matches among the pieces, in order. *)
Fixpoint groups (ps : list piece) : list string :=
  match ps with
  | [] => []
  | Text _ :: r => groups r
  | Bracket g :: r => g :: groups r
  end.

(** ** Validation (section 4.6) *)

(** The warnings that the two counting checks of the validator give. *)
Definition lexical_warnings (content : string) : list string :=
  (if decide (count "[" content = count "]" content) then []
   else [mismatch_warning (count "[" content) (count "]" content)])
  ++ (if has_substring "[]" content then [empty_warning] else []).

(** ** Chord parser (section 4.2) *)

(** The first character of the input, uppercased. *)
Definition first_char_upper (s : string) : string :=
  match s with
  | EmptyString => EmptyString
  | String c _ => String (upper_char c) EmptyString
  end.

(** The input without its first character. *)
Definition after_first_char (s : string) : string :=
  match s with
  | EmptyString => EmptyString
  | String _ t => t
  end.

(** The chord body: the stripped input up to its first slash. *)
Definition chord_body (s : string) : string := (split "/" (strip s)).1.

(** The text between the first and the second slash of the stripped
    input, when it has a slash. *)
Definition chord_bass (s : string) : option string := head (split "/" (strip s)).2.

(** ** Document parser (section 4.4) *)

(** The text of a segment: its chord in brackets, if it has one, and its
    lyric. *)
Definition segment_text (seg : Segment) : string :=
  match seg.1 with
  | Some chord => "[" +:+ chord +:+ "]" +:+ seg.2
  | None => seg.2
  end.

(** The segments of a parsed line put together again. *)
Definition reconstruct (pl : ParsedLine) : string :=
  concat_all (segment_text <$> segments pl).

(** The line is not consumed as a directive. *)
Definition chord_line (line : string) : Prop :=
  DIRECTIVE_PATTERN_search line = None.

#[global] Instance chord_line_dec line : Decision (chord_line line).
Proof. unfold chord_line. apply _. Defined.

(** The document before any line is read. *)
Definition empty_document : ParsedChordPro := mkParsedChordPro None None None None [] [].

(** Every character of [s] satisfies [p]. *)
Fixpoint all_chars (p : char → bool) (s : string) : bool :=
  match s with
  | EmptyString => true
  | String c t => p c && all_chars p t
  end.


(** The source line as the parser reads it, and the lines that it does
    not consume as directives. *)
Definition chord_lines (content : string) : list string :=
  filter chord_line (rstrip <$> split_lines content).

(** ** Key detection (section 4.7) *)

(** The roots of the chords of a document, in document order. *)
Definition chord_roots (content : string) : list string :=
  (λ chord, root (parse_chord chord)) <$> raw_chords (parse_chordpro content).

(** The number of chords with root [r]. *)
Definition occurrences (r : string) (rs : list string) : Z :=
  Z.of_nat (length (filter (λ x, x = r) rs)).

(** The Spec.tally of [r]: its occurrences, and two more points when it is the
    root of the first chord. *)
Definition total (rs : list string) (r : string) : Z :=
  occurrences r rs + (if decide (head rs = Some r) then 2 else 0).

(** No root has a higher total than [r]. *)
Definition highest (rs : list string) (r : string) : Prop :=
  Forall (λ r', total rs r' ≤ total rs r) rs.

#[global] Instance highest_dec rs r : Decision (highest rs r).
Proof. unfold highest. apply _. Defined.

(** The first root, in document order, with the highest total. *)
Definition first_highest (rs : list string) : option string :=
  head (filter (highest rs) rs).

(** The distinct roots in the order of their first occurrence. *)
Definition first_occurrences (rs : list string) : list string :=
  foldl (λ acc r, if decide (r ∈ acc) then acc else acc ++ [r]) [] rs.

(** The dictionary [root_counts] after the loop over the roots [rs]. *)
Definition tally (rs : list string) : list (string * Z) :=
  foldl (λ d r, dict_set d r (dict_get d r 0 + 1)) [] rs.

(** The tie-break as the claim words it.  The running total of [r] after
    the first [n] chords; the two points of the first root are counted
    from the first chord on when [bonus_first] holds, and after the last
    chord otherwise. *)
Definition running_total (bonus_first : bool) (rs : list string) (n : nat) (r : string) : Z :=
  occurrences r (take n rs)
  + (if decide (head rs = Some r)
     then (if bonus_first || bool_decide (length rs ≤ n)%nat then 2 else 0)
     else 0).

Definition highest_total (rs : list string) : Z := foldr Z.max 0 (total rs <$> rs).

(** The root whose running total reaches the highest total first, when
    the chords are tallied in document order. *)
Definition first_to_reach (bonus_first : bool) (rs : list string) : option string :=
  head (concat ((λ n, filter (λ r, highest_total rs ≤ running_total bonus_first rs n r)
                             (take n rs))
                <$> seq 1 (length rs))).

(** ** Transposition (section 4.3) *)

(** A note name of the pitch-class tables: an uppercase letter A-G and at
    most one accidental. *)
Definition note_spelling (n : string) : Prop :=
  ∃ l acc, n = String l acc ∧ is_note_letter l = true ∧ upper_char l = l
           ∧ (acc = "" ∨ ∃ a, acc = String a "" ∧ is_accidental a = true).

(** The first character of [s] is [#] or [b]. *)
Definition starts_with_accidental (s : string) : bool :=
  match s with
  | EmptyString => false
  | String c _ => is_accidental c
  end.

(** The pitch class of the root of a chord, as the transposer reads it. *)
Definition root_pitch_class (chord : string) : Z :=
  get_semitone_index (root (parse_chord chord)).

(** The pitch class of the bass of a chord, when it has one. *)
Definition bass_pitch_class (chord : string) : option Z :=
  if truthy (bass (parse_chord chord))
  then Some (get_semitone_index (default EmptyString (bass (parse_chord chord))))
  else None.

Definition pitch_classes (chord : string) : Z * option Z :=
  (root_pitch_class chord, bass_pitch_class chord).

(** Root and bass moved up by [semitones]. *)
Definition shifted (semitones : Z) (pcs : Z * option Z) : Z * option Z :=
  ((pcs.1 + semitones) mod 12, (λ b, (b + semitones) mod 12) <$> pcs.2).

(** The quality of the chord does not begin with a second accidental. *)
Definition plain_quality (chord : string) : Prop :=
  starts_with_accidental (quality (parse_chord chord)) = false.

#[global] Instance plain_quality_dec chord : Decision (plain_quality chord).
Proof. unfold plain_quality. apply _. Defined.

(** The pieces with the group of every match replaced by [f] of it. *)
Definition map_brackets (f : string → string) (ps : list piece) : list piece :=
  (λ p, match p with Text c => Text c | Bracket g => Bracket (f g) end) <$> ps.

(** The chord that [transpose_chord] returns. *)
Definition transposed (semitones : Z) (use_flats : bool) (chord : string) : string :=
  default EmptyString (transpose_chord chord semitones use_flats).

(** Two pieces are the same character outside the matches, or are both
    matches. *)
Inductive same_frame : piece → piece → Prop :=
  | same_frame_text c : same_frame (Text c) (Text c)
  | same_frame_bracket g g' : same_frame (Bracket g) (Bracket g').

(** A match whose group starts with a note letter and holds no closing
    bracket, or a character. *)
Definition valid_piece (p : piece) : Prop :=
  match p with
  | Text _ => True
  | Bracket g => starts_with_note_letter g = true ∧ contains "]" g = false
  end.

(** The number of lines of a document. *)
Definition line_count (content : string) : nat := length (split_lines content).

(** A chord bracket that spans a line break. *)
Definition two_line_bracket : string := "[G" +:+ String LF "x]".

(** The pitch classes of root and bass of the chords of a document, in
    order. *)
Definition document_pitch_classes (content : string) : list (Z * option Z) :=
  pitch_classes <$> groups (scan content).

(** ** Unknown keys (section 7) *)

(** The key is not in the pitch-class table of the compatibility engine. *)
Definition unknown_key (key : string) : Prop :=
  KEY_SEMITONES !! (normalize_key key).1 = None.

(** The name that [get_semitone_index] looks up for a note. *)
Definition looked_up (note : string) : string :=
  let note := strip note in
  let note :=
    match note with
    | String n0 (String n1 _) =>
        String (upper_char n0) (String (lower_char n1) EmptyString)
    | _ => upper note
    end in
  default note (FLAT_TO_SHARP !! note).

(** The note is not in the pitch-class tables of the transposer. *)
Definition unknown_note (note : string) : Prop :=
  list_index (looked_up note) CHROMATIC_SHARP = None.

(** The root of a key as the transposer reads it. *)
Definition key_root (key : string) : string := strip (remove_char "m" key).

(** The tier of a transition from the pitch class [x] to the pitch class
    [y]. *)
Definition tier_of_pitch_classes (x y : Z) : KeyCompatibility :=
  let interval := (y - x) mod 12 in
  let folded := Z.min (Z.abs (y - x)) (12 - Z.abs (y - x)) in
  if decide (interval = 5 ∨ interval = 7) then NATURAL
  else if decide (folded ≤ 2) then NATURAL
  else if decide (folded = 3) then OK
  else AWKWARD.

(** ** Tiers by folded distance *)

(** The tier that belongs to a folded distance. *)
Definition tier_of_distance (d : Z) : KeyCompatibility :=
  if decide (d = 3) then OK
  else if decide (d = 4 ∨ d = 6) then AWKWARD
  else NATURAL.

(** The transition between two keys is AWKWARD. *)
Definition awkward_pair (ab : string * string) : Prop :=
  check_key_compatibility ab.1 ab.2 = AWKWARD.

#[global] Instance awkward_pair_dec ab : Decision (awkward_pair ab).
Proof. unfold awkward_pair. apply _. Defined.

(** ** The structure of a parsed line *)

(** The characters before the first match among the pieces. *)
Fixpoint leading_text (ps : list piece) : string :=
  match ps with
  | Text c :: r => String c (leading_text r)
  | _ => ""
  end.

(** One segment for every match: its group, and the text up to the next
    match. *)
Fixpoint chord_segments (ps : list piece) : list Segment :=
  match ps with
  | [] => []
  | Text _ :: r => chord_segments r
  | Bracket g :: r => (Some g, leading_text r) :: chord_segments r
  end.

(** The segments of a line: a segment without chord for the text before
    the first match, if there is such text, and the segments of the
    matches. *)
Definition line_segments (ps : list piece) : list Segment :=
  (if is_empty (leading_text ps) then [] else [(None, leading_text ps)])
  ++ chord_segments ps.

(** The pieces with every match rendered by [f] of its group. *)
Fixpoint render_pieces (f : string → string) (ps : list piece) : string :=
  match ps with
  | [] => ""
  | Text c :: r => String c (render_pieces f r)
  | Bracket g :: r => f g +:+ render_pieces f r
  end.

(** The segments with every chord rendered by [f]. *)
Definition render_segments (f : string → string) (segs : list Segment) : string :=
  concat_all ((λ seg, from_option f "" seg.1 +:+ seg.2) <$> segs).

(** The text added to the lyric of the last segment, or made a segment
    without chord when there is no segment yet and the text is not empty. *)
Definition add_lyric (segs : list Segment) (text : string) : list Segment :=
  match last segs with
  | Some (prev_chord, prev_lyric) => set_last segs (prev_chord, prev_lyric +:+ text)
  | None => if is_empty text then [] else [(None, text)]
  end.

(** ** Unique chords *)

(** The list without the later occurrences of its elements. *)
Fixpoint keep_first (l : list string) : list string :=
  match l with
  | [] => []
  | x :: r => x :: filter (λ y, y ≠ x) (keep_first r)
  end.

(** ** HTML *)

(** The entity that stands for a character in HTML text, or the character
    itself. *)
Definition entity (c : char) : string :=
  if decide (c = "&"%chr) then "&amp;"
  else if decide (c = "<"%chr) then "&lt;"
  else if decide (c = ">"%chr) then "&gt;"
  else if decide (c = DQUOTE) then "&quot;"
  else if decide (c = "'"%chr) then "&#39;"
  else String c "".

(** The character is one of the five that [_escape_html] replaces. *)
Definition special (c : char) : bool :=
  bool_decide (c ∈ ["&"%chr; "<"%chr; ">"%chr; DQUOTE; "'"%chr]).

(** ** Renderings *)

(** The line without the brackets of its chords. *)
Definition without_brackets (line : string) : string :=
  render_pieces (λ g, g) (scan line).

(** The line without its chords. *)
Definition lyrics (line : string) : string :=
  render_pieces (λ _, "") (scan line).

(** A tag with the given text between the angle brackets. *)
Definition tag (t : string) : string := "<" +:+ t +:+ ">".

(** The text of an HTML fragment outside its tags; a tag runs from [<] to
    the next [>]. *)
Fixpoint visible_text (in_tag : bool) (html : string) : string :=
  match html with
  | EmptyString => EmptyString
  | String c t =>
      if in_tag then visible_text (negb (bool_decide (c = ">"%chr))) t
      else if bool_decide (c = "<"%chr) then visible_text true t
      else String c (visible_text false t)
  end.

(** [n] blanks. *)
Fixpoint blanks (n : nat) : string :=
  match n with
  | O => ""
  | S n => String " " (blanks n)
  end.

(** The chord row that [chordpro_to_text] builds for a line. *)
Definition chord_row (line : string) : string :=
  join "" (foldl text_step ([], [], O) (line_segments (scan line))).1.1.

(** The rows that [chordpro_to_text] prints for a line when it shows the
    chords: an empty row for an empty line; otherwise the chord row when
    the line has a chord, and the lyrics when they are not blank. *)
Definition text_rows (line : string) : list string :=
  if is_empty line then [""]
  else
    (if bool_decide (CHORD_PATTERN_findall line = []) then [] else [chord_row line])
    ++ (if all_chars isspace (lyrics line) then [] else [lyrics line]).

(** ** Metadata *)

(** The line [{name:value}]. *)
Definition directive_line (name value : string) : string :=
  "{" +:+ name +:+ ":" +:+ value +:+ "}".

(** The four metadata fields of a document. *)
Definition metadata (d : ParsedChordPro)
  : option string * option string * option string * option Z :=
  (title d, artist d, key d, tempo d).

End Spec.

(** * Properties *)

Import PyStr KeyTransition ChordService.


(** ** Pitch classes and the rule chain *)

Section key_transition.

Lemma KEY_SEMITONES_range k v : KEY_SEMITONES !! k = Some v → 0 ≤ v ≤ 11.
Proof.
  intros H. apply elem_of_list_to_map_2 in H.
  repeat (apply elem_of_cons in H as [[= -> ->]|H]; [lia|]).
  by apply elem_of_nil in H.
Qed.

Lemma get_semitone_range key : 0 ≤ get_semitone key ≤ 11.
Proof.
  unfold get_semitone, normalize_key.
  destruct (KEY_SEMITONES !! _) eqn:E; simpl; [|lia].
  by apply KEY_SEMITONES_range in E.
Qed.

Lemma get_key_distance_range a b : 0 ≤ get_key_distance a b ≤ 6.
Proof.
  unfold get_key_distance.
  pose proof (get_semitone_range a). pose proof (get_semitone_range b). lia.
Qed.

Lemma get_key_distance_sym a b : get_key_distance a b = get_key_distance b a.
Proof. unfold get_key_distance. lia. Qed.

(** The function and the rule chain agree on every pair of keys. *)
Lemma check_key_compatibility_classify a b :
  check_key_compatibility a b = Spec.classify a b.
Proof.
  unfold check_key_compatibility, Spec.classify, Spec.relative_pair.
  pose proof (get_key_distance_range a b) as Hd.
  generalize dependent (get_key_distance a b). intros d Hd.
  generalize ((get_semitone b - get_semitone a) mod 12). intros i.
  generalize (RELATIVE_KEYS !! a) (RELATIVE_KEYS !! b). intros ra rb.
  destruct (decide (a = b)) as [->|Hne]; [by rewrite bool_decide_eq_true_2|].
  rewrite (bool_decide_eq_false_2 _ Hne).
  destruct (decide (ra = Some b ∨ rb = Some a)) as [Hr|Hr].
  { replace (bool_decide _ || bool_decide _) with true; [done|].
    symmetry. apply orb_true_iff. by rewrite !bool_decide_eq_true. }
  replace (bool_decide _ || bool_decide _) with false.
  2:{ symmetry. apply orb_false_iff. rewrite !bool_decide_eq_false. tauto. }
  destruct (decide (i = 5 ∨ i = 7)) as [Hi|Hi].
  { rewrite bool_decide_eq_true_2; [done|]. rewrite !elem_of_cons. tauto. }
  rewrite bool_decide_eq_false_2.
  2:{ rewrite !elem_of_cons, elem_of_nil. tauto. }
  destruct (Z.leb_spec d 2), (Z.eqb_spec d 3); repeat case_decide; done || lia.
Qed.

(** C1: [check_key_compatibility] evaluates the ordered rule chain (same
    string, relative pair, directional interval 5 or 7, folded distance)
    and returns the tier of the first rule that applies; the folded
    distance is always within 0..6, so that the last rule is exhaustive;
    and the four spot checks of the specification hold. *)
Theorem check_key_compatibility_rule_chain :
  (∀ from_key to_key,
     check_key_compatibility from_key to_key = Spec.classify from_key to_key
     ∧ 0 ≤ get_key_distance from_key to_key ≤ 6)
  ∧ check_key_compatibility "C" "C" = NATURAL
  ∧ check_key_compatibility "C" "Am" = OK
  ∧ check_key_compatibility "C" "F#" = AWKWARD
  ∧ check_key_compatibility "G" "D" = NATURAL
  ∧ get_key_distance "G" "D" = 5.
Proof.
  split; [|by vm_compute].
  intros a b. split; [apply check_key_compatibility_classify|apply get_key_distance_range].
Qed.

Lemma tier_max_assoc a b c :
  Spec.tier_max a (Spec.tier_max b c) = Spec.tier_max (Spec.tier_max a b) c.
Proof. by destruct a, b, c. Qed.

Lemma worst_update a c :
  (if compatibility_order a <? compatibility_order c then c else a) = Spec.tier_max a c.
Proof. by destruct a, c. Qed.

Lemma awkward_warning_position i a b :
  awkward_warning i a b = Spec.position_warning (S i) a b.
Proof.
  unfold awkward_warning, Spec.position_warning.
  by replace (i + 1)%nat with (S i) by lia; replace (i + 2)%nat with (S i + 1)%nat by lia.
Qed.

Lemma flow_loop_spec keys : ∀ i st,
  flow_loop i keys st =
    let pairs := Spec.adjacent_pairs keys in
    {| overall :=
         Spec.tier_max (overall st)
           (Spec.max_tier ((λ ab, check_key_compatibility ab.1 ab.2) <$> pairs));
       transitions :=
         transitions st ++
         ((λ ab, mkTransition ab.1 ab.2 (check_key_compatibility ab.1 ab.2)) <$> pairs);
       warnings := warnings st ++ Spec.awkward_warnings (S i) pairs |}.
Proof.
  induction keys as [|a [|b keys] IH]; intros i st.
  - destruct st as [[] ? ?]; simpl; by rewrite !app_nil_r.
  - destruct st as [[] ? ?]; simpl; by rewrite !app_nil_r.
  - change (flow_loop i (a :: b :: keys) st)
      with (flow_loop (S i) (b :: keys) (flow_step i a b st)).
    rewrite IH. unfold flow_step, Spec.adjacent_pairs. simpl.
    rewrite worst_update, <- tier_max_assoc, <- !app_assoc, awkward_warning_position.
    f_equal.
    generalize (check_key_compatibility a b). intros c.
    destruct (decide (c = AWKWARD)) as [->|Hc].
    + by rewrite bool_decide_eq_true_2, <- app_assoc.
    + by rewrite bool_decide_eq_false_2.
Qed.

(** C8: [analyze_setlist_key_flow] is the flow analysis of the
    specification: one transition per adjacent pair in order, the overall
    tier is the maximum tier of the pairs, and exactly the AWKWARD pairs
    contribute a warning with their 1-based positions and key names; a list
    of fewer than two keys gives NATURAL and no transition or warning; and
    the example of the specification holds. *)
Theorem analyze_setlist_key_flow_spec :
  (∀ keys, analyze_setlist_key_flow keys = Spec.analyze_flow keys)
  ∧ (∀ keys, length (transitions (analyze_setlist_key_flow keys)) = (length keys - 1)%nat)
  ∧ analyze_setlist_key_flow [] = mkKeyFlow NATURAL [] []
  ∧ (∀ k, analyze_setlist_key_flow [k] = mkKeyFlow NATURAL [] [])
  ∧ analyze_setlist_key_flow ["C"; "F#"; "Bb"] =
      mkKeyFlow AWKWARD
        [mkTransition "C" "F#" AWKWARD; mkTransition "F#" "Bb" AWKWARD]
        [Spec.position_warning 1 "C" "F#"; Spec.position_warning 2 "F#" "Bb"].
Proof.
  assert (∀ keys, analyze_setlist_key_flow keys = Spec.analyze_flow keys) as Heq.
  { intros keys. unfold analyze_setlist_key_flow. case_bool_decide as Hlen.
    - by destruct keys as [|? [|? ?]]; simpl in *; [..|lia].
    - rewrite flow_loop_spec. simpl. unfold Spec.analyze_flow. f_equal.
      by destruct (Spec.max_tier _). }
  split; [done|]. split; [|by vm_compute].
  intros keys. rewrite Heq. simpl. rewrite length_fmap. unfold Spec.adjacent_pairs.
  rewrite length_zip_with. destruct keys as [|k keys]; [done|].
  cbn [tail length]. lia.
Qed.

End key_transition.

(** ** Strings *)

(** A literal is the sequence of the code points of its text: a Hangul
    syllable, the ideographic space and a full-width digit are one
    character each. *)
Lemma literal_codes :
  codes "[G]주님" = [91; 71; 93; 51452; 45784]%N
  ∧ len "주님 " = 3%nat
  ∧ "１" = String (Char 65297) ""
  ∧ isspace (Char 12288) = true ∧ isspace (Char 160) = true
  ∧ is_word "주"%chr = true ∧ is_word "１"%chr = true.
Proof. by vm_compute. Qed.

Lemma app_nil_r_str s : s +:+ "" = s.
Proof. induction s as [|c s IH]; simpl; [done|by rewrite IH]. Qed.

Lemma app_nil_l_str b : "" +:+ b = b.
Proof. done. Qed.

Lemma app_cons_str c a b : String c a +:+ b = String c (a +:+ b).
Proof. done. Qed.

Lemma app_assoc_str a b c : (a +:+ b) +:+ c = a +:+ (b +:+ c).
Proof. induction a as [|x a IH]; simpl; [done|by rewrite IH]. Qed.

Create Rewrite HintDb str_app.
#[local] Hint Rewrite app_nil_r_str app_nil_l_str app_cons_str app_assoc_str : str_app.

(** Normal form of concatenations: nested to the right, literals unfolded. *)
Ltac str_norm := autorewrite with str_app.

Section strings.

Lemma length_app_str a b :
  len (a +:+ b) = (len a + len b)%nat.
Proof. induction a as [|x a IH]; simpl; [done|by rewrite IH]. Qed.

Lemma is_empty_true s : is_empty s = true ↔ s = "".
Proof. by destruct s. Qed.

Lemma is_empty_false s : is_empty s = false ↔ s ≠ "".
Proof. by destruct s. Qed.

Lemma rstrip_cons c t :
  rstrip (String c t)
  = if is_empty (rstrip t) && isspace c then "" else String c (rstrip t).
Proof. simpl. by destruct (rstrip t). Qed.

Lemma substring_app_skip a b n :
  substring (len a) n (a +:+ b) = substring 0 n b.
Proof. induction a; simpl; [by destruct b|done]. Qed.

Lemma substring_prefix a b : substring 0 (len a) (a +:+ b) = a.
Proof. induction a as [|x a IH]; simpl; [by destruct b|by rewrite IH]. Qed.

Lemma substring_all a : substring 0 (len a) a = a.
Proof. induction a as [|x a IH]; simpl; [done|by rewrite IH]. Qed.

Lemma slice_app pre mid rest :
  slice (pre +:+ mid +:+ rest) (len pre)
        (len pre + len mid) = mid.
Proof.
  unfold slice. rewrite substring_app_skip.
  replace (len pre + len mid - len pre)%nat
    with (len mid) by lia.
  apply substring_prefix.
Qed.

Lemma slice_from_app pre rest :
  slice_from (pre +:+ rest) (len pre) = rest.
Proof.
  unfold slice_from. rewrite substring_app_skip, length_app_str.
  replace (len pre + len rest - len pre)%nat
    with (len rest) by lia.
  apply substring_all.
Qed.

Lemma until_Some stop s b r :
  until stop s = Some (b, r) →
  s = b +:+ String stop r ∧ contains stop b = false.
Proof.
  revert b. induction s as [|c t IH]; intros b; simpl; [done|].
  case_bool_decide as Hc.
  - intros [= <- <-]. by subst.
  - destruct (until stop t) as [[b' r']|] eqn:E; simpl; [|done].
    intros [= <- <-]. destruct (IH b' eq_refl) as [-> Hb]. split; [done|].
    simpl. by rewrite bool_decide_eq_false_2.
Qed.

Lemma until_None stop s : until stop s = None ↔ contains stop s = false.
Proof.
  induction s as [|c t IH]; simpl; [done|].
  case_bool_decide; simpl; [done|].
  rewrite <- IH. by destruct (until stop t) as [[??]|].
Qed.

Lemma until_app stop b r :
  contains stop b = false → until stop (b +:+ String stop r) = Some (b, r).
Proof.
  induction b as [|c b IH]; simpl.
  - by rewrite bool_decide_eq_true_2.
  - case_bool_decide; simpl; [done|]. intros Hb. by rewrite IH.
Qed.

End strings.

(** ** Characters *)

Section characters.

Lemma note_letter_cases c :
  is_note_letter c = true →
  c ∈ ["A"; "B"; "C"; "D"; "E"; "F"; "G"; "a"; "b"; "c"; "d"; "e"; "f"; "g"]%chr.
Proof.
  destruct c as [n]. unfold is_note_letter, code_in. simpl.
  rewrite orb_true_iff, !andb_true_iff, !N.leb_le. intros H.
  assert (n ∈ [65; 66; 67; 68; 69; 70; 71; 97; 98; 99; 100; 101; 102; 103]%N) as Hn.
  { rewrite !elem_of_cons. lia. }
  repeat (apply elem_of_cons in Hn as [->|Hn]; [rewrite !elem_of_cons; tauto|]).
  by apply elem_of_nil in Hn.
Qed.

Lemma note_letter_plain c :
  is_note_letter c = true →
  isspace c = false ∧ c ≠ "/"%chr ∧ c ≠ "]"%chr ∧ c ≠ LF
  ∧ is_accidental (upper_char c) = false
  ∧ is_note_letter (upper_char c) = true
  ∧ upper_char (upper_char c) = upper_char c.
Proof.
  intros H%note_letter_cases.
  repeat (apply elem_of_cons in H as [->|H]; [by vm_compute|]).
  by apply elem_of_nil in H.
Qed.

Lemma accidental_plain a :
  is_accidental a = true →
  isspace a = false ∧ a ≠ "/"%chr ∧ a ≠ "]"%chr ∧ a ≠ LF ∧ lower_char a = a.
Proof.
  unfold is_accidental. rewrite orb_true_iff, !bool_decide_eq_true.
  intros [->| ->]; by vm_compute.
Qed.

End characters.

(** ** Stripping, splitting and searching *)

Section string_functions.

Lemma lstrip_cons_nonspace c s : isspace c = false → lstrip (String c s) = String c s.
Proof. simpl. by intros ->. Qed.

Lemma rstrip_cons_nonspace c s :
  isspace c = false → rstrip (String c s) = String c (rstrip s).
Proof. rewrite rstrip_cons. intros ->. by rewrite andb_false_r. Qed.

Lemma strip_cons_nonspace c s :
  isspace c = false → strip (String c s) = String c (rstrip s).
Proof.
  intros Hc. unfold strip. by rewrite rstrip_cons_nonspace, lstrip_cons_nonspace.
Qed.

Lemma rstrip_first s c t :
  rstrip s = String c t → ∃ t', s = String c t'.
Proof.
  destruct s as [|d s]; [done|]. rewrite rstrip_cons.
  destruct (is_empty (rstrip s) && isspace d); [done|]. intros [= -> _]. eauto.
Qed.

Lemma contains_rstrip c s : contains c s = false → contains c (rstrip s) = false.
Proof.
  induction s as [|d s IH]; [done|]. rewrite rstrip_cons. simpl.
  intros [Hd Hs]%orb_false_iff.
  destruct (is_empty (rstrip s) && isspace d); simpl; [done|].
  by rewrite Hd, IH.
Qed.

Lemma contains_lstrip c s : contains c s = false → contains c (lstrip s) = false.
Proof.
  induction s as [|d s IH]; simpl; [done|].
  intros [Hd Hs]%orb_false_iff.
  destruct (isspace d); [by apply IH|]. simpl. by rewrite Hd, Hs.
Qed.

Lemma contains_strip c s : contains c s = false → contains c (strip s) = false.
Proof. intros. by apply contains_lstrip, contains_rstrip. Qed.

Lemma split_cons_nonsep sep c s :
  c ≠ sep → split sep (String c s) = (String c (split sep s).1, (split sep s).2).
Proof.
  intros Hc. simpl. destruct (split sep s). by rewrite bool_decide_eq_false_2.
Qed.

Lemma split_fst_no_sep sep s : contains sep (split sep s).1 = false.
Proof.
  induction s as [|c s IH]; simpl; [done|].
  destruct (split sep s) as [p ps]. simpl in IH.
  destruct (decide (c = sep)) as [->|Hc].
  - by rewrite bool_decide_eq_true_2.
  - rewrite (bool_decide_eq_false_2 (c = sep)) by done. simpl.
    by rewrite (bool_decide_eq_false_2 (c = sep)) by done.
Qed.

Lemma contains_split_fst c sep s :
  contains c s = false → contains c (split sep s).1 = false.
Proof.
  induction s as [|d s IH]; simpl; [done|].
  intros [Hd Hs]%orb_false_iff.
  destruct (split sep s) as [p ps]. simpl in IH.
  destruct (bool_decide (d = sep)); simpl; [done|]. rewrite Hd. by apply IH.
Qed.

Lemma split_app sep a b :
  contains sep a = false →
  split sep (a +:+ String sep b) = (a, (split sep b).1 :: (split sep b).2).
Proof.
  induction a as [|c a IH]; simpl.
  - intros _. destruct (split sep b). by rewrite bool_decide_eq_true_2.
  - intros [Hc Ha]%orb_false_iff. rewrite IH by done.
    apply bool_decide_eq_false in Hc. by rewrite bool_decide_eq_false_2.
Qed.

Lemma lazy_dot_to_end_Some t q :
  lazy_dot_to_end t = Some q →
  contains LF q = false ∧ ∀ c, contains c t = false → contains c q = false.
Proof.
  revert q. induction t as [|d t IH]; intros q; simpl.
  - by intros [= <-].
  - case_bool_decide as Hd.
    + destruct (is_empty t); [|done]. by intros [= <-].
    + destruct (lazy_dot_to_end t) as [q'|]; [|done]. intros [= <-].
      destruct (IH q' eq_refl) as [H1 H2]. simpl. split.
      * by rewrite bool_decide_eq_false_2.
      * intros c [Hc Ht]%orb_false_iff. rewrite Hc. by apply H2.
Qed.

Lemma lazy_dot_to_end_no_LF t : contains LF t = false → lazy_dot_to_end t = Some t.
Proof.
  induction t as [|d t IH]; simpl; [done|].
  intros [Hd Ht]%orb_false_iff. apply bool_decide_eq_false in Hd.
  rewrite bool_decide_eq_false_2 by done. by rewrite IH.
Qed.

End string_functions.

(** ** The pitch-class tables *)

Section tables.

Lemma get_semitone_index_range note : 0 ≤ get_semitone_index note < 12.
Proof.
  unfold get_semitone_index.
  set (n := default _ _). clearbody n.
  destruct (list_index n CHROMATIC_SHARP) as [i|] eqn:E; [|lia].
  assert (i < 12)%nat; [|lia].
  revert E. unfold CHROMATIC_SHARP. simpl.
  repeat (case_bool_decide; [intros [= <-]; lia|]). done.
Qed.

(** Every index within the tables holds a note name, and the index of that
    name is the index it is stored at. *)
Lemma table_entry (use_flats : bool) (i : nat) :
  (i < 12)%nat →
  ∃ n, (if use_flats then CHROMATIC_FLAT else CHROMATIC_SHARP) !! i = Some n
       ∧ Spec.note_spelling n ∧ get_semitone_index n = Z.of_nat i.
Proof.
  intros Hi.
  assert (∀ l a, is_note_letter l = true → upper_char l = l → is_accidental a = true →
                 Spec.note_spelling (String l (String a ""))) as H2.
  { intros l a ???. exists l, (String a ""). repeat split; eauto. }
  assert (∀ l, is_note_letter l = true → upper_char l = l →
               Spec.note_spelling (String l "")) as H1.
  { intros l ??. exists l, "". repeat split; eauto. }
  destruct use_flats;
    do 12 (destruct i as [|i];
           [eexists; split; [reflexivity|]; split; [by (apply H1 || apply H2)|done]|]);
    lia.
Qed.

Lemma note_spelling_plain n :
  Spec.note_spelling n →
  is_empty n = false ∧ contains "/" n = false ∧ contains "]" n = false
  ∧ contains LF n = false ∧ starts_with_note_letter n = true.
Proof.
  intros (l & acc & -> & Hl & _ & Hacc).
  destruct (note_letter_plain l Hl) as (? & ? & ? & ? & _).
  assert (∀ c, l ≠ c → contains c acc = false → contains c (String l acc) = false) as Hc.
  { intros c ? Hacc'. simpl. by rewrite bool_decide_eq_false_2. }
  destruct Hacc as [->|(a & -> & Ha)].
  - repeat split; try done; by apply Hc.
  - destruct (accidental_plain a Ha) as (? & ? & ? & ? & _).
    repeat split; try done; apply Hc; try done; simpl; by rewrite bool_decide_eq_false_2.
Qed.

(** [transpose_note] never fails; for a note that is not empty it returns
    the name of the shifted pitch class. *)
Lemma transpose_note_Some note semitones use_flats :
  is_empty note = false →
  ∃ n, transpose_note note semitones use_flats = Some n
       ∧ Spec.note_spelling n
       ∧ get_semitone_index n = (get_semitone_index note + semitones) mod 12.
Proof.
  intros Hne. unfold transpose_note. rewrite Hne.
  set (x := (get_semitone_index note + semitones) mod 12).
  assert (0 ≤ x < 12) as Hx by (apply Z.mod_pos_bound; lia).
  destruct (table_entry use_flats (Z.to_nat x)) as (n & Hn & Hsp & Hidx); [lia|].
  exists n. rewrite Z2Nat.id in Hidx by lia. split; [|done].
  unfold getitem. destruct (Z.leb_spec 0 x); [|lia]. by destruct use_flats.
Qed.

Lemma transpose_note_is_Some note semitones use_flats :
  is_Some (transpose_note note semitones use_flats).
Proof.
  destruct (is_empty note) eqn:E.
  - unfold transpose_note. by rewrite E.
  - destruct (transpose_note_Some note semitones use_flats E) as (n & -> & _). done.
Qed.

End tables.

(** ** The scanner of [CHORD_PATTERN] *)

Section scanner.

Lemma CHORD_PATTERN_match_Some s g rest :
  CHORD_PATTERN_match s = Some (g, rest) →
  s = "[" +:+ g +:+ "]" +:+ rest
  ∧ starts_with_note_letter g = true ∧ contains "]" g = false.
Proof.
  destruct s as [|o [|c t]]; simpl; try done.
  case_bool_decide as Ho; simpl; [|done].
  destruct (is_note_letter c) eqn:Hc; [|done].
  destruct (until "]" t) as [[b r]|] eqn:E; simpl; [|done].
  intros [= <- <-]. apply until_Some in E as [-> Hb]. subst o.
  repeat split; try done. simpl. rewrite Hb.
  destruct (decide (c = "]"%chr)) as [->|]; [done|].
  by rewrite bool_decide_eq_false_2.
Qed.

Lemma CHORD_PATTERN_match_length s g rest :
  CHORD_PATTERN_match s = Some (g, rest) →
  (len rest < len s)%nat.
Proof.
  intros H. apply CHORD_PATTERN_match_Some in H as [-> _].
  simpl. rewrite length_app_str. simpl. lia.
Qed.

Lemma scan_fuel_enough n : ∀ m s,
  (len s ≤ n)%nat → (len s ≤ m)%nat →
  scan_fuel n s = scan_fuel m s.
Proof.
  induction n as [|n IH]; intros m s Hn Hm.
  - destruct s; [|simpl in Hn; lia]. by destruct m.
  - destruct s as [|c t]; [by destruct m|]. destruct m as [|m]; [simpl in Hm; lia|].
    simpl in Hn, Hm. cbn [scan_fuel].
    destruct (CHORD_PATTERN_match (String c t)) as [[g rest]|] eqn:E.
    + apply CHORD_PATTERN_match_length in E. simpl in E.
      f_equal. apply IH; lia.
    + f_equal. apply IH; lia.
Qed.

Lemma scan_nil : scan "" = [].
Proof. done. Qed.

Lemma scan_cons c t :
  scan (String c t) =
    match CHORD_PATTERN_match (String c t) with
    | Some (g, rest) => Bracket g :: scan rest
    | None => Text c :: scan t
    end.
Proof.
  unfold scan. cbn [len scan_fuel].
  destruct (CHORD_PATTERN_match (String c t)) as [[g rest]|] eqn:E; [|done].
  apply CHORD_PATTERN_match_length in E. simpl in E.
  f_equal. apply scan_fuel_enough; lia.
Qed.

(** Induction along the scanner. *)
Lemma scan_ind (P : string → list piece → Prop) :
  P "" [] →
  (∀ c t, CHORD_PATTERN_match (String c t) = None →
          P t (scan t) → P (String c t) (Text c :: scan t)) →
  (∀ s g rest, CHORD_PATTERN_match s = Some (g, rest) →
               P rest (scan rest) → P s (Bracket g :: scan rest)) →
  ∀ s, P s (scan s).
Proof.
  intros Hnil Htext Hbr s.
  remember (len s) as n eqn:Hn. revert s Hn.
  induction n as [n IH] using lt_wf_ind. intros s ->.
  destruct s as [|c t]; [done|]. rewrite scan_cons.
  destruct (CHORD_PATTERN_match (String c t)) as [[g rest]|] eqn:E.
  - apply Hbr; [done|]. eapply IH; [|done]. by apply CHORD_PATTERN_match_length in E.
  - apply Htext; [done|]. eapply IH; [|done]. simpl. lia.
Qed.

Lemma source_scan s : Spec.source (scan s) = s.
Proof.
  apply (scan_ind (λ s ps, Spec.source ps = s)); [done|..].
  - intros c t _ IH. simpl. by rewrite IH.
  - intros s' g rest E IH. apply CHORD_PATTERN_match_Some in E as [-> _].
    cbn [Spec.source]. by rewrite IH.
Qed.

End scanner.

(** ** The validator *)

Section validator.

Lemma groups_matches_from ps : ∀ pos, m_group1 <$> matches_from pos ps = Spec.groups ps.
Proof.
  induction ps as [|[c|g] ps IH]; intros pos; simpl; [done|apply IH|].
  by rewrite IH.
Qed.

Lemma finditer_groups s : m_group1 <$> CHORD_PATTERN_finditer s = Spec.groups (scan s).
Proof. apply groups_matches_from. Qed.

(** Group 1 of every match starts with a note letter and holds no
    closing bracket. *)
Lemma groups_scan s :
  Forall (λ g, starts_with_note_letter g = true ∧ contains "]" g = false)
         (Spec.groups (scan s)).
Proof.
  apply (scan_ind (λ _ ps, Forall _ (Spec.groups ps))); simpl; [done|done|].
  intros s' g rest E IH. apply CHORD_PATTERN_match_Some in E as (_ & ? & ?).
  by constructor.
Qed.

Lemma invalid_chord_loop ms : ∀ ws,
  Forall (λ m, starts_with_note_letter (m_group1 m) = true) ms →
  foldl (λ warnings m,
           let chord := m_group1 m in
           if negb (starts_with_note_letter chord)
           then warnings ++ [invalid_warning chord] else warnings) ws ms = ws.
Proof.
  induction ms as [|m ms IH]; intros ws Hms; [done|].
  apply Forall_cons in Hms as [Hm Hms]. simpl. rewrite Hm. simpl. by apply IH.
Qed.

(** C2: the loop of [validate_chordpro] over the matches of
    [CHORD_PATTERN] never adds a warning, since the pattern only matches
    brackets whose contents start with a letter A-G: for every input the
    warnings are those of the two counting checks, and ["[X]a"] is
    reported valid with no warning, whereas ["a[]b"] gives exactly the
    empty-bracket warning. *)
Theorem validate_chordpro_no_invalid_chord_warning :
  (∀ content,
     validate_chordpro content =
       (bool_decide (Spec.lexical_warnings content = []),
        Spec.lexical_warnings content))
  ∧ validate_chordpro "[X]a" = (true, [])
  ∧ validate_chordpro "a[]b" = (false, [empty_warning]).
Proof.
  split; [|by vm_compute].
  intros content. unfold validate_chordpro. rewrite invalid_chord_loop.
  2:{ pose proof (groups_scan content) as H. rewrite <- finditer_groups in H.
      apply Forall_fmap in H. eapply Forall_impl; [exact H|]. by intros m [? _]. }
  unfold Spec.lexical_warnings.
  generalize (mismatch_warning (count "[" content) (count "]" content)).
  generalize (count "[" content) (count "]" content). intros o c w.
  destruct (decide (o = c)) as [->|Hne].
  - rewrite (bool_decide_eq_false_2 (c ≠ c)) by (intros H; by apply H).
    by destruct (has_substring "[]" content).
  - rewrite (bool_decide_eq_true_2 (o ≠ c)) by done.
    by destruct (has_substring "[]" content).
Qed.

End validator.

(** ** The chord parser *)

Section chord_parser.

Lemma split_no_sep sep s : contains sep s = false → split sep s = (s, []).
Proof.
  induction s as [|c s IH]; simpl; [done|].
  case_bool_decide; simpl; [done|]. intros H'. by rewrite IH.
Qed.

Lemma split_sep sep s : contains sep s = true → (split sep s).2 ≠ [].
Proof.
  induction s as [|c s IH]; simpl; [done|].
  destruct (split sep s) as [p ps] eqn:E.
  case_bool_decide; simpl; [done|]. intros H'. by apply IH.
Qed.

Lemma split_first_char sep s :
  starts_with_note_letter (split sep s).1 = true → starts_with_note_letter s = true.
Proof.
  destruct s as [|c s]; simpl; [done|].
  destruct (split sep s) as [p ps]. by case_bool_decide.
Qed.

Lemma ROOT_PATTERN_match_None s :
  starts_with_note_letter s = false → ROOT_PATTERN_match s = None.
Proof. destruct s as [|c s]; simpl; [done|]. by intros ->. Qed.

(** The two ways in which [parse_chord] obtains the chord body and the
    bass agree with one [split]. *)
Lemma parse_chord_parts s :
  (if contains "/" (strip s)
   then let '(p0, ps) := split "/" (strip s) in
        (p0, match ps with p1 :: _ => Some p1 | [] => None end)
   else (strip s, None))
  = (Spec.chord_body s, Spec.chord_bass s).
Proof.
  unfold Spec.chord_body, Spec.chord_bass.
  destruct (contains "/" (strip s)) eqn:E.
  - by destruct (split "/" (strip s)) as [p0 [|p1 ps]].
  - by rewrite (split_no_sep _ _ E).
Qed.

(** C3 (amended): when the stripped input does not start with a letter
    A-G, [parse_chord] returns the whole chord body (the stripped input up
    to its first slash) as the root, unchanged, with an empty quality; the
    bass is the text after the first slash, if there is one. *)
Theorem parse_chord_fallback (s : string) :
  starts_with_note_letter (strip s) = false →
  parse_chord s = mkChordInfo (Spec.chord_body s) "" (Spec.chord_bass s).
Proof.
  intros Hs. unfold parse_chord. rewrite parse_chord_parts.
  rewrite ROOT_PATTERN_match_None; [done|].
  destruct (starts_with_note_letter (Spec.chord_body s)) eqn:E; [|done].
  apply split_first_char in E. congruence.
Qed.

Lemma parse_chord_fallback_witness :
  starts_with_note_letter (strip "xyz") = false
  ∧ parse_chord "xyz" = mkChordInfo "xyz" "" None.
Proof. split; [reflexivity|]. apply (parse_chord_fallback "xyz"). reflexivity. Defined.

(** The root that [parse_chord] returns for ["xyz"] is not the first
    character uppercased, and the quality is not the rest of the input. *)
Lemma parse_chord_first_char_counterexample :
  starts_with_note_letter "xyz" = false
  ∧ root (parse_chord "xyz") ≠ Spec.first_char_upper "xyz"
  ∧ quality (parse_chord "xyz") ≠ Spec.after_first_char "xyz".
Proof. by vm_compute. Qed.

End chord_parser.

(** ** Segments of a line *)

Section segments.

Lemma concat_all_app l1 l2 : concat_all (l1 ++ l2) = concat_all l1 +:+ concat_all l2.
Proof.
  induction l1 as [|s l1 IH]; simpl; [done|]. by rewrite IH, app_assoc_str.
Qed.

Lemma last_None_nil {A} (l : list A) : last l = None → l = [].
Proof. by intros ?%last_None. Qed.

Lemma set_last_snoc {A} (l : list A) y x : set_last (l ++ [y]) x = l ++ [x].
Proof.
  induction l as [|z l IH]; [done|].
  simpl. rewrite IH. by destruct l.
Qed.

Lemma segments_set_last segs chord lyric more :
  last segs = Some (chord, lyric) →
  concat_all (Spec.segment_text <$> set_last segs (chord, lyric +:+ more))
  = concat_all (Spec.segment_text <$> segs) +:+ more.
Proof.
  intros Hlast. apply last_Some in Hlast as [l ->].
  rewrite set_last_snoc, !fmap_app, !concat_all_app. simpl.
  unfold Spec.segment_text. simpl.
  destruct chord; by str_norm.
Qed.

Lemma length_bracket g : len ("[" +:+ g +:+ "]") = (len g + 2)%nat.
Proof. simpl. rewrite length_app_str. simpl. lia. Qed.

(** The loop over the matches of a line, started after the text [pre]
    with the text [pend] read since the last match. *)
Lemma segment_loop line ps : ∀ pre pend chords segs,
  line = pre +:+ pend +:+ Spec.source ps →
  ∃ segs' last_end,
    foldl (segment_step line) (chords, segs, len pre)
          (matches_from (len pre + len pend) ps)
    = (chords ++ Spec.groups ps, segs', last_end)
    ∧ concat_all (Spec.segment_text <$> segs') +:+ slice_from line last_end
      = concat_all (Spec.segment_text <$> segs) +:+ pend +:+ Spec.source ps.
Proof.
  induction ps as [|[c|g] ps IH]; intros pre pend chords segs Hline.
  - exists segs, (len pre). simpl. rewrite app_nil_r. split; [done|].
    rewrite Hline. by rewrite slice_from_app.
  - destruct (IH pre (pend +:+ String c "") chords segs) as (segs' & le & Hloop & Hr).
    { rewrite Hline. simpl. by rewrite app_assoc_str. }
    exists segs', le. split.
    + simpl. rewrite length_app_str in Hloop. simpl in Hloop.
      by replace (S (len pre + len pend))
        with (len pre + (len pend + 1))%nat by lia.
    + rewrite Hr. simpl. by rewrite app_assoc_str.
  - set (pos := (len pre + len pend)%nat).
    set (segs1 :=
      if negb (is_empty pend) || bool_decide (segs ≠ []) then
        match last segs with
        | Some (prev_chord, prev_lyric) => set_last segs (prev_chord, prev_lyric +:+ pend)
        | None => segs ++ [(None, pend)]
        end
      else segs).
    assert (concat_all (Spec.segment_text <$> segs1)
            = concat_all (Spec.segment_text <$> segs) +:+ pend) as Hsegs1.
    { unfold segs1. destruct (last segs) as [[pc pl]|] eqn:Hlast.
      - assert (segs ≠ []) by (by intros ->).
        rewrite bool_decide_eq_true_2, orb_true_r by done.
        by apply segments_set_last.
      - apply last_None_nil in Hlast as ->. simpl.
        destruct pend; simpl; [done|]. by str_norm. }
    destruct (IH (pre +:+ pend +:+ "[" +:+ g +:+ "]") "" (chords ++ [g])
                 (segs1 ++ [(Some g, "")])) as (segs' & le & Hloop & Hr).
    { rewrite Hline. simpl. by str_norm. }
    exists segs', le. split.
    + assert (len (pre +:+ pend +:+ "[" +:+ g +:+ "]")
              = (pos + len g + 2)%nat) as Hlen.
      { rewrite !length_app_str. simpl. unfold pos. lia. }
      rewrite Hlen in Hloop. simpl in Hloop. rewrite Nat.add_0_r, <- app_assoc in Hloop.
      cbn [matches_from foldl Spec.groups]. fold pos. etrans; [|exact Hloop]. f_equal.
      unfold segment_step. cbn [m_group1 m_start m_end].
      unfold pos. by rewrite Hline, !slice_app.
    + rewrite Hr, fmap_app, concat_all_app, Hsegs1. simpl.
      unfold Spec.segment_text. simpl.
      by str_norm.
Qed.

(** The chord lines: the chords of the line are appended to
    [all_chords], and the segments give back the line. *)
Lemma parse_chord_line_spec all_chords line :
  ∃ pl, parse_chord_line all_chords line = (all_chords ++ Spec.groups (scan line), pl)
        ∧ Spec.reconstruct pl = line.
Proof.
  unfold parse_chord_line, CHORD_PATTERN_finditer.
  destruct (segment_loop line (scan line) "" "" all_chords [])
    as (segs & le & Hloop & Hr).
  { simpl. by rewrite source_scan. }
  cbn [len Nat.add] in Hloop. rewrite Hloop.
  simpl in Hr. rewrite source_scan in Hr.
  eexists. split; [done|]. unfold Spec.reconstruct. simpl.
  destruct (last segs) as [[pc pl]|] eqn:Hlast.
  - by rewrite segments_set_last.
  - apply last_None_nil in Hlast as ->. simpl in Hr. rewrite Hr.
    destruct line; simpl; [done|]. by rewrite app_nil_r_str.
Qed.

End segments.

(** ** The document parser *)

Section document_parser.

(** The segments of a line do not depend on the chords collected before
    the line. *)
Lemma segment_loop_chords line ms : ∀ chords chords' segs last_end,
  (foldl (segment_step line) (chords, segs, last_end) ms).1.2
  = (foldl (segment_step line) (chords', segs, last_end) ms).1.2
  ∧ (foldl (segment_step line) (chords, segs, last_end) ms).2
  = (foldl (segment_step line) (chords', segs, last_end) ms).2.
Proof.
  induction ms as [|m ms IH]; intros chords chords' segs last_end; [done|].
  simpl. apply IH.
Qed.

Lemma parse_chord_line_chords all_chords line :
  (parse_chord_line all_chords line).2 = (parse_chord_line [] line).2.
Proof.
  unfold parse_chord_line.
  destruct (segment_loop_chords line (CHORD_PATTERN_finditer line) all_chords [] [] O)
    as [Hsegs Hend].
  destruct (foldl _ (all_chords, _, _) _) as [[c1 s1] e1].
  destruct (foldl _ ([], _, _) _) as [[c2 s2] e2].
  simpl in *. by subst.
Qed.

(** What [line_step] does to [lines] and [raw_chords]; the metadata has
    no part in it. *)
Lemma line_step_lines st line :
  lines (line_step st line)
  = lines st ++ (if decide (Spec.chord_line (rstrip line))
                 then [(parse_chord_line [] (rstrip line)).2] else [])
  ∧ raw_chords (line_step st line)
  = raw_chords st ++ (if decide (Spec.chord_line (rstrip line))
                      then Spec.groups (scan (rstrip line)) else []).
Proof.
  unfold line_step.
  destruct (decide (Spec.chord_line (rstrip line))) as [Hc|Hc];
    unfold Spec.chord_line in Hc.
  - rewrite Hc.
    pose proof (parse_chord_line_chords (raw_chords st) (rstrip line)) as Hpl.
    destruct (parse_chord_line_spec (raw_chords st) (rstrip line)) as (pl & Heq & _).
    rewrite Heq in *. simpl in *. by rewrite Hpl.
  - destruct (DIRECTIVE_PATTERN_search (rstrip line)) as [dm|]; [|done].
    rewrite !app_nil_r.
    repeat case_bool_decide; try done. by destruct (int_of_str _).
Qed.

Lemma parse_loop_lines ls : ∀ st,
  lines (foldl line_step st ls)
  = lines st ++ ((λ l, (parse_chord_line [] l).2) <$> filter Spec.chord_line (rstrip <$> ls))
  ∧ raw_chords (foldl line_step st ls)
  = raw_chords st
    ++ concat ((λ l, Spec.groups (scan l)) <$> filter Spec.chord_line (rstrip <$> ls)).
Proof.
  induction ls as [|l ls IH]; intros st; simpl.
  - by rewrite !app_nil_r.
  - destruct (IH (line_step st l)) as [-> ->].
    destruct (line_step_lines st l) as [-> ->].
    rewrite filter_cons. destruct (decide (Spec.chord_line (rstrip l))); simpl.
    + by rewrite <- !app_assoc.
    + by rewrite !app_nil_r.
Qed.

(** The lines and the chords of a parsed document. *)
Lemma parse_chordpro_lines content :
  lines (parse_chordpro content)
  = (λ l, (parse_chord_line [] l).2) <$> Spec.chord_lines content
  ∧ raw_chords (parse_chordpro content)
  = concat ((λ l, Spec.groups (scan l)) <$> Spec.chord_lines content).
Proof. apply (parse_loop_lines _ Spec.empty_document). Qed.

(** C6 (amended): the segments of the parsed lines, put together again
    with their chords in brackets, are the source lines that are not
    consumed as directives, each without its trailing white space, in
    order. *)
Theorem segment_reconstruction content :
  Spec.reconstruct <$> lines (parse_chordpro content) = Spec.chord_lines content.
Proof.
  destruct (parse_chordpro_lines content) as [-> _].
  rewrite <- list_fmap_compose. rewrite <- (list_fmap_id (Spec.chord_lines content)) at 2.
  apply list_fmap_ext. intros _ l _. simpl.
  destruct (parse_chord_line_spec [] l) as (pl & -> & Hr). done.
Qed.

Lemma segment_reconstruction_witness :
  Spec.reconstruct <$> lines (parse_chordpro ("[G]주님" +:+ String (Char 12288) ""))
  = ["[G]주님"].
Proof.
  rewrite (segment_reconstruction ("[G]주님" +:+ String (Char 12288) "")).
  by vm_compute.
Defined.

(** A chord line with trailing white space is not reconstructed
    character for character. *)
Lemma segment_reconstruction_counterexample :
  Spec.chord_line "[G]la "
  ∧ Spec.reconstruct <$> lines (parse_chordpro "[G]la ") ≠ ["[G]la "].
Proof. by vm_compute. Qed.

(** *** Directive lines *)

Lemma rstrip_app_nonspace a c b :
  isspace c = false → rstrip (a +:+ String c b) = a +:+ String c (rstrip b).
Proof.
  intros Hc. induction a as [|x a IH].
  - simpl append. by rewrite rstrip_cons, Hc, andb_false_r.
  - rewrite app_cons_str, rstrip_cons, IH. by destruct a.
Qed.

Lemma span_app_stop p name c rest :
  Spec.all_chars p name = true → p c = false →
  span p (name +:+ String c rest) = (name, String c rest).
Proof.
  intros Hname Hc. induction name as [|x name IH]; simpl.
  - by rewrite Hc.
  - simpl in Hname. apply andb_true_iff in Hname as [-> Hname]. by rewrite IH.
Qed.

Lemma span_app p s : (span p s).1 +:+ (span p s).2 = s.
Proof.
  induction s as [|c s IH]; simpl; [done|].
  destruct (p c); [|done]. destruct (span p s) as [a b]. simpl in *. by rewrite IH.
Qed.

Lemma contains_app c a b : contains c (a +:+ b) = contains c a || contains c b.
Proof.
  induction a as [|x a IH]; simpl; [done|]. by rewrite IH, orb_assoc.
Qed.





Lemma DIRECTIVE_PATTERN_search_unfold s :
  DIRECTIVE_PATTERN_search s =
    match DIRECTIVE_PATTERN_match s with
    | Some m => Some m
    | None =>
        match s with
        | EmptyString => None
        | String _ t => DIRECTIVE_PATTERN_search t
        end
    end.
Proof. by destruct s. Qed.





End document_parser.

(** ** Key detection *)

Section key_detection.

Implicit Types (d : list (string * Z)) (rs : list string).

Lemma dict_get_set d k v k' dflt :
  dict_get (dict_set d k v) k' dflt = if decide (k = k') then v else dict_get d k' dflt.
Proof.
  induction d as [|[k0 v0] d IH]; simpl.
  - case_bool_decide; case_decide; congruence.
  - destruct (decide (k0 = k)) as [->|Hne].
    + rewrite bool_decide_eq_true_2 by done. simpl.
      case_bool_decide; case_decide; congruence.
    + rewrite bool_decide_eq_false_2 by done. simpl. rewrite IH.
      case_bool_decide; case_decide; congruence.
Qed.

Lemma dict_set_keys d k v :
  (dict_set d k v).*1 = if decide (k ∈ d.*1) then d.*1 else d.*1 ++ [k].
Proof.
  induction d as [|[k0 v0] d IH].
  - cbn. case_decide as Hin; [by apply elem_of_nil in Hin|done].
  - cbn [dict_set]. destruct (decide (k0 = k)) as [->|Hne].
    + rewrite bool_decide_eq_true_2 by done.
      rewrite decide_True; [done|]. cbn. apply elem_of_cons. by left.
    + rewrite bool_decide_eq_false_2 by done. rewrite !fmap_cons, IH. cbn [fst].
      destruct (decide (k ∈ d.*1)) as [Hin|Hin].
      * rewrite decide_True; [done|]. apply elem_of_cons. by right.
      * rewrite decide_False; [done|]. by intros [->|?]%elem_of_cons.
Qed.

(** A dictionary is its keys with their values. *)
Lemma dict_entries d :
  NoDup d.*1 → d = (λ k, (k, dict_get d k 0)) <$> d.*1.
Proof.
  induction d as [|[k v] d IH]; simpl; [done|].
  intros [Hk Hd]%NoDup_cons. rewrite bool_decide_eq_true_2 by done. f_equal.
  rewrite IH at 1 by done. apply list_fmap_ext. intros i k' Hk'. f_equal.
  rewrite bool_decide_eq_false_2; [done|]. intros ->.
  apply Hk. by eapply list_elem_of_lookup_2.
Qed.

Lemma count_roots_tally chords :
  count_roots chords = Spec.tally ((λ chord, root (parse_chord chord)) <$> chords).
Proof. unfold count_roots, Spec.tally. by rewrite foldl_fmap. Qed.

Lemma first_occurrences_snoc rs r :
  Spec.first_occurrences (rs ++ [r]) =
    if decide (r ∈ Spec.first_occurrences rs) then Spec.first_occurrences rs
    else Spec.first_occurrences rs ++ [r].
Proof. unfold Spec.first_occurrences. by rewrite foldl_app. Qed.

Lemma elem_of_first_occurrences rs r : r ∈ Spec.first_occurrences rs ↔ r ∈ rs.
Proof.
  induction rs as [|x rs IH] using rev_ind; [done|].
  rewrite first_occurrences_snoc, elem_of_app, list_elem_of_singleton, <- IH.
  destruct (decide (x ∈ Spec.first_occurrences rs)) as [Hx|Hx].
  - split; [by left|]. by intros [?| ->].
  - by rewrite elem_of_app, list_elem_of_singleton.
Qed.

Lemma NoDup_first_occurrences rs : NoDup (Spec.first_occurrences rs).
Proof.
  induction rs as [|x rs IH] using rev_ind; [constructor|].
  rewrite first_occurrences_snoc. case_decide; [done|].
  apply NoDup_app. split_and!; [done| |apply NoDup_singleton].
  intros y Hy ->%list_elem_of_singleton. done.
Qed.

Lemma occurrences_snoc r rs x :
  Spec.occurrences r (rs ++ [x]) = Spec.occurrences r rs + (if decide (x = r) then 1 else 0).
Proof.
  unfold Spec.occurrences. rewrite filter_app, length_app, filter_cons, filter_nil.
  case_decide; simpl; lia.
Qed.

Lemma tally_spec rs :
  (Spec.tally rs).*1 = Spec.first_occurrences rs
  ∧ ∀ r, dict_get (Spec.tally rs) r 0 = Spec.occurrences r rs.
Proof.
  induction rs as [|x rs [IHk IHv]] using rev_ind; [done|].
  unfold Spec.tally. rewrite foldl_app. simpl. fold (Spec.tally rs). split.
  - rewrite dict_set_keys, first_occurrences_snoc, IHk. done.
  - intros r. rewrite dict_get_set, occurrences_snoc, !IHv.
    case_decide; [subst|]; lia.
Qed.

(** The first element that satisfies [P] is found among the first
    occurrences as well. *)
Lemma head_filter_first_occurrences (P : string → Prop) `{!∀ x, Decision (P x)} rs :
  head (filter P (Spec.first_occurrences rs)) = head (filter P rs).
Proof.
  induction rs as [|x rs IH] using rev_ind; [done|].
  rewrite first_occurrences_snoc, (filter_app _ rs), head_app, <- IH.
  destruct (decide (x ∈ Spec.first_occurrences rs)) as [Hin|Hin].
  - destruct (head (filter P (Spec.first_occurrences rs))) eqn:E; [done|].
    rewrite filter_cons, filter_nil. destruct (decide (P x)) as [HP|]; [|done].
    apply head_None in E. by destruct (filter_nil_not_elem_of _ _ _ E HP).
  - by rewrite filter_app, head_app.
Qed.

Lemma filter_none {A} (P : A → Prop) `{!∀ x, Decision (P x)} (l : list A) :
  Forall (λ x, ¬ P x) l → filter P l = [].
Proof.
  induction 1 as [|x l Hx _ IH]; [done|].
  by rewrite filter_cons, decide_False.
Qed.

(** [max] with a key function returns the first maximal entry: the
    entries before it are smaller and no entry after it is larger. *)
Lemma first_max_split (e : string * Z) r :
  let best := foldl (λ best x, if snd best <? snd x then x else best) e r in
  ∃ l1 l2, e :: r = l1 ++ best :: l2
           ∧ Forall (λ y, snd y < snd best) l1
           ∧ Forall (λ y, snd y ≤ snd best) l2.
Proof.
  revert e. induction r as [|x r IH]; intros e; cbn [foldl].
  - exists [], []. by repeat split.
  - destruct (Z.ltb_spec (snd e) (snd x)) as [Hlt|Hge].
    + destruct (IH x) as (l1 & l2 & Heq & H1 & H2).
      set (best := foldl _ x r) in *.
      exists (e :: l1), l2. rewrite Heq. repeat split; [|done].
      constructor; [|done].
      destruct l1 as [|y l1]; injection Heq as Hx Hr.
      * rewrite <- Hx. lia.
      * subst y. apply Forall_cons in H1 as [? _]. lia.
    + destruct (IH e) as (l1 & l2 & Heq & H1 & H2).
      set (best := foldl _ e r) in *.
      destruct l1 as [|y l1]; injection Heq as He Hr.
      * exists [], (x :: r). rewrite <- He. repeat split; [done|].
        rewrite Hr. constructor; [lia|]. by rewrite He.
      * subst y. exists (e :: x :: l1), l2. rewrite Hr. repeat split; [|done].
        apply Forall_cons in H1 as [? ?]. repeat constructor; [done|lia|done].
Qed.

(** The dictionary after the bonus of the first chord. *)
Lemma root_counts_spec r0 rs :
  dict_set (Spec.tally (r0 :: rs)) r0 (dict_get (Spec.tally (r0 :: rs)) r0 0 + 2)
  = (λ r, (r, Spec.total (r0 :: rs) r)) <$> Spec.first_occurrences (r0 :: rs).
Proof.
  destruct (tally_spec (r0 :: rs)) as [Hk Hv].
  set (d := dict_set _ _ _).
  assert (d.*1 = Spec.first_occurrences (r0 :: rs)) as Hdk.
  { unfold d. rewrite dict_set_keys, Hk. rewrite decide_True; [done|].
    apply elem_of_first_occurrences, elem_of_cons. by left. }
  rewrite (dict_entries d), Hdk.
  2:{ rewrite Hdk. apply NoDup_first_occurrences. }
  apply list_fmap_ext. intros _ r _. f_equal.
  unfold d. rewrite dict_get_set, !Hv. unfold Spec.total. simpl.
  destruct (decide (r0 = r)) as [->|Hne].
  - by rewrite decide_True.
  - rewrite decide_False by congruence. lia.
Qed.

Lemma dict_max_key_first_highest rs :
  rs ≠ [] →
  dict_max_key ((λ r, (r, Spec.total rs r)) <$> Spec.first_occurrences rs)
  = Spec.first_highest rs.
Proof.
  intros Hne. unfold Spec.first_highest.
  rewrite <- (head_filter_first_occurrences (Spec.highest rs)).
  set (g := λ r, (r, Spec.total rs r)).
  destruct (Spec.first_occurrences rs) as [|k0 ks] eqn:Eks.
  { destruct rs as [|r rs]; [done|].
    assert (r ∈ Spec.first_occurrences (r :: rs)) as Hin
      by (apply elem_of_first_occurrences, elem_of_cons; by left).
    rewrite Eks in Hin. by apply elem_of_nil in Hin. }
  rewrite fmap_cons. unfold dict_max_key.
  destruct (first_max_split (g k0) (g <$> ks)) as (l1 & l2 & Heq & H1 & H2).
  simpl in Heq, H1, H2.
  set (best := foldl _ _ _) in *.
  rewrite <- fmap_cons in Heq.
  apply fmap_app_inv in Heq as (ks1 & ks' & -> & Hks' & Hks).
  symmetry in Hks'. apply fmap_cons_inv in Hks' as (k & ks2 & Hbest & -> & ->).
  rewrite Hks. rewrite Hbest in *. simpl in *.
  rewrite Forall_fmap in H1. rewrite Forall_fmap in H2.
  assert (Spec.highest rs k) as Hk.
  { apply Forall_forall. intros r' Hr'.
    apply elem_of_first_occurrences in Hr'. rewrite Eks, Hks in Hr'.
    apply elem_of_app in Hr' as [Hr'|Hr'].
    - rewrite Forall_forall in H1. specialize (H1 _ Hr'). simpl in H1. lia.
    - apply elem_of_cons in Hr' as [->|Hr']; [done|].
      rewrite Forall_forall in H2. specialize (H2 _ Hr'). simpl in H2. lia. }
  rewrite filter_app, filter_none, filter_cons, decide_True; [done|done|].
  eapply Forall_impl; [exact H1|]. simpl. intros r' Hlt Hhigh.
  unfold Spec.highest in Hhigh. rewrite Forall_forall in Hhigh.
  assert (k ∈ rs) as Hkin.
  { apply elem_of_first_occurrences. rewrite Eks, Hks.
    apply elem_of_app. right. apply elem_of_cons. by left. }
  specialize (Hhigh _ Hkin). lia.
Qed.

(** C7 (amended): [detect_key] returns the metadata key when there is
    one; otherwise the first root, in document order, among the roots
    with the highest total of occurrences plus two points for the root of
    the first chord, and nothing when the document has no chord. *)
Theorem detect_key_first_highest content :
  detect_key content =
    if truthy (key (parse_chordpro content)) then key (parse_chordpro content)
    else Spec.first_highest (Spec.chord_roots content).
Proof.
  unfold detect_key, Spec.chord_roots.
  destruct (truthy (key (parse_chordpro content))); [done|].
  destruct (raw_chords (parse_chordpro content)) as [|chord0 chords]; [done|].
  rewrite count_roots_tally, fmap_cons, root_counts_spec.
  rewrite <- dict_max_key_first_highest by done.
  by destruct (_ <$> Spec.first_occurrences _).
Qed.

(** In this document the roots C and E tie at the highest total 4; the
    running total of E reaches 4 first, whenever the two points of the
    first chord are counted, and [detect_key] returns C. *)
Lemma detect_key_first_to_reach_counterexample :
  detect_key "[C]a[E]b[E]c[E]d[E]e[C]f" = Some "C"
  ∧ Spec.first_to_reach true (Spec.chord_roots "[C]a[E]b[E]c[E]d[E]e[C]f") = Some "E"
  ∧ Spec.first_to_reach false (Spec.chord_roots "[C]a[E]b[E]c[E]d[E]e[C]f") = Some "E"
  ∧ detect_key "[C]a[E]b[E]c[E]d[E]e[C]f"
    ≠ Spec.first_to_reach true (Spec.chord_roots "[C]a[E]b[E]c[E]d[E]e[C]f").
Proof. by vm_compute. Qed.

End key_detection.

(** ** Transposition of one chord *)

Section transpose_chord.

Lemma ROOT_PATTERN_match_Some s g1 q :
  ROOT_PATTERN_match s = Some (g1, q) →
  is_empty g1 = false ∧ contains LF q = false
  ∧ ∀ c, contains c s = false → contains c q = false.
Proof.
  destruct s as [|l t]; simpl; [done|].
  destruct (is_note_letter l); [|done].
  assert (∀ t0, (∀ c, contains c (String l t) = false → contains c t0 = false) →
                ∀ g, (λ q, (g, q)) <$> lazy_dot_to_end t0 = Some (g1, q) →
                is_empty g = false →
                is_empty g1 = false ∧ contains LF q = false
                ∧ ∀ c, contains c (String l t) = false → contains c q = false) as Hgen.
  { intros t0 Ht0 g Hq Hg. destruct (lazy_dot_to_end t0) as [q'|] eqn:E; [|done].
    injection Hq as <- <-. destruct (lazy_dot_to_end_Some _ _ E) as [H1 H2].
    repeat split; [done..|]. intros c Hc. apply H2. by apply Ht0. }
  assert (∀ c, contains c (String l t) = false → contains c t = false) as Ht.
  { intros c. simpl. by intros [_ ?]%orb_false_iff. }
  destruct t as [|a t']; [intros Hq; by apply (Hgen _ Ht _ Hq)|].
  destruct (is_accidental a).
  - destruct (lazy_dot_to_end t') as [q'|] eqn:E.
    + intros [= <- <-]. destruct (lazy_dot_to_end_Some _ _ E) as [H1 H2].
      repeat split; [done..|]. intros c Hc. apply H2.
      apply Ht in Hc. simpl in Hc. by apply orb_false_iff in Hc as [_ ?].
    + intros Hq. by apply (Hgen _ Ht _ Hq).
  - intros Hq. by apply (Hgen _ Ht _ Hq).
Qed.

(** The quality that [parse_chord] returns for the group of a match. *)
Lemma parse_chord_shape g :
  starts_with_note_letter g = true →
  is_empty (root (parse_chord g)) = false
  ∧ contains "/" (quality (parse_chord g)) = false
  ∧ contains LF (quality (parse_chord g)) = false
  ∧ (contains "]" g = false → contains "]" (quality (parse_chord g)) = false).
Proof.
  destruct g as [|l g0]; simpl; [done|]. intros Hl.
  destruct (note_letter_plain l Hl) as (Hsp & Hsl & _).
  unfold parse_chord. rewrite parse_chord_parts.
  pose proof (split_fst_no_sep "/" (strip (String l g0))) as Hslash.
  pose proof (contains_split_fst "]" "/" (strip (String l g0))) as Hclose.
  unfold Spec.chord_body.
  assert (is_empty (split "/" (strip (String l g0))).1 = false) as Hbody.
  { by rewrite strip_cons_nonspace, split_cons_nonsep. }
  destruct (ROOT_PATTERN_match _) as [[g1 q]|] eqn:E; simpl.
  - apply ROOT_PATTERN_match_Some in E as (Hg1 & HLF & Hq).
    split; [|split; [by apply Hq|split; [done|]]].
    + destruct g1 as [|x [|y g1]]; done.
    + intros Hg. apply Hq, Hclose. by apply (contains_strip "]" (String l g0)).
  - done.
Qed.

Lemma starts_with_accidental_rstrip q :
  Spec.starts_with_accidental q = false → Spec.starts_with_accidental (rstrip q) = false.
Proof.
  intros Hq. destruct (rstrip q) as [|c t] eqn:E; [done|].
  apply rstrip_first in E as [t' ->]. done.
Qed.

Lemma ROOT_PATTERN_match_rebuilt r q :
  Spec.note_spelling r → contains LF q = false → Spec.starts_with_accidental q = false →
  ROOT_PATTERN_match (r +:+ q) = Some (r, q).
Proof.
  intros (l & acc & -> & Hl & _ & Hacc) HLF Hq. simpl. rewrite Hl.
  destruct Hacc as [->|(a & -> & Ha)]; simpl.
  - rewrite lazy_dot_to_end_no_LF by done. destruct q as [|c q]; [done|].
    simpl in Hq. by rewrite Hq.
  - by rewrite Ha, lazy_dot_to_end_no_LF.
Qed.

Lemma note_spelling_normal r :
  Spec.note_spelling r →
  match capitalize r with
  | String r0 (String r1 _) => String (upper_char r0) (String (lower_char r1) "")
  | _ => capitalize r
  end = r.
Proof.
  intros (l & acc & -> & Hl & Hup & Hacc).
  destruct (note_letter_plain l Hl) as (_ & _ & _ & _ & _ & _ & Hupup).
  destruct Hacc as [->|(a & -> & Ha)]; simpl.
  - by rewrite Hup.
  - destruct (accidental_plain a Ha) as (_ & _ & _ & _ & Hlow).
    by rewrite Hup, !Hlow, Hup.
Qed.

Lemma rstrip_note_app r q :
  Spec.note_spelling r → rstrip (r +:+ q) = r +:+ rstrip q.
Proof.
  intros (l & acc & -> & Hl & _ & Hacc).
  destruct (note_letter_plain l Hl) as (Hsp & _).
  rewrite !app_cons_str, rstrip_cons_nonspace by done. f_equal.
  destruct Hacc as [->|(a & -> & Ha)]; [done|].
  destruct (accidental_plain a Ha) as (Hspa & _).
  by rewrite app_cons_str, rstrip_cons_nonspace.
Qed.

Lemma strip_note_app r q :
  Spec.note_spelling r → strip (r +:+ q) = r +:+ rstrip q.
Proof.
  intros Hr. unfold strip. rewrite rstrip_note_app by done.
  destruct Hr as (l & acc & -> & Hl & _).
  destruct (note_letter_plain l Hl) as (Hsp & _).
  simpl. by rewrite Hsp.
Qed.

Lemma rstrip_note r : Spec.note_spelling r → rstrip r = r.
Proof.
  intros Hr. rewrite <- (app_nil_r_str r) at 1.
  rewrite rstrip_note_app by done. simpl. by str_norm.
Qed.

(** The chord that [transpose_chord] builds without a bass is read back
    as it was built. *)
Lemma parse_chord_rebuilt r q :
  Spec.note_spelling r → contains "/" q = false → contains LF q = false →
  Spec.starts_with_accidental q = false →
  parse_chord (r +:+ q) = mkChordInfo r (rstrip q) None.
Proof.
  intros Hr Hslash HLF Hq. unfold parse_chord.
  rewrite strip_note_app by done.
  destruct (note_spelling_plain r Hr) as (_ & Hrs & _).
  rewrite contains_app, Hrs, contains_rstrip by done. simpl.
  rewrite ROOT_PATTERN_match_rebuilt; [|done|by apply contains_rstrip|
                                        by apply starts_with_accidental_rstrip].
  by rewrite note_spelling_normal.
Qed.

(** The same with a bass. *)
Lemma parse_chord_rebuilt_bass r q b :
  Spec.note_spelling r → contains "/" q = false → contains LF q = false →
  Spec.starts_with_accidental q = false → Spec.note_spelling b →
  parse_chord (r +:+ q +:+ String "/" b) = mkChordInfo r q (Some b).
Proof.
  intros Hr Hslash HLF Hq Hb. unfold parse_chord.
  destruct (note_spelling_plain r Hr) as (_ & Hrs & _).
  destruct (note_spelling_plain b Hb) as (_ & Hbs & _).
  assert (strip (r +:+ q +:+ String "/" b) = r +:+ q +:+ String "/" b) as ->.
  { rewrite strip_note_app by done. f_equal.
    rewrite (rstrip_app_nonspace q "/" b) by done. by rewrite rstrip_note. }
  rewrite !contains_app. cbn [contains].
  rewrite (bool_decide_eq_true_2 ("/"%chr = "/"%chr)) by done.
  rewrite orb_true_l, !orb_true_r.
  replace (r +:+ q +:+ String "/" b) with ((r +:+ q) +:+ String "/" b) by (by str_norm).
  rewrite split_app by (by rewrite contains_app, Hrs, Hslash).
  rewrite (split_no_sep "/" b) by done. simpl.
  rewrite ROOT_PATTERN_match_rebuilt by done.
  by rewrite note_spelling_normal.
Qed.

(** [transpose_chord] on the group of a match: it never fails, its result
    is again the group of a match without line feed, and when the quality
    does not begin with an accidental the result is read back with root
    and bass moved by [semitones]. *)
Lemma transpose_chord_spec g semitones use_flats :
  starts_with_note_letter g = true →
  ∃ g', transpose_chord g semitones use_flats = Some g'
    ∧ starts_with_note_letter g' = true
    ∧ contains LF g' = false
    ∧ (contains "]" g = false → contains "]" g' = false)
    ∧ (Spec.plain_quality g →
       Spec.plain_quality g'
       ∧ Spec.pitch_classes g' = Spec.shifted semitones (Spec.pitch_classes g)).
Proof.
  intros Hg. destruct (parse_chord_shape g Hg) as (Hroot & Hslash & HLF & Hclose).
  unfold transpose_chord, Spec.plain_quality, Spec.pitch_classes,
    Spec.root_pitch_class, Spec.bass_pitch_class, Spec.shifted.
  destruct (parse_chord g) as [r q ob]. cbn [root quality bass] in *.
  destruct (transpose_note_Some r semitones use_flats Hroot) as (r1 & -> & Hr1 & Hidx).
  destruct (note_spelling_plain r1 Hr1) as (_ & Hr1s & Hr1c & Hr1l & Hr1n).
  assert (∀ x, starts_with_note_letter (r1 +:+ x) = true) as Hstart.
  { intros x. destruct Hr1 as (l & acc & -> & Hl & _). done. }
  destruct (truthy ob) eqn:Hob.
  - destruct ob as [b|]; [|done]. simpl in Hob. apply negb_true_iff in Hob.
    change (default "" (Some b)) with b.
    destruct (transpose_note_Some b semitones use_flats Hob) as (b1 & -> & Hb1 & Hbidx).
    destruct (note_spelling_plain b1 Hb1) as (Hb1e & Hb1s & Hb1c & Hb1l & _).
    cbn. rewrite Hb1e. cbn.
    replace ((r1 +:+ q) +:+ String "/" b1) with (r1 +:+ q +:+ String "/" b1)
      by (by str_norm).
    eexists. split; [done|]. split; [done|]. split; [|split].
    + rewrite !contains_app. cbn [contains]. by rewrite Hr1l, HLF, Hb1l.
    + intros Hc. rewrite !contains_app. cbn [contains].
      by rewrite Hr1c, (Hclose Hc), Hb1c.
    + intros Hq. rewrite parse_chord_rebuilt_bass by done. cbn.
      rewrite Hb1e. cbn. by rewrite Hidx, Hbidx.
  - cbn. eexists. split; [done|]. split; [done|]. split; [|split].
    + by rewrite contains_app, Hr1l, HLF.
    + intros Hc. by rewrite contains_app, Hr1c, (Hclose Hc).
    + intros Hq. rewrite parse_chord_rebuilt by done. cbn.
      split; [by apply starts_with_accidental_rstrip|]. by rewrite Hidx.
Qed.

Lemma pitch_classes_range g :
  0 ≤ (Spec.pitch_classes g).1 < 12
  ∧ ∀ b, (Spec.pitch_classes g).2 = Some b → 0 ≤ b < 12.
Proof.
  unfold Spec.pitch_classes, Spec.root_pitch_class, Spec.bass_pitch_class. simpl.
  split; [apply get_semitone_index_range|].
  destruct (truthy _); [|done]. intros b [= <-]. apply get_semitone_index_range.
Qed.

(** Two shifts that add up to a multiple of twelve give back the pitch
    classes. *)
Lemma shifted_back s s' g :
  (s + s') mod 12 = 0 →
  Spec.shifted s' (Spec.shifted s (Spec.pitch_classes g)) = Spec.pitch_classes g.
Proof.
  intros Hs. destruct (pitch_classes_range g) as [Hr Hb].
  destruct (Spec.pitch_classes g) as [r ob]. unfold Spec.shifted. simpl in *.
  assert (∀ x, 0 ≤ x < 12 → ((x + s) mod 12 + s') mod 12 = x) as Hback.
  { intros x Hx. rewrite Zplus_mod_idemp_l, <- Z.add_assoc, <- Zplus_mod_idemp_r, Hs.
    rewrite Z.add_0_r. by apply Z.mod_small. }
  f_equal; [by apply Hback|].
  destruct ob as [b|]; [|done]. simpl. f_equal. by apply Hback, Hb.
Qed.

End transpose_chord.

(** ** Scanning a rewritten document *)

Section rescan.

Lemma CHORD_PATTERN_match_valid g x :
  starts_with_note_letter g = true → contains "]" g = false →
  CHORD_PATTERN_match ("[" +:+ g +:+ String "]" x) = Some (g, x).
Proof.
  destruct g as [|l g0]; [done|]. simpl. intros Hl [_ Hg0]%orb_false_iff.
  rewrite Hl. simpl. by rewrite until_app.
Qed.

Lemma CHORD_PATTERN_match_close s g rest :
  CHORD_PATTERN_match s = Some (g, rest) → contains "]" s = true.
Proof.
  intros (-> & _)%CHORD_PATTERN_match_Some.
  str_norm. cbn [contains]. rewrite contains_app. cbn [contains].
  rewrite (bool_decide_eq_true_2 ("]"%chr = "]"%chr)) by done.
  by rewrite !orb_true_r.
Qed.

(** A text without closing bracket is scanned into its characters, and
    stays as it is under [same_frame]. *)
Lemma scan_no_close s :
  contains "]" s = false →
  ∀ ps', Forall2 Spec.same_frame (scan s) ps' → ps' = scan s.
Proof.
  apply (scan_ind (λ s ps, contains "]" s = false →
                           ∀ ps', Forall2 Spec.same_frame ps ps' → ps' = ps)).
  - by intros _ ps' ->%Forall2_nil_inv_l.
  - intros c t _ IH Hc ps' Hps'. simpl in Hc. apply orb_false_iff in Hc as [_ Ht].
    apply Forall2_cons_inv_l in Hps' as (p' & ps1' & Hp' & Hps1' & ->).
    inversion Hp'; subst. f_equal. by apply IH.
  - intros s' g rest E _ Hc. apply CHORD_PATTERN_match_close in E. congruence.
Qed.

(** The first character of a text is the same after its matches have been
    replaced. *)
Lemma source_first_char d t ps' :
  Forall2 Spec.same_frame (scan (String d t)) ps' →
  ∃ x, Spec.source ps' = String d x.
Proof.
  rewrite scan_cons.
  destruct (CHORD_PATTERN_match (String d t)) as [[g rest]|] eqn:E;
    intros (p' & ps1' & Hp' & _ & ->)%Forall2_cons_inv_l; inversion Hp'; subst.
  - apply CHORD_PATTERN_match_Some in E as (E & _). simpl in E.
    injection E as -> _. simpl. eauto.
  - simpl. eauto.
Qed.

Lemma CHORD_PATTERN_match_None_frame c t ps' :
  CHORD_PATTERN_match (String c t) = None →
  Forall2 Spec.same_frame (scan t) ps' →
  CHORD_PATTERN_match (String c (Spec.source ps')) = None.
Proof.
  intros E Hps'. destruct t as [|d t'].
  { apply Forall2_nil_inv_l in Hps' as ->. done. }
  destruct (source_first_char d t' ps' Hps') as [x Hx]. rewrite Hx.
  simpl in *. destruct (bool_decide (c = "["%chr) && is_note_letter d) eqn:Hcd; [|done].
  apply andb_true_iff in Hcd as [_ Hd].
  assert (until "]" t' = None) as Hnone by (by destruct (until "]" t') as [[??]|]).
  apply until_None in Hnone.
  assert (contains "]" (String d t') = false) as Hclose.
  { simpl. destruct (note_letter_plain d Hd) as (_ & _ & ? & _).
    by rewrite bool_decide_eq_false_2. }
  rewrite (scan_no_close _ Hclose _ Hps'), source_scan in Hx.
  injection Hx as <-. by rewrite E.
Qed.

(** A document whose matches have been replaced by valid groups is
    scanned into the same pieces, with the new groups. *)
Lemma scan_source_frame s :
  ∀ ps', Forall2 Spec.same_frame (scan s) ps' → Forall Spec.valid_piece ps' →
         scan (Spec.source ps') = ps'.
Proof.
  apply (scan_ind (λ s ps, ∀ ps', Forall2 Spec.same_frame ps ps' →
                                  Forall Spec.valid_piece ps' →
                                  scan (Spec.source ps') = ps')).
  - by intros ps' ->%Forall2_nil_inv_l _.
  - intros c t E IH ps' Hps' Hvalid.
    pose proof Hps' as (p' & ps1' & Hp' & Hps1' & ->)%Forall2_cons_inv_l.
    inversion Hp'; subst. apply Forall_cons in Hvalid as [_ Hvalid].
    simpl. rewrite scan_cons, (CHORD_PATTERN_match_None_frame c t ps1' E Hps1').
    f_equal. by apply IH.
  - intros s' g rest E IH ps' Hps' Hvalid.
    pose proof Hps' as (p' & ps1' & Hp' & Hps1' & ->)%Forall2_cons_inv_l.
    inversion Hp'; subst. apply Forall_cons in Hvalid as [[Hg1 Hg2] Hvalid].
    cbn [Spec.source]. str_norm. rewrite scan_cons.
    pose proof (CHORD_PATTERN_match_valid g' (Spec.source ps1') Hg1 Hg2) as Hm.
    revert Hm. str_norm. intros ->. f_equal. by apply IH.
Qed.

End rescan.

(** ** Transposition of a document *)

Section transpose_document.

Lemma map_brackets_frame f ps : Forall2 Spec.same_frame ps (Spec.map_brackets f ps).
Proof.
  induction ps as [|[c|g] ps IH]; constructor; try done; constructor.
Qed.

Lemma same_frame_refl ps : Forall2 Spec.same_frame ps ps.
Proof. induction ps as [|[c|g] ps IH]; constructor; try done; constructor. Qed.

Lemma groups_map_brackets f ps :
  Spec.groups (Spec.map_brackets f ps) = f <$> Spec.groups ps.
Proof.
  induction ps as [|[c|g] ps IH]; [done|apply IH|]. simpl. f_equal. apply IH.
Qed.

Lemma CHORD_PATTERN_sub_spec repl f s :
  (∀ g, g ∈ Spec.groups (scan s) → repl g = Some ("[" +:+ f g +:+ "]")) →
  CHORD_PATTERN_sub repl s = Some (Spec.source (Spec.map_brackets f (scan s))).
Proof.
  unfold CHORD_PATTERN_sub. generalize (scan s). intros ps Hrepl.
  set (text := λ p, match p with
                    | Text c => String c ""
                    | Bracket g => "[" +:+ f g +:+ "]"
                    end).
  assert (mapM (λ p, match p with
                     | Text c => Some (String c "")
                     | Bracket g => repl g
                     end) ps = Some (text <$> ps)) as ->.
  { apply mapM_Some, Forall2_fmap_r, Forall_Forall2_diag, Forall_forall.
    intros [c|g] Hp; [done|]. apply Hrepl.
    clear Hrepl. induction ps as [|[c|g0] ps IH]; [by apply elem_of_nil in Hp|..].
    - apply elem_of_cons in Hp as [?|Hp]; [done|]. by apply IH.
    - simpl. apply elem_of_cons in Hp as [[= ->]|Hp]; apply elem_of_cons; eauto. }
  simpl. f_equal. clear Hrepl.
  unfold Spec.map_brackets.
  induction ps as [|[c|g] ps IH]; [done|..];
    rewrite !fmap_cons; cbn [concat_all Spec.source]; rewrite IH;
    unfold text; by str_norm.
Qed.

(** The groups of a transposed document are valid groups again. *)
Lemma transposed_valid semitones use_flats s :
  Forall Spec.valid_piece
         (Spec.map_brackets (Spec.transposed semitones use_flats) (scan s)).
Proof.
  pose proof (groups_scan s) as Hg. revert Hg. generalize (scan s). intros ps.
  induction ps as [|[c|g] ps IH]; intros Hg; [constructor|by constructor; [|apply IH]|].
  simpl in Hg. apply Forall_cons in Hg as [[Hg1 Hg2] Hg].
  constructor; [|by apply IH]. simpl. unfold Spec.transposed.
  destruct (transpose_chord_spec g semitones use_flats Hg1)
    as (g' & -> & Hg'1 & _ & Hg'2 & _). simpl. split; [done|by apply Hg'2].
Qed.

(** [transpose_chordpro] with a shift that is not zero: the result, and
    how it is scanned. *)
Lemma transpose_chordpro_spec content from_key to_key :
  let semitones := calculate_transpose_semitones from_key to_key in
  let f := Spec.transposed semitones (bool_decide (to_key ∈ FLAT_KEYS)) in
  semitones ≠ 0 →
  transpose_chordpro content from_key to_key
  = Some (Spec.source (Spec.map_brackets f (scan content)))
  ∧ scan (Spec.source (Spec.map_brackets f (scan content)))
    = Spec.map_brackets f (scan content).
Proof.
  intros semitones f Hs. split.
  - unfold transpose_chordpro. fold semitones.
    destruct (Z.eqb_spec semitones 0) as [|_]; [done|].
    apply CHORD_PATTERN_sub_spec. intros g Hg.
    pose proof (groups_scan content) as Hgs. rewrite Forall_forall in Hgs.
    destruct (Hgs g Hg) as [Hg1 _]. unfold f, Spec.transposed.
    by destruct (transpose_chord_spec g semitones (bool_decide (to_key ∈ FLAT_KEYS)) Hg1)
      as (g' & -> & _).
  - apply (scan_source_frame content); [apply map_brackets_frame|apply transposed_valid].
Qed.

Lemma transpose_chordpro_zero content from_key to_key :
  calculate_transpose_semitones from_key to_key = 0 →
  transpose_chordpro content from_key to_key = Some content.
Proof. intros Hs. unfold transpose_chordpro. by rewrite Hs. Qed.

(** *** Lines *)

Lemma count_app c a b : count c (a +:+ b) = (count c a + count c b)%nat.
Proof. induction a as [|x a IH]; simpl; [done|]. rewrite IH. lia. Qed.

Lemma count_not_contained c s : contains c s = false → count c s = O.
Proof.
  induction s as [|x s IH]; simpl; [done|].
  intros [Hx Hs]%orb_false_iff. by rewrite Hx, IH.
Qed.

Lemma line_count_count s : Spec.line_count s = S (count LF s).
Proof.
  unfold Spec.line_count, split_lines.
  assert (length (split LF s).2 = count LF s) as Hlen.
  { induction s as [|c s IH]; simpl; [done|].
    destruct (split LF s) as [p ps]. simpl in IH.
    destruct (bool_decide (c = LF)); simpl; by rewrite IH. }
  destruct (split LF s) as [p ps]. simpl in *. by rewrite Hlen.
Qed.

(** Replacing groups without line feed by groups without line feed keeps
    the number of line feeds. *)
Lemma count_LF_frame f ps :
  Forall (λ g, contains LF g = false) (Spec.groups ps) →
  Forall (λ g, contains LF (f g) = false) (Spec.groups ps) →
  count LF (Spec.source (Spec.map_brackets f ps)) = count LF (Spec.source ps).
Proof.
  unfold Spec.map_brackets.
  induction ps as [|[c|g] ps IH]; intros H1 H2; [done|..]; rewrite fmap_cons.
  - cbn [Spec.source count]. by rewrite IH.
  - simpl in H1, H2. apply Forall_cons in H1 as [Hg H1]. apply Forall_cons in H2 as [Hfg H2].
    cbn [Spec.source]. str_norm. cbn [count].
    rewrite !count_app. cbn [count]. rewrite IH by done.
    by rewrite (count_not_contained LF g), (count_not_contained LF (f g)).
Qed.

(** C4 (amended): [transpose_chordpro] always returns a text; the text
    scans into the same pieces as the input, character for character
    outside the matches of [CHORD_PATTERN], with a match where the input
    has a match; with a shift of zero it is the input; and it has as many
    lines as the input when no match of the input holds a line feed. *)
Theorem transpose_chordpro_frame :
  (∀ content from_key to_key,
     ∃ out, transpose_chordpro content from_key to_key = Some out
            ∧ Forall2 Spec.same_frame (scan content) (scan out)
            ∧ (calculate_transpose_semitones from_key to_key = 0 → out = content))
  ∧ (∀ content from_key to_key out,
       Forall (λ g, contains LF g = false) (Spec.groups (scan content)) →
       transpose_chordpro content from_key to_key = Some out →
       Spec.line_count out = Spec.line_count content).
Proof.
  split.
  - intros content from_key to_key.
    destruct (decide (calculate_transpose_semitones from_key to_key = 0)) as [Hs|Hs].
    + exists content. rewrite transpose_chordpro_zero by done.
      split; [done|]. split; [apply same_frame_refl|done].
    + destruct (transpose_chordpro_spec content from_key to_key Hs) as [-> Hscan].
      eexists. split; [done|]. rewrite Hscan. split; [apply map_brackets_frame|done].
  - intros content from_key to_key out HLF Hout.
    destruct (decide (calculate_transpose_semitones from_key to_key = 0)) as [Hs|Hs].
    + rewrite transpose_chordpro_zero in Hout by done. by injection Hout as <-.
    + destruct (transpose_chordpro_spec content from_key to_key Hs) as [Heq _].
      rewrite Heq in Hout. injection Hout as <-.
      rewrite !line_count_count, count_LF_frame, source_scan; [done|done|].
      pose proof (groups_scan content) as Hg.
      eapply Forall_impl; [exact Hg|]. intros g [Hg1 _]. simpl.
      unfold Spec.transposed.
      by destruct (transpose_chord_spec g
                     (calculate_transpose_semitones from_key to_key)
                     (bool_decide (to_key ∈ FLAT_KEYS)) Hg1) as (g' & -> & _ & ? & _).
Qed.

Lemma transpose_chordpro_frame_witness :
  Forall (λ g, contains LF g = false) (Spec.groups (scan "[G]Test [D]line"))
  ∧ transpose_chordpro "[G]Test [D]line" "G" "A" = Some "[A]Test [E]line"
  ∧ Spec.line_count "[A]Test [E]line" = Spec.line_count "[G]Test [D]line"
  ∧ calculate_transpose_semitones "G" "G" = 0
  ∧ ∃ out, transpose_chordpro "[G]Test [D]line" "G" "G" = Some out
           ∧ out = "[G]Test [D]line".
Proof.
  assert (Forall (λ g, contains LF g = false) (Spec.groups (scan "[G]Test [D]line")))
    as HLF by (apply (bool_decide_unpack _); vm_compute; exact I).
  split; [exact HLF|]. split; [vm_compute; reflexivity|].
  split.
  { exact (proj2 transpose_chordpro_frame "[G]Test [D]line" "G" "A" "[A]Test [E]line"
                 HLF eq_refl). }
  split; [vm_compute; reflexivity|].
  destruct (proj1 transpose_chordpro_frame "[G]Test [D]line" "G" "G")
    as (out & Hout & _ & Hzero).
  exists out. split; [exact Hout|]. apply Hzero. vm_compute. reflexivity.
Defined.

(** A bracket that spans a line break is replaced by a one-line chord:
    the output has one line where the input has two. *)
Lemma transpose_chordpro_lines_counterexample :
  transpose_chordpro Spec.two_line_bracket "C" "D" = Some "[D]"
  ∧ Spec.line_count Spec.two_line_bracket = 2%nat
  ∧ Spec.line_count "[D]" = 1%nat.
Proof. by vm_compute. Qed.

(** *** There and back *)

Lemma calculate_transpose_semitones_back a b :
  (calculate_transpose_semitones a b + calculate_transpose_semitones b a) mod 12 = 0.
Proof.
  unfold calculate_transpose_semitones.
  set (x := get_semitone_index _). set (y := get_semitone_index _).
  rewrite <- Zplus_mod. by replace (x - y + (y - x)) with 0 by lia.
Qed.

Lemma calculate_transpose_semitones_range a b :
  0 ≤ calculate_transpose_semitones a b < 12.
Proof. unfold calculate_transpose_semitones. apply Z.mod_pos_bound. lia. Qed.

(** The chords of a document after one transposition. *)
Lemma transposed_groups semitones use_flats gs :
  Forall (λ g, starts_with_note_letter g = true ∧ contains "]" g = false) gs →
  Forall Spec.plain_quality gs →
  Forall (λ g, starts_with_note_letter g = true ∧ contains "]" g = false)
         (Spec.transposed semitones use_flats <$> gs)
  ∧ Forall Spec.plain_quality (Spec.transposed semitones use_flats <$> gs)
  ∧ Spec.pitch_classes <$> (Spec.transposed semitones use_flats <$> gs)
    = Spec.shifted semitones <$> (Spec.pitch_classes <$> gs).
Proof.
  induction gs as [|g gs IH]; intros Hv Hp; [by repeat constructor|].
  apply Forall_cons in Hv as [[Hg1 Hg2] Hv]. apply Forall_cons in Hp as [Hg Hp].
  destruct (IH Hv Hp) as (IH1 & IH2 & IH3).
  rewrite !fmap_cons, IH3. unfold Spec.transposed at 1 3 5.
  destruct (transpose_chord_spec g semitones use_flats Hg1)
    as (g' & -> & Hg'1 & _ & Hg'2 & Hg'3). simpl.
  destruct (Hg'3 Hg) as [Hq Hpc].
  split; [constructor; [split; [done|by apply Hg'2]|done]|].
  split; [by constructor|]. by rewrite Hpc.
Qed.

(** C5 (amended): when no chord of the document has a quality that begins
    with [#] or [b], transposing from [K1] to [K2] and back gives a
    document whose chords have, in order, the pitch classes of root and
    bass of the chords of the original. *)
Theorem round_trip_pitch_classes (content K1 K2 : string) :
  Forall Spec.plain_quality (Spec.groups (scan content)) →
  ∃ there back,
    transpose_chordpro content K1 K2 = Some there
    ∧ transpose_chordpro there K2 K1 = Some back
    ∧ Spec.document_pitch_classes back = Spec.document_pitch_classes content.
Proof.
  intros Hplain.
  pose proof (calculate_transpose_semitones_back K1 K2) as Hback.
  pose proof (calculate_transpose_semitones_range K1 K2) as Hr1.
  pose proof (calculate_transpose_semitones_range K2 K1) as Hr2.
  destruct (decide (calculate_transpose_semitones K1 K2 = 0)) as [Hs|Hs].
  - assert (calculate_transpose_semitones K2 K1 = 0) as Hs'.
    { rewrite Hs, Z.add_0_l in Hback. by rewrite Z.mod_small in Hback by lia. }
    exists content, content. by rewrite !transpose_chordpro_zero.
  - assert (calculate_transpose_semitones K2 K1 ≠ 0) as Hs'.
    { intros Hs'. rewrite Hs', Z.add_0_r in Hback. by rewrite Z.mod_small in Hback by lia. }
    destruct (transpose_chordpro_spec content K1 K2 Hs) as [Hthere Hscan].
    remember (Spec.source
                (Spec.map_brackets
                   (Spec.transposed (calculate_transpose_semitones K1 K2)
                                    (bool_decide (K2 ∈ FLAT_KEYS)))
                   (scan content))) as there eqn:Ethere.
    destruct (transpose_chordpro_spec there K2 K1 Hs') as [Hbackeq Hscan'].
    eexists there, _. split; [done|]. split; [exact Hbackeq|].
    unfold Spec.document_pitch_classes.
    rewrite Hscan', Hscan, !groups_map_brackets.
    destruct (transposed_groups (calculate_transpose_semitones K1 K2)
                (bool_decide (K2 ∈ FLAT_KEYS)) _ (groups_scan content) Hplain)
      as (Hv1 & Hp1 & Hpc1).
    destruct (transposed_groups (calculate_transpose_semitones K2 K1)
                (bool_decide (K1 ∈ FLAT_KEYS)) _ Hv1 Hp1)
      as (_ & _ & Hpc2).
    rewrite Hpc2, Hpc1, <- !list_fmap_compose.
    rewrite <- (list_fmap_id (Spec.groups (scan content))) at 2.
    rewrite <- list_fmap_compose.
    apply list_fmap_ext. intros _ g _. simpl. by apply shifted_back.
Qed.

Lemma round_trip_pitch_classes_witness :
  Forall Spec.plain_quality (Spec.groups (scan "[G]Test [D/F#]line [Em7]x"))
  ∧ ∃ there back,
      transpose_chordpro "[G]Test [D/F#]line [Em7]x" "G" "Eb" = Some there
      ∧ transpose_chordpro there "Eb" "G" = Some back
      ∧ Spec.document_pitch_classes back
        = Spec.document_pitch_classes "[G]Test [D/F#]line [Em7]x".
Proof.
  assert (Forall Spec.plain_quality (Spec.groups (scan "[G]Test [D/F#]line [Em7]x")))
    as Hplain by (apply (bool_decide_unpack _); vm_compute; exact I).
  split; [exact Hplain|].
  exact (round_trip_pitch_classes "[G]Test [D/F#]line [Em7]x" "G" "Eb" Hplain).
Defined.

(** The chord E-flat with a flat five, moved up to E and back, comes back
    as a D chord: the transposed text [Eb5] is read as E-flat five. *)
Lemma round_trip_pitch_classes_counterexample :
  transpose_chordpro "[Ebb5]" "Eb" "E" = Some "[Eb5]"
  ∧ transpose_chordpro "[Eb5]" "E" "Eb" = Some "[D5]"
  ∧ Spec.document_pitch_classes "[Ebb5]" = [(3, None)]
  ∧ Spec.document_pitch_classes "[D5]" = [(2, None)].
Proof. by vm_compute. Qed.

End transpose_document.

(** ** Unknown keys *)

Section unknown_keys.

Lemma RELATIVE_KEYS_tier a b :
  RELATIVE_KEYS !! a = Some b →
  Spec.tier_of_pitch_classes (get_semitone a) (get_semitone b) = OK
  ∧ Spec.tier_of_pitch_classes (get_semitone b) (get_semitone a) = OK.
Proof.
  intros H. apply elem_of_list_to_map_2 in H.
  repeat (apply elem_of_cons in H as [[= -> ->]|H]; [by vm_compute|]).
  by apply elem_of_nil in H.
Qed.

(** The tier of a transition depends on the pitch classes of the two keys
    only. *)
Lemma check_key_compatibility_pitch_classes a b :
  check_key_compatibility a b
  = Spec.tier_of_pitch_classes (get_semitone a) (get_semitone b).
Proof.
  rewrite check_key_compatibility_classify.
  unfold Spec.classify, Spec.relative_pair.
  destruct (decide (a = b)) as [->|Hne].
  { unfold Spec.tier_of_pitch_classes.
    replace (get_semitone b - get_semitone b) with 0 by lia. done. }
  destruct (decide (RELATIVE_KEYS !! a = Some b ∨ RELATIVE_KEYS !! b = Some a))
    as [[Hr|Hr]|Hr].
  - by destruct (RELATIVE_KEYS_tier a b Hr) as [-> _].
  - by destruct (RELATIVE_KEYS_tier b a Hr) as [_ ->].
  - unfold Spec.tier_of_pitch_classes, get_key_distance.
    pose proof (get_semitone_range a). pose proof (get_semitone_range b).
    repeat case_decide; done || lia.
Qed.

Lemma get_semitone_index_looked_up note :
  get_semitone_index note =
    match list_index (Spec.looked_up note) CHROMATIC_SHARP with
    | Some i => Z.of_nat i
    | None => 0
    end.
Proof. done. Qed.

Lemma unknown_note_index note : Spec.unknown_note note → get_semitone_index note = 0.
Proof. intros H. rewrite get_semitone_index_looked_up. by rewrite H. Qed.

(** The keys with flat spelling are known to the transposer. *)
Lemma FLAT_KEYS_known key : key ∈ FLAT_KEYS → ¬ Spec.unknown_note (Spec.key_root key).
Proof.
  intros H.
  repeat (apply elem_of_cons in H as [->|H]; [by vm_compute|]).
  by apply elem_of_nil in H.
Qed.

Lemma transpose_chordpro_is_Some content from_key to_key :
  is_Some (transpose_chordpro content from_key to_key).
Proof.
  destruct (decide (calculate_transpose_semitones from_key to_key = 0)) as [Hs|Hs].
  - by rewrite transpose_chordpro_zero.
  - by destruct (transpose_chordpro_spec content from_key to_key Hs) as [-> _].
Qed.

Lemma get_pivot_chords_head a b : is_Some (head (get_pivot_chords a b)).
Proof.
  unfold get_pivot_chords.
  destruct (normalize_key a) as [from_base ?], (normalize_key b) as [to_base ?].
  match goal with
  | |- is_Some (head (match ?l with [] => _ | _ => _ end)) => by destruct l
  end.
Qed.

(** [suggest_bridge_progression] returns a dictionary with the tier and
    the distance of the two keys, whatever the keys. *)
Lemma suggest_bridge_progression_Some a b :
  ∃ progressions,
    suggest_bridge_progression a b
    = Some (mkBridge (check_key_compatibility a b) (get_key_distance a b) progressions).
Proof.
  unfold suggest_bridge_progression.
  destruct (get_pivot_chords_head a b) as [pivot ->].
  destruct (check_key_compatibility a b); [case_bool_decide|..]; cbn; eauto.
Qed.

(** C9: a key that the pitch-class tables do not hold has pitch class 0:
    the compatibility functions give for it what they give for ["C"], the
    transposition functions give for it what they give for ["C"], and no
    key makes the bridge suggestion or the transposition fail. *)
Theorem unknown_key_fallback (u v : string) :
  Spec.unknown_key u → Spec.unknown_note (Spec.key_root v) →
  (get_semitone u = 0
   ∧ ∀ k, get_key_distance u k = get_key_distance "C" k
          ∧ get_key_distance k u = get_key_distance k "C"
          ∧ check_key_compatibility u k = check_key_compatibility "C" k
          ∧ check_key_compatibility k u = check_key_compatibility k "C"
          ∧ ∃ progressions,
              suggest_bridge_progression u k
              = Some (mkBridge (check_key_compatibility "C" k)
                               (get_key_distance "C" k) progressions))
  ∧ (get_semitone_index (Spec.key_root v) = 0
     ∧ ∀ k, calculate_transpose_semitones v k = calculate_transpose_semitones "C" k
            ∧ calculate_transpose_semitones k v = calculate_transpose_semitones k "C"
            ∧ ∀ content,
                transpose_chordpro content v k = transpose_chordpro content "C" k
                ∧ transpose_chordpro content k v = transpose_chordpro content k "C")
  ∧ (∀ k1 k2, is_Some (suggest_bridge_progression k1 k2))
  ∧ (∀ content k1 k2, is_Some (transpose_chordpro content k1 k2)).
Proof.
  intros Hu Hv.
  assert (get_semitone u = 0) as Hu0.
  { unfold get_semitone, normalize_key. unfold Spec.unknown_key, normalize_key in Hu.
    simpl in Hu. by rewrite Hu. }
  assert (get_semitone "C" = 0) as HC0 by done.
  pose proof (unknown_note_index _ Hv) as Hv0.
  assert (get_semitone_index (Spec.key_root "C") = 0) as HCi by done.
  assert (∀ k, calculate_transpose_semitones v k = calculate_transpose_semitones "C" k
               ∧ calculate_transpose_semitones k v = calculate_transpose_semitones k "C")
    as Hcalc.
  { intros k. unfold calculate_transpose_semitones.
    fold (Spec.key_root v) (Spec.key_root k) (Spec.key_root "C").
    by rewrite Hv0, HCi. }
  assert (∀ k, get_key_distance u k = get_key_distance "C" k
               ∧ get_key_distance k u = get_key_distance k "C"
               ∧ check_key_compatibility u k = check_key_compatibility "C" k
               ∧ check_key_compatibility k u = check_key_compatibility k "C") as Hkt.
  { intros k. rewrite !check_key_compatibility_pitch_classes. unfold get_key_distance.
    by rewrite Hu0, HC0. }
  split; [|split; [|split]].
  - split; [done|]. intros k. destruct (Hkt k) as (Hd1 & Hd2 & Hc1 & Hc2).
    repeat (split; [done|]).
    destruct (suggest_bridge_progression_Some u k) as [ps Hps].
    exists ps. by rewrite Hps, Hd1, Hc1.
  - split; [done|]. intros k. destruct (Hcalc k) as [Hk1 Hk2].
    split; [done|]. split; [done|]. intros content. unfold transpose_chordpro.
    rewrite Hk1, Hk2. split; [done|].
    assert (bool_decide (v ∈ FLAT_KEYS) = bool_decide ("C" ∈ FLAT_KEYS)) as ->; [|done].
    rewrite bool_decide_eq_false_2; [done|].
    intros Hin. by apply (FLAT_KEYS_known v Hin).
  - intros k1 k2. by destruct (suggest_bridge_progression_Some k1 k2) as [ps ->].
  - apply transpose_chordpro_is_Some.
Qed.

Lemma unknown_key_fallback_witness :
  Spec.unknown_key "H" ∧ Spec.unknown_note (Spec.key_root "H")
  ∧ get_semitone "H" = 0
  ∧ check_key_compatibility "H" "F#" = check_key_compatibility "C" "F#"
  ∧ calculate_transpose_semitones "H" "D" = calculate_transpose_semitones "C" "D"
  ∧ transpose_chordpro "[G]la" "H" "D" = transpose_chordpro "[G]la" "C" "D".
Proof.
  assert (Spec.unknown_key "H") as Hu by (vm_compute; reflexivity).
  assert (Spec.unknown_note (Spec.key_root "H")) as Hv by (vm_compute; reflexivity).
  destruct (unknown_key_fallback "H" "H" Hu Hv) as ([H1 H2] & [_ H3] & _).
  destruct (H2 "F#") as (_ & _ & H4 & _). destruct (H3 "D") as (H5 & _ & H6).
  destruct (H6 "[G]la") as [H7 _].
  exact (conj Hu (conj Hv (conj H1 (conj H4 (conj H5 H7))))).
Defined.

End unknown_keys.

(** ** Further properties of the compatibility engine *)

Section key_distance.

Lemma normalize_key_fst_snd key :
  normalize_key key = ((normalize_key key).1, (normalize_key key).2).
Proof. by destruct (normalize_key key). Qed.

Lemma drop_last_last_char s c :
  last_char s = Some c → drop_last s +:+ String c "" = s.
Proof.
  induction s as [|d t IH]; [done|].
  destruct t as [|e t]; simpl in *; [by intros [= ->]|].
  intros H. by rewrite IH.
Qed.

(** X1: [normalize_key]: the base and the minor flag give the key back, the
    flag tells whether the key ends in [m], and the minor marker is removed
    once only. *)
Theorem normalize_key_round_trip key :
  let '(base, is_minor) := normalize_key key in
  (if is_minor then base +:+ "m" else base) = key
  ∧ is_minor = endswith "m" key
  ∧ len base = (len key - (if is_minor then 1 else 0))%nat.
Proof.
  unfold normalize_key, endswith.
  destruct (last_char key) as [c|] eqn:Hc; [|by rewrite Nat.sub_0_r].
  case_bool_decide as Hm; [|by rewrite Nat.sub_0_r].
  subst c. split; [by apply drop_last_last_char|]. split; [done|].
  apply drop_last_last_char in Hc.
  rewrite <- Hc at 2. rewrite length_app_str. simpl. lia.
Qed.

(** X2: [get_key_distance] is a distance on the pitch classes of the keys: it
    lies between 0 and 6, is 0 exactly for keys of the same pitch class, is
    symmetric, and satisfies the triangle inequality. *)
Theorem get_key_distance_metric a b c :
  0 ≤ get_key_distance a b ≤ 6
  ∧ (get_key_distance a b = 0 ↔ get_semitone a = get_semitone b)
  ∧ get_key_distance a b = get_key_distance b a
  ∧ get_key_distance a c ≤ get_key_distance a b + get_key_distance b c.
Proof.
  unfold get_key_distance.
  pose proof (get_semitone_range a). pose proof (get_semitone_range b).
  pose proof (get_semitone_range c).
  generalize dependent (get_semitone a). generalize dependent (get_semitone b).
  generalize dependent (get_semitone c). intros. lia.
Qed.

Lemma tier_of_pitch_classes_distance x y :
  0 ≤ x ≤ 11 → 0 ≤ y ≤ 11 →
  Spec.tier_of_pitch_classes x y
  = Spec.tier_of_distance (Z.min (Z.abs (y - x)) (12 - Z.abs (y - x))).
Proof.
  intros Hx Hy. unfold Spec.tier_of_pitch_classes, Spec.tier_of_distance.
  assert (Hi : (y - x) mod 12 = y - x ∨ (y - x) mod 12 = y - x + 12).
  { destruct (decide (x ≤ y)).
    - left. apply Z.mod_small. lia.
    - right. rewrite <- (Z.mod_small (y - x + 12) 12) by lia.
      by rewrite <- Z.add_mod_idemp_r, Z.mod_same, Z.add_0_r by lia. }
  pose proof (Z.mod_pos_bound (y - x) 12 ltac:(lia)) as Hr.
  generalize dependent ((y - x) mod 12). intros i Hi Hr.
  repeat case_decide; try done; lia.
Qed.

Lemma tier_of_get_key_distance a b :
  Spec.tier_of_pitch_classes (get_semitone a) (get_semitone b)
  = Spec.tier_of_distance (get_key_distance a b).
Proof. apply tier_of_pitch_classes_distance; apply get_semitone_range. Qed.

(** X3: The tier of a transition is a function of the folded distance of the
    two keys alone: distance 3 is OK, distances 4 and 6 are AWKWARD, and the
    distances 0, 1, 2 and 5 are NATURAL; the string comparison and the
    table of relative keys never give another tier than the distance
    does.  So the tier does not depend on the direction of the transition,
    and keys of the same pitch class are interchangeable: enharmonic
    spellings and the minor marker do not change the tier. *)
Theorem check_key_compatibility_by_distance a b :
  check_key_compatibility a b = Spec.tier_of_distance (get_key_distance a b)
  ∧ check_key_compatibility a b = check_key_compatibility b a
  ∧ ∀ a' b', get_semitone a = get_semitone a' → get_semitone b = get_semitone b' →
             check_key_compatibility a b = check_key_compatibility a' b'.
Proof.
  rewrite !check_key_compatibility_pitch_classes, !tier_of_get_key_distance.
  split; [done|]. split; [by rewrite get_key_distance_sym|].
  intros a' b' Ha Hb.
  rewrite check_key_compatibility_pitch_classes, tier_of_get_key_distance.
  unfold get_key_distance. by rewrite Ha, Hb.
Qed.

End key_distance.

(** ** Pivot chords and bridge suggestions *)

Section suggestions.

(** X4: [get_pivot_chords] by the folded distance of the keys: two
    suggestions for a whole step, one for a half step and for a fourth or
    fifth, and the bare progression from one base to the other in every
    other case; the list is never empty and never longer than two. *)
Theorem get_pivot_chords_by_distance a b :
  let X := (normalize_key a).1 in
  let Y := (normalize_key b).1 in
  let d := get_key_distance a b in
  get_pivot_chords a b =
    (if decide (d = 2) then
       [X +:+ "sus4 → " +:+ Y; X +:+ " → " +:+ X +:+ "sus4 → " +:+ Y]
     else if decide (d = 1) then [X +:+ " → " +:+ X +:+ "sus4 → " +:+ Y]
     else if decide (d = 5) then
       (if decide ((get_semitone b - get_semitone a) mod 12 = 5)
        then [X +:+ " → " +:+ X +:+ "7 → " +:+ Y]
        else [X +:+ " → " +:+ Y +:+ "/F# → " +:+ Y])
     else [X +:+ " → " +:+ Y])
  ∧ (1 ≤ length (get_pivot_chords a b) ≤ 2)%nat.
Proof.
  cbv zeta. unfold get_pivot_chords.
  destruct (normalize_key a) as [X ?], (normalize_key b) as [Y ?]. cbn [fst].
  unfold get_key_distance.
  pose proof (get_semitone_range a) as Ha. pose proof (get_semitone_range b) as Hb.
  generalize dependent (get_semitone a). generalize dependent (get_semitone b).
  intros y Hy x Hx.
  pose proof (Z.mod_pos_bound (y - x) 12 ltac:(lia)) as Hr.
  assert (Hi : (y - x) mod 12 = y - x ∨ (y - x) mod 12 = y - x + 12).
  { destruct (decide (x ≤ y)).
    - left. apply Z.mod_small. lia.
    - right. rewrite <- (Z.mod_small (y - x + 12) 12) by lia.
      by rewrite <- Z.add_mod_idemp_r, Z.mod_same, Z.add_0_r by lia. }
  generalize dependent ((y - x) mod 12). intros i Hr Hi.
  set (d := Z.abs (y - x) `min` (12 - Z.abs (y - x))).
  assert (Hd : d = Z.abs (y - x) `min` (12 - Z.abs (y - x))) by done.
  clearbody d.
  assert (He : d ∈ [1; 2] ↔ d = 1 ∨ d = 2).
  { rewrite !elem_of_cons, elem_of_nil. tauto. }
  destruct (Z.eqb_spec d 2), (Z.eqb_spec i 5), (Z.eqb_spec i 7);
    case_bool_decide as H12; rewrite He in H12; repeat case_decide; cbn;
    try (split; [done|lia]); exfalso; lia.
Qed.

(** X5: [suggest_bridge_progression] never fails; its tier and distance are
    those of [check_key_compatibility] and [get_key_distance]; the kinds of
    the progressions depend on the tier and on whether the two keys are the
    same string; and a pivot progression carries the first entry of
    [get_pivot_chords]. *)
Theorem suggest_bridge_progression_kinds a b :
  ∃ bridge,
    suggest_bridge_progression a b = Some bridge
    ∧ b_compatibility bridge = check_key_compatibility a b
    ∧ b_distance bridge = get_key_distance a b
    ∧ p_type <$> b_progressions bridge =
        (if decide (a = b) then ["direct"]
         else match check_key_compatibility a b with
              | NATURAL => ["direct"; "pivot"]
              | OK => ["pivot"; "bridge"]
              | AWKWARD => ["bridge"; "modulation"]
              end)
    ∧ ∀ p, p ∈ b_progressions bridge → p_type p = "pivot" →
           head (get_pivot_chords a b) = Some (p_chords p).
Proof.
  unfold suggest_bridge_progression.
  destruct (get_pivot_chords_head a b) as [pivot Hp]. rewrite Hp.
  assert (a = b → check_key_compatibility a b = NATURAL) as Hsame.
  { intros ->. unfold check_key_compatibility. by rewrite bool_decide_eq_true_2. }
  destruct (check_key_compatibility a b) eqn:Hc; [case_bool_decide|..]; cbn;
    eexists; (split; [done|]); cbn; (split; [done|]); (split; [done|]);
    (split; [by case_decide; try done; ospecialize (Hsame _)|]);
    intros p Hin Ht; repeat (apply elem_of_cons in Hin as [->|Hin]); try done;
    by apply elem_of_nil in Hin.
Qed.

End suggestions.

(** ** Further properties of the key flow *)

Section key_flow.

Lemma analyze_setlist_key_flow_pairs keys :
  analyze_setlist_key_flow keys = Spec.analyze_flow keys.
Proof.
  unfold analyze_setlist_key_flow. case_bool_decide as Hlen.
  - by destruct keys as [|? [|? ?]]; simpl in *; [..|lia].
  - rewrite flow_loop_spec. simpl. unfold Spec.analyze_flow. f_equal.
    by destruct (Spec.max_tier _).
Qed.

Lemma max_tier_AWKWARD l : Spec.max_tier l = AWKWARD ↔ AWKWARD ∈ l.
Proof.
  induction l as [|c l IH]; simpl.
  - split; [done|]. by intros ?%elem_of_nil.
  - rewrite elem_of_cons, <- IH. clear IH.
    destruct c, (Spec.max_tier l); simpl;
      (split; [intros H|intros [H|H]]); try discriminate H; auto.
Qed.

Lemma max_tier_NATURAL l : Spec.max_tier l = NATURAL ↔ Forall (λ c, c = NATURAL) l.
Proof.
  induction l as [|c l IH]; simpl.
  - split; [by constructor|done].
  - rewrite Forall_cons, <- IH. clear IH.
    destruct c, (Spec.max_tier l); simpl;
      (split; [intros H|intros [H H']]); try discriminate H; try discriminate H'; auto.
Qed.

Lemma max_tier_ext l l' : (∀ c, c ∈ l ↔ c ∈ l') → Spec.max_tier l = Spec.max_tier l'.
Proof.
  intros H.
  destruct (Spec.max_tier l) eqn:E, (Spec.max_tier l') eqn:E'; try done.
  all: try (apply max_tier_AWKWARD in E; apply H, max_tier_AWKWARD in E; congruence).
  all: try (apply max_tier_AWKWARD in E'; apply H, max_tier_AWKWARD in E'; congruence).
  - apply max_tier_NATURAL in E.
    assert (Spec.max_tier l' = NATURAL); [|congruence].
    apply max_tier_NATURAL, Forall_forall. intros c Hc%H.
    by eapply Forall_forall in E.
  - apply max_tier_NATURAL in E'.
    assert (Spec.max_tier l = NATURAL); [|congruence].
    apply max_tier_NATURAL, Forall_forall. intros c Hc%H.
    by eapply Forall_forall in E'.
Qed.

Lemma awkward_warnings_length ps : ∀ p,
  length (Spec.awkward_warnings p ps) = length (filter Spec.awkward_pair ps).
Proof.
  induction ps as [|[a b] ps IH]; intros p; [done|]. simpl.
  rewrite length_app, IH, filter_cons. unfold Spec.awkward_pair at 2. simpl.
  by destruct (decide (check_key_compatibility a b = AWKWARD)).
Qed.

Lemma awkward_warnings_app ps qs : ∀ p,
  Spec.awkward_warnings p (ps ++ qs)
  = Spec.awkward_warnings p ps ++ Spec.awkward_warnings (p + length ps) qs.
Proof.
  induction ps as [|[a b] ps IH]; intros p; simpl.
  - by rewrite Nat.add_0_r.
  - rewrite IH, <- app_assoc. by replace (S p + length ps)%nat with (p + S (length ps))%nat by lia.
Qed.

Lemma adjacent_pairs_snoc keys k :
  Spec.adjacent_pairs (keys ++ [k])
  = Spec.adjacent_pairs keys ++ from_option (λ l, [(l, k)]) [] (last keys).
Proof.
  unfold Spec.adjacent_pairs.
  induction keys as [|a keys IH]; [done|].
  destruct keys as [|b keys]; [done|].
  change (tail ((a :: b :: keys) ++ [k])) with ((b :: keys) ++ [k]).
  change (tail (a :: b :: keys)) with (b :: keys).
  change (last (a :: b :: keys)) with (last (b :: keys)).
  simpl in *. by rewrite IH.
Qed.

Lemma adjacent_pairs_cons a keys :
  Spec.adjacent_pairs (a :: keys)
  = from_option (λ h, [(a, h)]) [] (head keys) ++ Spec.adjacent_pairs keys.
Proof. by destruct keys. Qed.

Lemma adjacent_pairs_reverse keys :
  Spec.adjacent_pairs (reverse keys)
  = reverse ((λ ab, (ab.2, ab.1)) <$> Spec.adjacent_pairs keys).
Proof.
  induction keys as [|a keys IH]; [done|].
  rewrite reverse_cons, adjacent_pairs_snoc, adjacent_pairs_cons, IH, last_reverse.
  rewrite fmap_app, reverse_app. by destruct (head keys).
Qed.

(** X6: The flow analysis and its warnings: every transition carries the tier
    of its two keys, there are as many warnings as AWKWARD transitions, the
    overall tier is AWKWARD exactly when there is a warning, and NATURAL
    exactly when every transition is NATURAL. *)
Theorem analyze_setlist_key_flow_warnings keys :
  let flow := analyze_setlist_key_flow keys in
  Forall (λ t, t_compatibility t = check_key_compatibility (t_from t) (t_to t))
         (transitions flow)
  ∧ length (warnings flow)
    = length (filter (λ t, t_compatibility t = AWKWARD) (transitions flow))
  ∧ (overall flow = AWKWARD ↔ warnings flow ≠ [])
  ∧ (overall flow = NATURAL
     ↔ Forall (λ t, t_compatibility t = NATURAL) (transitions flow)).
Proof.
  cbv zeta. rewrite analyze_setlist_key_flow_pairs. unfold Spec.analyze_flow. simpl.
  generalize (Spec.adjacent_pairs keys). intros ps.
  split; [by apply Forall_fmap, Forall_true|].
  assert (length (Spec.awkward_warnings 1 ps)
          = length (filter (λ t, t_compatibility t = AWKWARD)
                      ((λ ab, mkTransition ab.1 ab.2 (check_key_compatibility ab.1 ab.2))
                         <$> ps))) as Hlen.
  { rewrite awkward_warnings_length.
    induction ps as [|[a b] ps IH]; [done|].
    rewrite fmap_cons, !filter_cons. unfold Spec.awkward_pair at 1. simpl.
    destruct (decide (check_key_compatibility a b = AWKWARD)); simpl; by rewrite IH. }
  split; [done|]. split.
  - rewrite max_tier_AWKWARD, list_elem_of_fmap. split.
    + intros ([a b] & Hc & Hin) Hnil.
      assert (length (Spec.awkward_warnings 1 ps) = O) as H0 by by rewrite Hnil.
      rewrite awkward_warnings_length in H0.
      apply nil_length_inv in H0.
      assert ((a, b) ∈ filter Spec.awkward_pair ps) as Hf by by apply list_elem_of_filter.
      rewrite H0 in Hf. by apply elem_of_nil in Hf.
    + intros Hne.
      destruct (filter Spec.awkward_pair ps) as [|ab l] eqn:Hf.
      { exfalso. apply Hne, nil_length_inv. by rewrite awkward_warnings_length, Hf. }
      assert (ab ∈ filter Spec.awkward_pair ps) as Hin by (rewrite Hf; left).
      apply list_elem_of_filter in Hin as [Hc Hin]. by exists ab.
  - rewrite max_tier_NATURAL, !Forall_fmap. by apply Forall_iff.
Qed.

(** X7: Adding a song at the end of the setlist keeps the transitions and the
    warnings found so far, adds the transition from the former last key if
    there is one, and never lowers the overall tier. *)
Theorem analyze_setlist_key_flow_append keys k :
  let before := analyze_setlist_key_flow keys in
  let after := analyze_setlist_key_flow (keys ++ [k]) in
  transitions after
  = transitions before
    ++ from_option (λ l, [mkTransition l k (check_key_compatibility l k)]) [] (last keys)
  ∧ warnings before `prefix_of` warnings after
  ∧ compatibility_order (overall before) ≤ compatibility_order (overall after).
Proof.
  cbv zeta. rewrite !analyze_setlist_key_flow_pairs. unfold Spec.analyze_flow. simpl.
  rewrite adjacent_pairs_snoc, !fmap_app, awkward_warnings_app.
  split; [by destruct (last keys)|]. split; [by eexists|].
  unfold Spec.max_tier. rewrite foldr_app.
  generalize ((λ ab : string * string, check_key_compatibility ab.1 ab.2)
                <$> Spec.adjacent_pairs keys).
  generalize (foldr Spec.tier_max NATURAL
                ((λ ab : string * string, check_key_compatibility ab.1 ab.2)
                   <$> from_option (λ l, [(l, k)]) [] (last keys))).
  intros c l. induction l as [|x l IH]; simpl.
  - destruct c; simpl; lia.
  - destruct x, (foldr Spec.tier_max NATURAL l), (foldr Spec.tier_max c l);
      simpl in *; lia.
Qed.

(** X8: Playing the setlist backwards gives the same overall tier and as many
    warnings. *)
Theorem analyze_setlist_key_flow_reverse keys :
  overall (analyze_setlist_key_flow (reverse keys))
  = overall (analyze_setlist_key_flow keys)
  ∧ length (warnings (analyze_setlist_key_flow (reverse keys)))
    = length (warnings (analyze_setlist_key_flow keys)).
Proof.
  rewrite !analyze_setlist_key_flow_pairs. unfold Spec.analyze_flow. simpl.
  rewrite adjacent_pairs_reverse, !awkward_warnings_length.
  generalize (Spec.adjacent_pairs keys). intros ps.
  assert (Hsym : ∀ a b, check_key_compatibility a b = check_key_compatibility b a).
  { intros a b.
    by rewrite !check_key_compatibility_pitch_classes, !tier_of_get_key_distance,
      get_key_distance_sym. }
  split.
  - apply max_tier_ext. intros c.
    rewrite !list_elem_of_fmap. setoid_rewrite elem_of_reverse.
    setoid_rewrite list_elem_of_fmap. split.
    + intros (? & -> & [a b] & -> & Hin). exists (a, b). simpl. by rewrite Hsym.
    + intros ([a b] & -> & Hin). exists (b, a). simpl. rewrite Hsym.
      split; [done|]. by exists (a, b).
  - induction ps as [|[a b] ps IH]; [done|].
    rewrite fmap_cons, reverse_cons, filter_app, length_app, IH, !filter_cons, filter_nil.
    simpl.
    destruct (decide (Spec.awkward_pair (b, a))) as [H1|H1],
             (decide (Spec.awkward_pair (a, b))) as [H2|H2];
      unfold Spec.awkward_pair in H1, H2; simpl in *; try lia;
      rewrite Hsym in H1; contradiction.
Qed.

End key_flow.

(** ** The structure of a parsed line *)

Section line_structure.

Lemma add_lyric_snoc segs chord lyric text :
  Spec.add_lyric (segs ++ [(chord, lyric)]) text = segs ++ [(chord, lyric +:+ text)].
Proof. unfold Spec.add_lyric. by rewrite last_snoc, set_last_snoc. Qed.

Lemma add_lyric_app segs a b :
  Spec.add_lyric (Spec.add_lyric segs a) b = Spec.add_lyric segs (a +:+ b).
Proof.
  destruct segs as [|s segs _] using rev_ind.
  - by destruct a as [|c a].
  - destruct s as [chord lyric]. rewrite !add_lyric_snoc. by str_norm.
Qed.

Lemma segment_step_add_lyric line chords segs last_end m :
  segment_step line (chords, segs, last_end) m
  = (chords ++ [m_group1 m],
     Spec.add_lyric segs (slice line last_end (m_start m)) ++ [(Some (m_group1 m), "")],
     m_end m).
Proof.
  unfold segment_step, Spec.add_lyric. do 2 f_equal.
  destruct (last segs) as [[pc pl]|] eqn:Hlast.
  - assert (segs ≠ []) by (by intros ->).
    by rewrite bool_decide_eq_true_2, orb_true_r.
  - apply last_None_nil in Hlast as ->. simpl.
    by destruct (slice _ _ _).
Qed.

(** The loop over the matches of a line, started after the text [pre]
    with the text [pend] read since the last match. *)
Lemma segment_loop_structure line ps : ∀ pre pend chords segs,
  line = pre +:+ pend +:+ Spec.source ps →
  ∃ segs' last_end,
    foldl (segment_step line) (chords, segs, len pre)
          (matches_from (len pre + len pend) ps)
    = (chords ++ Spec.groups ps, segs', last_end)
    ∧ Spec.add_lyric segs' (slice_from line last_end)
      = Spec.add_lyric segs (pend +:+ Spec.leading_text ps) ++ Spec.chord_segments ps.
Proof.
  induction ps as [|[c|g] ps IH]; intros pre pend chords segs Hline.
  - exists segs, (len pre). simpl. rewrite !app_nil_r. split; [done|].
    rewrite Hline. simpl. by rewrite slice_from_app, !app_nil_r_str.
  - destruct (IH pre (pend +:+ String c "") chords segs) as (segs' & le & Hloop & Hr).
    { rewrite Hline. simpl. by rewrite app_assoc_str. }
    exists segs', le. split.
    + simpl. rewrite length_app_str in Hloop. simpl in Hloop.
      by replace (S (len pre + len pend))
        with (len pre + (len pend + 1))%nat by lia.
    + rewrite Hr. simpl. by rewrite app_assoc_str.
  - destruct (IH (pre +:+ pend +:+ "[" +:+ g +:+ "]") "" (chords ++ [g])
                 (Spec.add_lyric segs pend ++ [(Some g, "")]))
      as (segs' & le & Hloop & Hr).
    { rewrite Hline. simpl. by str_norm. }
    exists segs', le. split.
    + assert (len (pre +:+ pend +:+ "[" +:+ g +:+ "]")
              = (len pre + len pend + len g + 2)%nat) as Hlen.
      { rewrite !length_app_str. simpl. lia. }
      rewrite Hlen in Hloop. simpl in Hloop. rewrite Nat.add_0_r, <- app_assoc in Hloop.
      cbn [matches_from foldl Spec.groups]. etrans; [|exact Hloop]. f_equal.
      rewrite segment_step_add_lyric. cbn [m_group1 m_start m_end].
      by rewrite Hline, !slice_app.
    + rewrite Hr, add_lyric_snoc. simpl. rewrite app_nil_r_str, <- app_assoc. done.
Qed.

Lemma parse_chord_line_segments all_chords line :
  parse_chord_line all_chords line
  = (all_chords ++ Spec.groups (scan line), mkParsedLine (Spec.line_segments (scan line))).
Proof.
  unfold parse_chord_line, CHORD_PATTERN_finditer.
  destruct (segment_loop_structure line (scan line) "" "" all_chords [])
    as (segs & le & Hloop & Hr).
  { simpl. by rewrite source_scan. }
  cbn [len Nat.add] in Hloop. rewrite Hloop.
  f_equal. f_equal. etrans; [|exact Hr].
  unfold Spec.add_lyric. destruct (last segs) as [[pc pl]|]; [done|].
  by destruct (slice_from line le).
Qed.

Lemma leading_text_render f ps :
  Spec.render_pieces f ps
  = Spec.leading_text ps +:+ Spec.render_segments f (Spec.chord_segments ps).
Proof.
  unfold Spec.render_segments.
  induction ps as [|[c|g] ps IH]; simpl; [done|by rewrite IH|].
  rewrite IH. by str_norm.
Qed.

Lemma line_segments_render f ps :
  Spec.render_segments f (Spec.line_segments ps) = Spec.render_pieces f ps.
Proof.
  rewrite leading_text_render. unfold Spec.line_segments, Spec.render_segments.
  rewrite fmap_app, concat_all_app.
  destruct (Spec.leading_text ps); simpl; [done|]. by rewrite app_nil_r_str.
Qed.

Lemma render_pieces_source ps :
  Spec.render_pieces (λ g, "[" +:+ g +:+ "]") ps = Spec.source ps.
Proof.
  induction ps as [|[c|g] ps IH]; cbn [Spec.render_pieces Spec.source];
    [done|by rewrite IH|]. rewrite IH. by str_norm.
Qed.

Lemma chord_segments_chords ps : omap fst (Spec.chord_segments ps) = Spec.groups ps.
Proof.
  induction ps as [|[c|g] ps IH]; [done|done|].
  change (g :: omap fst (Spec.chord_segments ps) = g :: Spec.groups ps).
  by rewrite IH.
Qed.

Lemma chord_segments_Forall ps : Forall (λ seg, is_Some seg.1) (Spec.chord_segments ps).
Proof. induction ps as [|[c|g] ps IH]; simpl; [done|done|]. by constructor. Qed.

(** X9: The segments of a parsed line.  A segment without chord holds the
    text before the first chord of the line and exists only when that text
    is not empty; every chord of the line then gives one segment, with the
    text up to the next chord.  So the chords of the segments are the
    chords of the line in order, only the first segment can be without
    chord, and a line has no segment exactly when it is empty. *)
Theorem parse_chord_line_structure all_chords line :
  let parsed_line := (parse_chord_line all_chords line).2 in
  segments parsed_line = Spec.line_segments (scan line)
  ∧ omap fst (segments parsed_line) = Spec.groups (scan line)
  ∧ Forall (λ seg, is_Some seg.1) (tail (segments parsed_line))
  ∧ (segments parsed_line = [] ↔ line = "").
Proof.
  cbv zeta. rewrite parse_chord_line_segments. simpl.
  split; [done|]. split; [|split].
  - unfold Spec.line_segments. rewrite omap_app, chord_segments_chords.
    by destruct (is_empty _).
  - unfold Spec.line_segments.
    destruct (is_empty _); simpl; [|apply chord_segments_Forall].
    destruct (Spec.chord_segments (scan line)) as [|s l] eqn:E; [done|].
    pose proof (chord_segments_Forall (scan line)) as H. rewrite E in H.
    by apply Forall_cons in H as [_ H].
  - split.
    + intros Hnil.
      pose proof (line_segments_render (λ g, "[" +:+ g +:+ "]") (scan line)) as Hr.
      rewrite Hnil in Hr.
      by rewrite render_pieces_source, source_scan in Hr.
    + by intros ->.
Qed.

End line_structure.

(** ** The list of unique chords *)

Section unique_chords.

Lemma filter_ext_in {A} (P Q : A → Prop) `{!∀ x, Decision (P x), !∀ x, Decision (Q x)}
    (l : list A) :
  (∀ x, x ∈ l → (P x ↔ Q x)) → filter P l = filter Q l.
Proof.
  induction l as [|x l IH]; intros Hext; [done|].
  rewrite !filter_cons, IH by (intros y Hy; apply Hext; by right).
  destruct (decide (P x)) as [HP|HP], (decide (Q x)) as [HQ|HQ]; try done.
  - by apply Hext in HP; [|left].
  - by apply Hext in HQ; [|left].
Qed.

Lemma first_occurrences_loop rs : ∀ acc,
  foldl (λ acc r, if decide (r ∈ acc) then acc else acc ++ [r]) acc rs
  = acc ++ filter (λ y, y ∉ acc) (Spec.keep_first rs).
Proof.
  induction rs as [|x rs IH]; intros acc; simpl; [by rewrite app_nil_r|].
  rewrite IH, filter_cons, list_filter_filter. destruct (decide (x ∈ acc)) as [Hx|Hx].
  - rewrite decide_False by (by intros H). f_equal.
    apply filter_ext_in. intros y _. split; [|by intros [? _]].
    intros Hy. split; [done|]. by intros ->.
  - rewrite decide_True by done. rewrite <- app_assoc. simpl. do 2 f_equal.
    apply filter_ext_in. intros y _. rewrite not_elem_of_app, not_elem_of_cons.
    split; [intros [? [? _]]|intros [? ?]]; repeat split; try done.
    apply not_elem_of_nil.
Qed.

Lemma first_occurrences_keep_first rs : Spec.first_occurrences rs = Spec.keep_first rs.
Proof.
  unfold Spec.first_occurrences. rewrite first_occurrences_loop. simpl.
  induction (Spec.keep_first rs) as [|x l IH]; [done|].
  rewrite filter_cons, decide_True by apply not_elem_of_nil. by rewrite IH.
Qed.

Lemma extract_chords_loop chords : ∀ (seen : gset string) unique_chords,
  seen = list_to_set unique_chords →
  (foldl (λ (st : gset string * list string) chord,
            let '(seen, unique_chords) := st in
            if bool_decide (chord ∉ seen)
            then (seen ∪ {[chord]}, unique_chords ++ [chord])
            else (seen, unique_chords))
         (seen, unique_chords) chords).2
  = foldl (λ acc r, if decide (r ∈ acc) then acc else acc ++ [r]) unique_chords chords.
Proof.
  induction chords as [|g chords IH]; intros seen unique_chords Hseen; [done|].
  simpl. destruct (decide (g ∈ unique_chords)) as [Hg|Hg].
  - rewrite bool_decide_eq_false_2; [by apply IH|].
    intros Hn. apply Hn. rewrite Hseen. by apply elem_of_list_to_set.
  - rewrite bool_decide_eq_true_2; [apply IH|].
    + rewrite Hseen, list_to_set_app_L. simpl. by rewrite union_empty_r_L.
    + rewrite Hseen. by rewrite elem_of_list_to_set.
Qed.

Lemma extract_chords_first_occurrences content :
  extract_chords content = Spec.first_occurrences (Spec.groups (scan content)).
Proof.
  unfold extract_chords, CHORD_PATTERN_findall. rewrite finditer_groups.
  pose proof (extract_chords_loop (Spec.groups (scan content)) ∅ [] eq_refl) as H.
  by destruct (foldl _ _ _).
Qed.

(** X10: [extract_chords] returns the chords of the document, each once, in
    the order of their first occurrence: the list of all chords with the
    later occurrences removed.  Every entry starts with a note letter and
    holds no closing bracket. *)
Theorem extract_chords_unique content :
  extract_chords content = Spec.keep_first (CHORD_PATTERN_findall content)
  ∧ NoDup (extract_chords content)
  ∧ (∀ g, g ∈ extract_chords content ↔ g ∈ CHORD_PATTERN_findall content)
  ∧ Forall (λ g, starts_with_note_letter g = true ∧ contains "]" g = false)
           (extract_chords content).
Proof.
  rewrite extract_chords_first_occurrences.
  unfold CHORD_PATTERN_findall. rewrite finditer_groups.
  split; [apply first_occurrences_keep_first|].
  split; [apply NoDup_first_occurrences|].
  split; [intros g; apply elem_of_first_occurrences|].
  apply Forall_forall. intros g Hg. rewrite elem_of_first_occurrences in Hg.
  pose proof (groups_scan content) as H. rewrite Forall_forall in H. by apply H.
Qed.

End unique_chords.

(** ** Escaping for HTML *)

Section escape_html.

Lemma replace_char_app c new a b :
  replace_char c new (a +:+ b) = replace_char c new a +:+ replace_char c new b.
Proof. induction a as [|d a IH]; simpl; [done|]. rewrite IH. by str_norm. Qed.

Lemma replace_char_absent c new s : contains c s = false → replace_char c new s = s.
Proof.
  induction s as [|d s IH]; simpl; [done|].
  intros [Hd Hs]%orb_false_iff. by rewrite Hd, IH.
Qed.

Lemma _escape_html_app a b : _escape_html (a +:+ b) = _escape_html a +:+ _escape_html b.
Proof. unfold _escape_html. by rewrite !replace_char_app. Qed.

Lemma _escape_html_single c : _escape_html (String c "") = Spec.entity c.
Proof.
  unfold Spec.entity. repeat case_decide; subst; try done.
  unfold _escape_html.
  rewrite !(replace_char_absent _ _ (String c ""));
    try done; simpl; by rewrite bool_decide_eq_false_2.
Qed.

Lemma _escape_html_cons c s : _escape_html (String c s) = Spec.entity c +:+ _escape_html s.
Proof.
  change (String c s) with (String c "" +:+ s).
  by rewrite _escape_html_app, _escape_html_single.
Qed.

Lemma entity_plain c d :
  Spec.special d = true → d ≠ "&"%chr → contains d (Spec.entity c) = false.
Proof.
  unfold Spec.special, Spec.entity. intros Hd%bool_decide_eq_true Hamp.
  repeat (apply elem_of_cons in Hd as [->|Hd]); try done;
    try (by apply elem_of_nil in Hd);
    repeat case_decide; subst; try done; simpl;
    by rewrite bool_decide_eq_false_2.
Qed.

Lemma _escape_html_no_special d text :
  Spec.special d = true → d ≠ "&"%chr → contains d (_escape_html text) = false.
Proof.
  intros Hd Hamp. induction text as [|c text IH]; [done|].
  by rewrite _escape_html_cons, contains_app, entity_plain, IH.
Qed.

(** X11: [_escape_html] works character by character: it distributes over
    concatenation, replaces each of the five special characters by its
    entity and keeps every other character; the result holds none of [<],
    [>], the double quote and the apostrophe, and text without special
    characters is returned as it is. *)
Theorem escape_html_characters text :
  (∀ a b, _escape_html (a +:+ b) = _escape_html a +:+ _escape_html b)
  ∧ (∀ c, _escape_html (String c "") = Spec.entity c)
  ∧ contains "<" (_escape_html text) = false
  ∧ contains ">" (_escape_html text) = false
  ∧ contains DQUOTE (_escape_html text) = false
  ∧ contains "'" (_escape_html text) = false
  ∧ (if Spec.all_chars (λ c, negb (Spec.special c)) text
     then _escape_html text = text else _escape_html text ≠ text).
Proof.
  split; [apply _escape_html_app|]. split; [apply _escape_html_single|].
  do 4 (split; [by apply _escape_html_no_special|]).
  induction text as [|c text IH]; [done|].
  rewrite _escape_html_cons. cbn [Spec.all_chars].
  destruct (Spec.special c) eqn:Hc; simpl.
  - intros Heq. apply (f_equal len) in Heq.
    rewrite length_app_str in Heq. simpl in Heq.
    assert (len text ≤ len (_escape_html text))%nat as Hle.
    { clear. induction text as [|c text IH]; [done|].
      rewrite _escape_html_cons, length_app_str. simpl.
      assert (1 ≤ len (Spec.entity c))%nat; [|lia].
      unfold Spec.entity. repeat case_decide; simpl; lia. }
    assert (2 ≤ len (Spec.entity c))%nat; [|lia].
    unfold Spec.special in Hc. apply bool_decide_eq_true in Hc.
    unfold Spec.entity.
    repeat (apply elem_of_cons in Hc as [->|Hc]); try (by apply elem_of_nil in Hc);
      repeat case_decide; simpl; try lia; done.
  - assert (Spec.entity c = String c "") as ->.
    { unfold Spec.special in Hc. apply bool_decide_eq_false in Hc.
      rewrite !not_elem_of_cons in Hc. destruct Hc as (? & ? & ? & ? & ? & _).
      unfold Spec.entity. by repeat case_decide. }
    simpl. revert IH. destruct (Spec.all_chars _ text); intros IH; [by rewrite IH|].
    intros [= Heq]. by apply IH.
Qed.

Lemma entity_split c d s t :
  Spec.entity c +:+ s = Spec.entity d +:+ t → c = d ∧ s = t.
Proof.
  unfold Spec.entity.
  repeat case_decide; subst; simpl; intros [= ?]; try done; by subst.
Qed.

(** X12: [_escape_html] loses nothing: different texts have different escaped
    forms. *)
Theorem escape_html_injective a b : a ≠ b → _escape_html a ≠ _escape_html b.
Proof.
  intros Hne Heq. apply Hne. clear Hne. revert b Heq.
  induction a as [|c a IH]; intros [|d b]; [done|..].
  - rewrite _escape_html_cons. unfold Spec.entity. by repeat case_decide.
  - rewrite _escape_html_cons. unfold Spec.entity. by repeat case_decide.
  - rewrite !_escape_html_cons. intros [-> H]%entity_split. f_equal. by apply IH.
Qed.

Lemma escape_html_injective_witness :
  "<" ≠ "&lt;" ∧ _escape_html "<" ≠ _escape_html "&lt;".
Proof. split; [discriminate|apply escape_html_injective; discriminate]. Defined.

End escape_html.

(** ** Renderings of a document *)

Section renderings.

Lemma join_empty l : join "" l = concat_all l.
Proof.
  unfold join. induction l as [|s [|s' l] IH]; simpl in *; [done|by str_norm|].
  by rewrite IH.
Qed.

Lemma join_cons sep x y l : join sep (x :: y :: l) = x +:+ sep +:+ join sep (y :: l).
Proof. done. Qed.

Lemma parse_chordpro_segments content :
  lines (parse_chordpro content)
  = (λ line, mkParsedLine (Spec.line_segments (scan line))) <$> Spec.chord_lines content.
Proof.
  destruct (parse_chordpro_lines content) as [-> _].
  apply list_fmap_ext. intros _ line _. by rewrite parse_chord_line_segments.
Qed.

Lemma line_segments_nil ps : Spec.line_segments ps = [] ↔ Spec.source ps = "".
Proof.
  rewrite <- render_pieces_source. split.
  - intros H. by rewrite <- (line_segments_render _ ps), H.
  - destruct ps as [|[c|g] ps]; [done|done|done].
Qed.

(** *** HTML *)

Lemma visible_text_tag t rest :
  contains ">" t = false →
  Spec.visible_text false (Spec.tag t +:+ rest) = Spec.visible_text false rest.
Proof.
  intros Ht. unfold Spec.tag. str_norm. simpl.
  induction t as [|c t IH]; simpl in *; [done|].
  apply orb_false_iff in Ht as [-> Ht]. simpl. by apply IH.
Qed.

Lemma visible_text_text a rest :
  contains "<" a = false →
  Spec.visible_text false (a +:+ rest) = a +:+ Spec.visible_text false rest.
Proof.
  induction a as [|c a IH]; simpl; [done|].
  intros [-> Ha]%orb_false_iff. by rewrite IH.
Qed.

Lemma visible_text_escaped text rest :
  Spec.visible_text false (_escape_html text +:+ rest)
  = _escape_html text +:+ Spec.visible_text false rest.
Proof. apply visible_text_text. by apply _escape_html_no_special. Qed.

Lemma html_part_tags highlight_class chord lyric :
  html_part highlight_class (chord, lyric)
  = if truthy chord then
      Spec.tag ("span class=" +:+ quoted "chord-segment")
      +:+ Spec.tag ("span class=" +:+ quoted highlight_class)
      +:+ _escape_html (default "" chord) +:+ Spec.tag "/span"
      +:+ Spec.tag ("span class=" +:+ quoted "lyric")
      +:+ _escape_html lyric +:+ Spec.tag "/span" +:+ Spec.tag "/span"
    else
      Spec.tag ("span class=" +:+ quoted "lyric")
      +:+ _escape_html lyric +:+ Spec.tag "/span".
Proof.
  unfold html_part, Spec.tag, quoted. destruct (truthy chord); by str_norm.
Qed.

Lemma html_part_visible highlight_class seg rest :
  contains ">" highlight_class = false →
  Spec.visible_text false (html_part highlight_class seg +:+ rest)
  = _escape_html (from_option (λ g, g) "" seg.1 +:+ seg.2)
    +:+ Spec.visible_text false rest.
Proof.
  intros Hc. destruct seg as [chord lyric]. rewrite html_part_tags, _escape_html_app.
  assert (contains ">" ("span class=" +:+ quoted highlight_class) = false) as Hq.
  { unfold quoted. simpl. rewrite contains_app, Hc. done. }
  destruct (truthy chord) eqn:Ht.
  - destruct chord as [g|]; [|done]. simpl (from_option _ _ _). simpl (default _ _).
    rewrite !app_assoc_str.
    rewrite visible_text_tag by done. rewrite visible_text_tag by done.
    rewrite visible_text_escaped, visible_text_tag by done.
    rewrite visible_text_tag by done.
    rewrite visible_text_escaped, visible_text_tag by done.
    by rewrite visible_text_tag by done.
  - assert (from_option (λ g, g) "" (chord, lyric).1 = "") as ->.
    { destruct chord as [[|]|]; done. }
    rewrite !app_assoc_str.
    rewrite visible_text_tag by done.
    by rewrite visible_text_escaped, visible_text_tag by done.
Qed.

Lemma html_parts_loop highlight_class segs : ∀ acc,
  foldl (λ html_parts seg, html_parts ++ [html_part highlight_class seg]) acc segs
  = acc ++ (html_part highlight_class <$> segs).
Proof.
  induction segs as [|seg segs IH]; intros acc; simpl; [by rewrite app_nil_r|].
  by rewrite IH, <- app_assoc.
Qed.

Lemma html_parts_visible highlight_class segs rest :
  contains ">" highlight_class = false →
  Spec.visible_text false (concat_all (html_part highlight_class <$> segs) +:+ rest)
  = _escape_html (Spec.render_segments (λ g, g) segs) +:+ Spec.visible_text false rest.
Proof.
  intros Hc. unfold Spec.render_segments.
  induction segs as [|seg segs IH]; [done|].
  rewrite !fmap_cons. cbn [concat_all].
  rewrite app_assoc_str, html_part_visible, IH by done.
  rewrite (_escape_html_app (_ +:+ _)). by str_norm.
Qed.

Lemma html_step_visible highlight_class acc segs :
  contains ">" highlight_class = false →
  ∃ html, html_step highlight_class acc (mkParsedLine segs) = acc ++ [html]
    ∧ ∀ rest,
        Spec.visible_text false (html +:+ rest)
        = _escape_html (Spec.render_segments (λ g, g) segs)
          +:+ Spec.visible_text false rest.
Proof.
  intros Hc. unfold html_step. cbn [segments].
  destruct segs as [|seg segs]; [by eexists|].
  eexists. split; [done|]. intros rest.
  rewrite html_parts_loop, join_empty. cbn [app].
  change ("<div class=" +:+ quoted "chord-line" +:+ ">"
          +:+ concat_all (html_part highlight_class <$> seg :: segs) +:+ "</div>")
    with (Spec.tag ("div class=" +:+ quoted "chord-line")
          +:+ concat_all (html_part highlight_class <$> seg :: segs) +:+ Spec.tag "/div").
  rewrite !app_assoc_str.
  rewrite visible_text_tag by done.
  by rewrite html_parts_visible, visible_text_tag by done.
Qed.

Lemma html_loop_visible highlight_class ls : ∀ acc,
  contains ">" highlight_class = false →
  ∃ htmls,
    foldl (html_step highlight_class) acc
          ((λ line, mkParsedLine (Spec.line_segments (scan line))) <$> ls)
    = acc ++ htmls
    ∧ Forall2 (λ html line, ∀ rest,
                 Spec.visible_text false (html +:+ rest)
                 = _escape_html (Spec.without_brackets line)
                   +:+ Spec.visible_text false rest)
              htmls ls.
Proof.
  induction ls as [|line ls IH]; intros acc Hc.
  - exists []. by rewrite app_nil_r.
  - rewrite fmap_cons. cbn [foldl].
    destruct (html_step_visible highlight_class acc
                (Spec.line_segments (scan line)) Hc) as (html & -> & Hv).
    destruct (IH (acc ++ [html]) Hc) as (htmls & -> & Hall).
    exists (html :: htmls). rewrite <- app_assoc. split; [done|].
    constructor; [|done]. intros rest.
    by rewrite Hv, line_segments_render.
Qed.

Lemma visible_text_join htmls texts :
  Forall2 (λ html text, ∀ rest,
             Spec.visible_text false (html +:+ rest)
             = text +:+ Spec.visible_text false rest) htmls texts →
  Spec.visible_text false (join (String LF "") htmls) = join (String LF "") texts.
Proof.
  induction 1 as [|html text htmls texts Hv Hall IH]; [done|].
  destruct Hall as [|html' text' htmls texts Hv' Hall].
  - unfold join. simpl. rewrite <- (app_nil_r_str html), Hv. simpl.
    by rewrite app_nil_r_str.
  - rewrite !join_cons, Hv. str_norm. cbn [Spec.visible_text].
    change (bool_decide (LF = "<"%chr)) with false. cbn iota.
    by rewrite IH.
Qed.

(** X13: The text of the HTML rendering.  When the class name holds no [>],
    the text outside the tags of [chordpro_to_html] is, line by line, the
    escaped text of the lines of the document that are not directives,
    without the brackets of their chords: chords and lyrics reach the page
    only in escaped form, and directive lines do not reach it at all. *)
Theorem chordpro_to_html_visible_text content highlight_class :
  contains ">" highlight_class = false →
  Spec.visible_text false (chordpro_to_html content highlight_class)
  = join (String LF "")
      ((λ line, _escape_html (Spec.without_brackets line)) <$> Spec.chord_lines content).
Proof.
  intros Hc. unfold chordpro_to_html. rewrite parse_chordpro_segments.
  destruct (html_loop_visible highlight_class (Spec.chord_lines content) [] Hc)
    as (htmls & -> & Hall).
  apply visible_text_join. simpl. by apply Forall2_fmap_r.
Qed.

Lemma chordpro_to_html_visible_text_witness :
  contains ">" "chord" = false
  ∧ Spec.visible_text false
      (chordpro_to_html ("{제목: x}" +:+ String LF "[G]주님 <b> [D/F#]x") "chord")
    = "G주님 &lt;b&gt; D/F#x".
Proof.
  split; [reflexivity|].
  rewrite (chordpro_to_html_visible_text _ "chord" eq_refl). by vm_compute.
Defined.

(** *** Plain text *)

Lemma lyrics_segments ps :
  concat_all (snd <$> Spec.line_segments ps) = Spec.render_pieces (λ _, "") ps.
Proof.
  rewrite <- line_segments_render. unfold Spec.render_segments. f_equal.
  apply list_fmap_ext. intros _ [[g|] lyric] _; done.
Qed.

Lemma text_lyrics_loop ls : ∀ acc,
  foldl (text_line_step false) acc ls
  = acc ++ ((λ line, join "" (snd <$> segments line)) <$> ls).
Proof.
  induction ls as [|line ls IH]; intros acc; simpl; [by rewrite app_nil_r|].
  assert (text_line_step false acc line = acc ++ [join "" (snd <$> segments line)])
    as -> by (unfold text_line_step; by destruct (segments line)).
  by rewrite IH, <- app_assoc.
Qed.

End renderings.

Section text_rows.

Lemma join_empty_snoc l x : join "" (l ++ [x]) = join "" l +:+ x.
Proof. rewrite !join_empty, concat_all_app. simpl. by rewrite app_nil_r_str. Qed.

Lemma length_blanks n : len (Spec.blanks n) = n.
Proof. induction n as [|n IH]; simpl; [done|by rewrite IH]. Qed.

Lemma blanks_snoc n : Spec.blanks n +:+ " " = Spec.blanks (S n).
Proof. induction n as [|n IH]; simpl; [done|]. by rewrite IH. Qed.

(** The padding loop: blanks are added up to [position]. *)
Lemma pad_loop_spec fuel : ∀ chord_line position,
  (position - len (join "" chord_line) ≤ fuel)%nat →
  join "" (pad_loop fuel chord_line position)
  = join "" chord_line
    +:+ Spec.blanks (position - len (join "" chord_line)).
Proof.
  induction fuel as [|fuel IH]; intros chord_line position Hfuel; simpl.
  - replace (position - _)%nat with O by lia. by rewrite app_nil_r_str.
  - destruct (Nat.ltb_spec (len (join "" chord_line)) position) as [Hlt|Hge].
    + rewrite IH; rewrite join_empty_snoc, ?length_app_str; simpl; [|lia].
      rewrite app_assoc_str. f_equal.
      replace (position - len (join "" chord_line))%nat
        with (S (position - (len (join "" chord_line) + 1))) by lia.
      done.
    + replace (position - _)%nat with O by lia. by rewrite app_nil_r_str.
Qed.

Lemma text_step_chord chord_line lyric_line position chord lyric :
  is_empty chord = false →
  text_step (chord_line, lyric_line, position) (Some chord, lyric)
  = (pad_loop position chord_line position ++ [chord], lyric_line ++ [lyric],
     (position + len lyric)%nat).
Proof. intros Hc. unfold text_step, truthy. by rewrite Hc. Qed.

(** The loop over the segments: the lyrics are collected, the position is
    moved by their length, and the chord row is only extended. *)
Lemma text_loop segs : ∀ chord_line lyric_line position,
  ∃ chord_line' more,
    foldl text_step (chord_line, lyric_line, position) segs
    = (chord_line', lyric_line ++ (snd <$> segs),
       (position + len (concat_all (snd <$> segs)))%nat)
    ∧ join "" chord_line' = join "" chord_line +:+ more.
Proof.
  induction segs as [|[chord lyric] segs IH]; intros chord_line lyric_line position.
  - exists chord_line, "". simpl. by rewrite app_nil_r, app_nil_r_str, Nat.add_0_r.
  - cbn [foldl]. unfold text_step at 2.
    destruct (IH (if truthy chord
                  then pad_loop position chord_line position ++ [default "" chord]
                  else chord_line)
                 (lyric_line ++ [lyric]) (position + len lyric)%nat)
      as (chord_line' & more & -> & Hjoin).
    rewrite fmap_cons. cbn [concat_all snd]. rewrite length_app_str, <- app_assoc.
    destruct (truthy chord).
    + eexists _, _. split; [f_equal; lia|].
      rewrite Hjoin, join_empty_snoc, pad_loop_spec by lia.
      by rewrite !app_assoc_str.
    + eexists _, _. split; [f_equal; lia|]. exact Hjoin.
Qed.

(** X14: The chord row of the text rendering.  In the loop over the segments
    of a line, the lyric row is the concatenation of the lyrics, and a
    chord is put after the chord row built so far, behind as many blanks as
    are needed to reach the column of its lyric: it begins at that column,
    or directly after the preceding chord when that one reaches further. *)
Theorem text_step_alignment (before : list Segment) chord lyric (after : list Segment) :
  is_empty chord = false →
  ∃ row1 lyrics1 row lyrics n rest,
    foldl text_step ([], [], O) before
    = (row1, lyrics1, len (join "" lyrics1))
    ∧ foldl text_step ([], [], O) (before ++ (Some chord, lyric) :: after)
      = (row, lyrics, len (join "" lyrics))
    ∧ join "" lyrics1 = concat_all (snd <$> before)
    ∧ join "" lyrics = concat_all (snd <$> before ++ (Some chord, lyric) :: after)
    ∧ join "" row = join "" row1 +:+ Spec.blanks n +:+ chord +:+ rest
    ∧ (len (join "" row1) + n)%nat
      = Nat.max (len (join "" row1)) (len (join "" lyrics1)).
Proof.
  intros Hchord.
  destruct (text_loop before [] [] O) as (row1 & more1 & H1 & _).
  rewrite foldl_app, H1. cbn [foldl]. rewrite text_step_chord by done.
  destruct (text_loop after
              (pad_loop (0 + len (concat_all (snd <$> before))) row1
                        (0 + len (concat_all (snd <$> before))) ++ [chord])
              (([] ++ (snd <$> before)) ++ [lyric])
              (0 + len (concat_all (snd <$> before)) + len lyric)%nat)
    as (row & rest & H2 & Hrow).
  rewrite H2. simpl app. simpl Nat.add.
  rewrite join_empty_snoc, pad_loop_spec in Hrow by lia.
  simpl Nat.add in Hrow.
  exists row1, (snd <$> before), row, (((snd <$> before) ++ [lyric]) ++ (snd <$> after)),
    (len (concat_all (snd <$> before)) - len (join "" row1))%nat, rest.
  assert (join "" (((snd <$> before) ++ [lyric]) ++ (snd <$> after))
          = concat_all (snd <$> before ++ (Some chord, lyric) :: after)) as Hl.
  { rewrite join_empty, fmap_app, fmap_cons, <- app_assoc. done. }
  split; [by rewrite join_empty|]. split.
  { rewrite Hl. do 2 f_equal.
    rewrite fmap_app, fmap_cons, !concat_all_app. cbn [concat_all snd].
    rewrite !length_app_str. simpl. lia. }
  split; [by rewrite join_empty|]. split; [done|].
  split; [by rewrite Hrow, !app_assoc_str|].
  rewrite (join_empty (snd <$> before)). lia.
Qed.

Lemma text_step_alignment_witness :
  is_empty "D" = false
  ∧ (∃ row1 lyrics1 row lyrics n rest,
       foldl text_step ([], [], O) [(Some "G", "주님 ")]
       = (row1, lyrics1, len (join "" lyrics1))
       ∧ foldl text_step ([], [], O)
           ([(Some "G", "주님 ")] ++ (Some "D", "은혜") :: [])
         = (row, lyrics, len (join "" lyrics))
       ∧ join "" lyrics1 = concat_all (snd <$> [(Some "G", "주님 ")])
       ∧ join "" lyrics
         = concat_all (snd <$> [(Some "G", "주님 ")] ++ (Some "D", "은혜") :: [])
       ∧ join "" row = join "" row1 +:+ Spec.blanks n +:+ "D" +:+ rest
       ∧ (len (join "" row1) + n)%nat
         = Nat.max (len (join "" row1)) (len (join "" lyrics1)))
  ∧ foldl text_step ([], [], O) [(Some "G", "주님 "); (Some "D", "은혜")]
    = (["G"; " "; " "; "D"], ["주님 "; "은혜"], 5%nat).
Proof.
  split; [reflexivity|]. split; [|reflexivity].
  exact (text_step_alignment [(Some "G", "주님 ")] "D" "은혜" [] eq_refl).
Defined.

Lemma is_empty_rstrip s : is_empty (rstrip s) = Spec.all_chars isspace s.
Proof.
  induction s as [|c s IH]; [done|].
  rewrite rstrip_cons. cbn [Spec.all_chars]. rewrite <- IH.
  by destruct (is_empty (rstrip s)), (isspace c).
Qed.

Lemma is_empty_lstrip s : is_empty (lstrip s) = Spec.all_chars isspace s.
Proof. induction s as [|c s IH]; [done|]. simpl. by destruct (isspace c). Qed.

Lemma all_chars_rstrip s : Spec.all_chars isspace (rstrip s) = Spec.all_chars isspace s.
Proof.
  induction s as [|c s IH]; [done|].
  rewrite rstrip_cons. pose proof (is_empty_rstrip s) as He.
  destruct (is_empty (rstrip s)) eqn:E, (isspace c) eqn:Ec; cbn [andb Spec.all_chars];
    rewrite ?Ec, ?IH, <- ?He; done.
Qed.

Lemma is_empty_strip s : is_empty (strip s) = Spec.all_chars isspace s.
Proof. unfold strip. by rewrite is_empty_lstrip, all_chars_rstrip. Qed.

Lemma all_chars_app p a b :
  Spec.all_chars p (a +:+ b) = Spec.all_chars p a && Spec.all_chars p b.
Proof. induction a as [|c a IH]; simpl; [done|]. by rewrite IH, andb_assoc. Qed.

(** The chord row is blank exactly when no segment has a chord. *)
Lemma text_loop_blank segs : ∀ chord_line lyric_line position,
  Forall (λ g, starts_with_note_letter g = true) (omap fst segs) →
  Spec.all_chars isspace
    (join "" (foldl text_step (chord_line, lyric_line, position) segs).1.1)
  = Spec.all_chars isspace (join "" chord_line) && bool_decide (omap fst segs = []).
Proof.
  induction segs as [|[[g|] lyric] segs IH]; intros chord_line lyric_line position Hv.
  - simpl. by rewrite andb_true_r.
  - change (omap fst ((Some g, lyric) :: segs)) with (g :: omap fst segs) in *.
    apply Forall_cons in Hv as [Hg Hv].
    assert (is_empty g = false) as Hne by (by destruct g).
    cbn [foldl]. rewrite text_step_chord, IH by done.
    rewrite join_empty_snoc, all_chars_app.
    assert (Spec.all_chars isspace g = false) as ->.
    { destruct g as [|c g]; [done|]. simpl in *.
      by destruct (note_letter_plain c Hg) as [-> _]. }
    rewrite andb_false_r. cbn [andb]. by rewrite andb_false_r.
  - change (omap fst ((None, lyric) :: segs)) with (omap fst segs) in *.
    cbn [foldl]. unfold text_step at 2. cbn [truthy]. by apply IH.
Qed.

Lemma line_segments_chords ps : omap fst (Spec.line_segments ps) = Spec.groups ps.
Proof.
  unfold Spec.line_segments. rewrite omap_app, chord_segments_chords.
  by destruct (is_empty _).
Qed.

Lemma text_rows_step acc line :
  text_line_step true acc (mkParsedLine (Spec.line_segments (scan line)))
  = acc ++ Spec.text_rows line.
Proof.
  unfold text_line_step, Spec.text_rows. cbn [segments].
  destruct (Spec.line_segments (scan line)) as [|seg segs] eqn:Hsegs.
  { apply line_segments_nil in Hsegs. rewrite source_scan in Hsegs. by subst. }
  assert (is_empty line = false) as ->.
  { destruct line; [|done]. by rewrite scan_nil in Hsegs. }
  rewrite <- Hsegs. clear seg segs Hsegs.
  pose proof (text_loop_blank (Spec.line_segments (scan line)) [] [] O) as Hblank.
  rewrite line_segments_chords in Hblank.
  unfold Spec.chord_row, CHORD_PATTERN_findall. rewrite finditer_groups.
  destruct (text_loop (Spec.line_segments (scan line)) [] [] O)
    as (row & more & Hloop & _).
  rewrite Hloop in Hblank |- *. cbn [fst snd] in *. simpl app.
  rewrite !is_empty_strip, join_empty, lyrics_segments.
  rewrite Hblank; [|eapply Forall_impl; [apply groups_scan|by intros g [? _]]].
  simpl. fold (Spec.lyrics line).
  destruct (bool_decide (Spec.groups (scan line) = [])),
           (Spec.all_chars isspace (Spec.lyrics line)); simpl;
    by rewrite <- ?app_assoc, ?app_nil_r.
Qed.

Lemma text_rows_loop ls : ∀ acc,
  foldl (text_line_step true) acc
        ((λ line, mkParsedLine (Spec.line_segments (scan line))) <$> ls)
  = acc ++ concat (Spec.text_rows <$> ls).
Proof.
  induction ls as [|line ls IH]; intros acc; simpl; [by rewrite app_nil_r|].
  by rewrite text_rows_step, IH, app_assoc.
Qed.

(** X15: The two text renderings.  With chords, every line of the document
    that is not a directive gives an empty row when it is empty, and
    otherwise its chord row when it has a chord, and then its lyrics when
    they are not blank.  Without chords, every such line gives one row, the
    line without its chords. *)
Theorem chordpro_to_text_rows content :
  chordpro_to_text content true
  = join (String LF "") (concat (Spec.text_rows <$> Spec.chord_lines content))
  ∧ chordpro_to_text content false
    = join (String LF "") (Spec.lyrics <$> Spec.chord_lines content).
Proof.
  unfold chordpro_to_text. rewrite parse_chordpro_segments, text_rows_loop.
  split; [done|]. rewrite text_lyrics_loop. f_equal.
  rewrite <- list_fmap_compose. apply list_fmap_ext. intros _ line _. simpl.
  by rewrite join_empty, lyrics_segments.
Qed.

Lemma chordpro_to_text_rows_witness :
  chordpro_to_text ("{제목: x}" +:+ String LF "[G]주님 [D]은혜") true
  = "G  D" +:+ String LF "주님 은혜".
Proof.
  rewrite (proj1 (chordpro_to_text_rows ("{제목: x}" +:+ String LF "[G]주님 [D]은혜"))).
  by vm_compute.
Defined.

End text_rows.

(** ** Further properties of the transposer *)

Section transposer.

(** X16: [transpose_note] on a note that is not empty: the result is the
    entry of the table chosen by [use_flats], [CHROMATIC_FLAT] or
    [CHROMATIC_SHARP], at the index of the note plus the shift modulo 12,
    and that is its own index; a second transposition continues the first
    one, and twelve semitones more change nothing. *)
Theorem transpose_note_compose note s1 s2 (use_flats1 use_flats2 : bool) :
  is_empty note = false →
  ∃ n1,
    transpose_note note s1 use_flats1 = Some n1
    ∧ (if use_flats1 then CHROMATIC_FLAT else CHROMATIC_SHARP)
        !! Z.to_nat ((get_semitone_index note + s1) mod 12) = Some n1
    ∧ Spec.note_spelling n1
    ∧ get_semitone_index n1 = (get_semitone_index note + s1) mod 12
    ∧ transpose_note n1 s2 use_flats2 = transpose_note note (s1 + s2) use_flats2
    ∧ transpose_note note (s1 + 12) use_flats1 = Some n1.
Proof.
  intros Hne.
  destruct (transpose_note_Some note s1 use_flats1 Hne) as (n1 & H1 & Hsp & Hidx).
  exists n1. split; [done|]. split; [|split; [done|split; [done|split]]].
  - rewrite <- H1. unfold transpose_note, getitem. rewrite Hne.
    pose proof (Z.mod_pos_bound (get_semitone_index note + s1) 12 ltac:(lia)) as Hr.
    rewrite !(proj2 (Z.leb_le 0 _)) by lia. by destruct use_flats1.
  - destruct (note_spelling_plain n1 Hsp) as (Hn1 & _).
    unfold transpose_note. rewrite Hn1, Hne, Hidx.
    by rewrite Zplus_mod_idemp_l, Z.add_assoc.
  - rewrite <- H1. unfold transpose_note. rewrite Hne.
    replace ((get_semitone_index note + (s1 + 12)) mod 12)
      with ((get_semitone_index note + s1) mod 12); [done|].
    rewrite Z.add_assoc, <- (Zplus_mod_idemp_r 12), Z.mod_same by lia.
    by rewrite Z.add_0_r.
Qed.

Lemma transpose_note_compose_witness :
  is_empty "Bb" = false
  ∧ ∃ n1,
      transpose_note "Bb" 3 true = Some n1
      ∧ (if true then CHROMATIC_FLAT else CHROMATIC_SHARP)
          !! Z.to_nat ((get_semitone_index "Bb" + 3) mod 12) = Some n1
      ∧ Spec.note_spelling n1
      ∧ get_semitone_index n1 = (get_semitone_index "Bb" + 3) mod 12
      ∧ transpose_note n1 4 false = transpose_note "Bb" (3 + 4) false
      ∧ transpose_note "Bb" (3 + 12) true = Some n1.
Proof.
  split; [reflexivity|]. exact (transpose_note_compose "Bb" 3 4 true false eq_refl).
Defined.

Lemma calculate_transpose_semitones_self a : calculate_transpose_semitones a a = 0.
Proof. unfold calculate_transpose_semitones. by rewrite Z.sub_diag. Qed.

Lemma calculate_transpose_semitones_add a b c :
  (calculate_transpose_semitones a b + calculate_transpose_semitones b c) mod 12
  = calculate_transpose_semitones a c.
Proof.
  unfold calculate_transpose_semitones.
  set (x := get_semitone_index (strip (remove_char "m" a))).
  set (y := get_semitone_index (strip (remove_char "m" b))).
  set (z := get_semitone_index (strip (remove_char "m" c))).
  rewrite <- Zplus_mod. f_equal. lia.
Qed.

(** X17: [calculate_transpose_semitones] gives a shift between 0 and 11; the
    shift from a key to itself is 0, so that [transpose_chordpro] returns
    the document as it is; the shifts of two steps add up, modulo 12, to
    the shift of the direct way; and the minor marker of a key does not
    count. *)
Theorem calculate_transpose_semitones_compose a b c :
  0 ≤ calculate_transpose_semitones a b < 12
  ∧ calculate_transpose_semitones a a = 0
  ∧ (∀ content, transpose_chordpro content a a = Some content)
  ∧ (calculate_transpose_semitones a b + calculate_transpose_semitones b c) mod 12
    = calculate_transpose_semitones a c
  ∧ calculate_transpose_semitones (a +:+ "m") b = calculate_transpose_semitones a b.
Proof.
  split; [apply calculate_transpose_semitones_range|].
  split; [apply calculate_transpose_semitones_self|].
  split; [intros content; apply transpose_chordpro_zero, calculate_transpose_semitones_self|].
  split; [apply calculate_transpose_semitones_add|].
  unfold calculate_transpose_semitones.
  assert (remove_char "m" (a +:+ "m") = remove_char "m" a) as ->; [|done].
  induction a as [|d a IH]; [done|]. simpl. by rewrite IH.
Qed.

(** X18: [transpose_chord] on a chord that starts with a note letter: the
    result is the transposed root, the quality as it was parsed, and, when
    the chord has a bass note, a slash and the transposed bass; root and
    bass are notes of the tables, moved by [semitones]. *)
Theorem transpose_chord_structure g semitones use_flats :
  starts_with_note_letter g = true →
  ∃ new_root new_bass,
    transpose_chord g semitones use_flats
    = Some (new_root +:+ quality (parse_chord g) +:+ new_bass)
    ∧ Spec.note_spelling new_root
    ∧ get_semitone_index new_root
      = (get_semitone_index (root (parse_chord g)) + semitones) mod 12
    ∧ (if truthy (bass (parse_chord g)) then
         ∃ b, new_bass = "/" +:+ b ∧ Spec.note_spelling b
              ∧ get_semitone_index b
                = (get_semitone_index (default "" (bass (parse_chord g))) + semitones)
                    mod 12
       else new_bass = "").
Proof.
  intros Hg. destruct (parse_chord_shape g Hg) as (Hroot & _).
  unfold transpose_chord.
  destruct (parse_chord g) as [r q ob]. cbn [root quality bass] in *.
  destruct (transpose_note_Some r semitones use_flats Hroot) as (r1 & -> & Hr1 & Hidx).
  destruct (truthy ob) eqn:Hob.
  - destruct ob as [b|]; [|done]. simpl in Hob. apply negb_true_iff in Hob.
    change (default "" (Some b)) with b.
    destruct (transpose_note_Some b semitones use_flats Hob) as (b1 & -> & Hb1 & Hbidx).
    destruct (note_spelling_plain b1 Hb1) as (Hb1e & _).
    cbn. rewrite Hb1e. cbn.
    exists r1, ("/" +:+ b1). split; [by str_norm|]. split; [done|]. split; [done|].
    by exists b1.
  - cbn. exists r1, "". split; [by str_norm|]. done.
Qed.

Lemma transpose_chord_structure_witness :
  starts_with_note_letter "Dsus4/F#" = true
  ∧ ∃ new_root new_bass,
      transpose_chord "Dsus4/F#" 2 false
      = Some (new_root +:+ quality (parse_chord "Dsus4/F#") +:+ new_bass)
      ∧ Spec.note_spelling new_root
      ∧ get_semitone_index new_root
        = (get_semitone_index (root (parse_chord "Dsus4/F#")) + 2) mod 12
      ∧ (if truthy (bass (parse_chord "Dsus4/F#")) then
           ∃ b, new_bass = "/" +:+ b ∧ Spec.note_spelling b
                ∧ get_semitone_index b
                  = (get_semitone_index (default "" (bass (parse_chord "Dsus4/F#"))) + 2)
                      mod 12
         else new_bass = "").
Proof.
  split; [reflexivity|]. exact (transpose_chord_structure "Dsus4/F#" 2 false eq_refl).
Defined.

Lemma shifted_zero g : Spec.shifted 0 (Spec.pitch_classes g) = Spec.pitch_classes g.
Proof.
  destruct (pitch_classes_range g) as [Hr Hb].
  destruct (Spec.pitch_classes g) as [r ob]. unfold Spec.shifted. simpl in *.
  rewrite Z.add_0_r, Z.mod_small by done. f_equal.
  destruct ob as [b|]; [|done]. simpl. f_equal.
  rewrite Z.add_0_r. apply Z.mod_small. by apply Hb.
Qed.

Lemma shifted_add s s' pcs :
  Spec.shifted s' (Spec.shifted s pcs) = Spec.shifted ((s + s') mod 12) pcs.
Proof.
  destruct pcs as [r ob]. unfold Spec.shifted. simpl.
  assert (∀ x, ((x + s) mod 12 + s') mod 12 = (x + (s + s') mod 12) mod 12) as H.
  { intros x. by rewrite Zplus_mod_idemp_l, Zplus_mod_idemp_r, Z.add_assoc. }
  f_equal; [apply H|]. destruct ob as [b|]; [|done]. simpl. f_equal. apply H.
Qed.

(** One transposition of a document whose chords have plain qualities:
    the chords of the result have plain qualities again, and root and bass
    of every chord are moved by the shift of the two keys. *)
Lemma transpose_chordpro_shifted content from_key to_key :
  Forall Spec.plain_quality (Spec.groups (scan content)) →
  ∃ out,
    transpose_chordpro content from_key to_key = Some out
    ∧ Forall Spec.plain_quality (Spec.groups (scan out))
    ∧ Spec.document_pitch_classes out
      = Spec.shifted (calculate_transpose_semitones from_key to_key)
          <$> Spec.document_pitch_classes content.
Proof.
  intros Hplain.
  destruct (decide (calculate_transpose_semitones from_key to_key = 0)) as [Hs|Hs].
  - exists content. rewrite transpose_chordpro_zero by done.
    split; [done|]. split; [done|]. rewrite Hs.
    unfold Spec.document_pitch_classes. rewrite <- list_fmap_compose.
    apply list_fmap_ext. intros _ g _. simpl. by rewrite shifted_zero.
  - destruct (transpose_chordpro_spec content from_key to_key Hs) as [Hout Hscan].
    eexists. split; [exact Hout|].
    unfold Spec.document_pitch_classes. rewrite Hscan, groups_map_brackets.
    destruct (transposed_groups (calculate_transpose_semitones from_key to_key)
                (bool_decide (to_key ∈ FLAT_KEYS)) _ (groups_scan content) Hplain)
      as (_ & Hp & Hpc).
    by split.
Qed.

(** X19: Transposition and pitch classes.  For a document whose chords have
    qualities that do not begin with [#] or [b], [transpose_chordpro] moves
    root and bass of every chord by the shift of the two keys, and going
    from [K1] to [K3] by way of [K2] gives the pitch classes of the direct
    transposition. *)
Theorem transpose_chordpro_pitch_classes (content K1 K2 K3 : string) :
  Forall Spec.plain_quality (Spec.groups (scan content)) →
  ∃ there onward direct,
    transpose_chordpro content K1 K2 = Some there
    ∧ transpose_chordpro there K2 K3 = Some onward
    ∧ transpose_chordpro content K1 K3 = Some direct
    ∧ Spec.document_pitch_classes there
      = Spec.shifted (calculate_transpose_semitones K1 K2)
          <$> Spec.document_pitch_classes content
    ∧ Spec.document_pitch_classes onward = Spec.document_pitch_classes direct.
Proof.
  intros Hplain.
  destruct (transpose_chordpro_shifted content K1 K2 Hplain) as (there & H1 & Hp1 & Hpc1).
  destruct (transpose_chordpro_shifted there K2 K3 Hp1) as (onward & H2 & _ & Hpc2).
  destruct (transpose_chordpro_shifted content K1 K3 Hplain) as (direct & H3 & _ & Hpc3).
  exists there, onward, direct. do 4 (split; [done|]).
  rewrite Hpc2, Hpc1, Hpc3, <- list_fmap_compose.
  apply list_fmap_ext. intros _ pcs _. simpl.
  by rewrite shifted_add, calculate_transpose_semitones_add.
Qed.

Lemma transpose_chordpro_pitch_classes_witness :
  Forall Spec.plain_quality (Spec.groups (scan "[G]Test [D/F#]line [Em7]x"))
  ∧ ∃ there onward direct,
      transpose_chordpro "[G]Test [D/F#]line [Em7]x" "G" "Bb" = Some there
      ∧ transpose_chordpro there "Bb" "D" = Some onward
      ∧ transpose_chordpro "[G]Test [D/F#]line [Em7]x" "G" "D" = Some direct
      ∧ Spec.document_pitch_classes there
        = Spec.shifted (calculate_transpose_semitones "G" "Bb")
            <$> Spec.document_pitch_classes "[G]Test [D/F#]line [Em7]x"
      ∧ Spec.document_pitch_classes onward = Spec.document_pitch_classes direct.
Proof.
  assert (Forall Spec.plain_quality (Spec.groups (scan "[G]Test [D/F#]line [Em7]x")))
    as Hplain.
  { apply (bool_decide_unpack _). vm_compute. exact I. }
  exact (conj Hplain
           (transpose_chordpro_pitch_classes "[G]Test [D/F#]line [Em7]x" "G" "Bb" "D" Hplain)).
Defined.

(** X20: The chords of a transposed document: [transpose_chordpro] never
    fails, and its result has as many chords as the document; when the
    shift is not 0 they are, in order, the results of [transpose_chord] on
    the chords of the document, and the text outside the chords is
    unchanged. *)
Theorem transpose_chordpro_chords content from_key to_key :
  let semitones := calculate_transpose_semitones from_key to_key in
  let use_flats := bool_decide (to_key ∈ FLAT_KEYS) in
  ∃ out,
    transpose_chordpro content from_key to_key = Some out
    ∧ mapM (λ g, if decide (semitones = 0) then Some g
                 else transpose_chord g semitones use_flats)
           (CHORD_PATTERN_findall content)
      = Some (CHORD_PATTERN_findall out)
    ∧ length (CHORD_PATTERN_findall out) = length (CHORD_PATTERN_findall content)
    ∧ Spec.render_pieces (λ _, "") (scan out) = Spec.render_pieces (λ _, "") (scan content).
Proof.
  cbv zeta. unfold CHORD_PATTERN_findall.
  destruct (decide (calculate_transpose_semitones from_key to_key = 0)) as [Hs|Hs].
  - exists content. rewrite transpose_chordpro_zero, !finditer_groups by done.
    split; [done|]. split; [|done].
    apply mapM_Some. induction (Spec.groups (scan content)); by constructor.
  - destruct (transpose_chordpro_spec content from_key to_key Hs) as [Hout Hscan].
    eexists. split; [exact Hout|]. rewrite !finditer_groups, Hscan, groups_map_brackets.
    split; [|split].
    + apply mapM_Some. apply Forall2_fmap_r.
      pose proof (groups_scan content) as Hv.
      induction Hv as [|g gs [Hg _] _ IH]; constructor; [|done].
      simpl. unfold Spec.transposed.
      by destruct (transpose_chord_spec g (calculate_transpose_semitones from_key to_key)
                     (bool_decide (to_key ∈ FLAT_KEYS)) Hg) as (g' & -> & _).
    + by rewrite length_fmap.
    + generalize (scan content). intros ps.
      induction ps as [|[c|g] ps IH]; simpl; [done|by rewrite IH|done].
Qed.

End transposer.

(** ** Further properties of the document parser *)

Section parsed_document.

Lemma raw_chords_valid content :
  Forall (λ g, starts_with_note_letter g = true ∧ contains "]" g = false)
         (raw_chords (parse_chordpro content)).
Proof.
  destruct (parse_chordpro_lines content) as [_ ->].
  apply Forall_concat, Forall_fmap, Forall_forall. intros line _. apply groups_scan.
Qed.

(** X21: The two lists of a parsed document agree: there is one parsed line
    for every line of the document that is not a directive, and
    [raw_chords] lists the chords of the segments of these lines in
    order; every one of them starts with a note letter. *)
Theorem parse_chordpro_raw_chords content :
  let parsed := parse_chordpro content in
  length (lines parsed) = length (Spec.chord_lines content)
  ∧ raw_chords parsed = concat ((λ pl, omap fst (segments pl)) <$> lines parsed)
  ∧ Forall (λ g, starts_with_note_letter g = true ∧ contains "]" g = false)
           (raw_chords parsed).
Proof.
  cbv zeta. split; [|split; [|apply raw_chords_valid]].
  - by rewrite parse_chordpro_segments, length_fmap.
  - rewrite parse_chordpro_segments.
    destruct (parse_chordpro_lines content) as [_ ->].
    rewrite <- list_fmap_compose. f_equal. apply list_fmap_ext.
    intros _ line _. simpl. by rewrite line_segments_chords.
Qed.

Lemma parse_chordpro_raw_chords_witness :
  length (lines (parse_chordpro ("{제목: x}[G]y" +:+ String LF "[D]주님"))) = 1%nat.
Proof.
  rewrite (proj1 (parse_chordpro_raw_chords ("{제목: x}[G]y" +:+ String LF "[D]주님"))).
  by vm_compute.
Defined.

Lemma no_brace_no_directive line :
  contains "{" line = false → DIRECTIVE_PATTERN_search line = None.
Proof.
  induction line as [|c line IH]; [done|].
  simpl. intros [Hc Hl]%orb_false_iff. rewrite Hc. by apply IH.
Qed.

(** X22: A line without opening brace is never a directive: it leaves the
    metadata as they are and gives one parsed line. *)
Theorem line_step_no_brace st line :
  contains "{" line = false →
  Spec.metadata (line_step st line) = Spec.metadata st
  ∧ length (lines (line_step st line)) = S (length (lines st)).
Proof.
  intros Hb. unfold line_step.
  rewrite no_brace_no_directive by (by apply contains_rstrip).
  destruct (parse_chord_line _ _). simpl. split; [done|].
  rewrite length_app. simpl. lia.
Qed.

Lemma line_step_no_brace_witness :
  contains "{" "[G]Amazing [D]grace" = false
  ∧ Spec.metadata (line_step Spec.empty_document "[G]Amazing [D]grace")
    = Spec.metadata Spec.empty_document
  ∧ length (lines (line_step Spec.empty_document "[G]Amazing [D]grace"))
    = S (length (lines Spec.empty_document)).
Proof.
  split; [reflexivity|].
  exact (line_step_no_brace Spec.empty_document "[G]Amazing [D]grace" eq_refl).
Defined.

Lemma span_isspace_lstrip s : (span isspace s).2 = lstrip s.
Proof.
  induction s as [|c s IH]; [done|]. simpl.
  destruct (isspace c); [|done]. by destruct (span isspace s).
Qed.

Lemma lstrip_app_nonspace a c b :
  isspace c = false → lstrip (a +:+ String c b) = lstrip a +:+ String c b.
Proof.
  intros Hc. induction a as [|d a IH]; simpl; [by rewrite Hc|].
  by destruct (isspace d).
Qed.

Lemma or_empty_Some s : or_empty (Some s) = s.
Proof. by destruct s. Qed.

Lemma lower_word name : is_empty (lower name) = is_empty name.
Proof. by destruct name. Qed.

Lemma DIRECTIVE_PATTERN_match_directive_line name value :
  is_empty name = false → Spec.all_chars is_word name = true →
  contains "}" value = false →
  DIRECTIVE_PATTERN_match (Spec.directive_line name value)
  = Some (mkDirectiveMatch (Some name) (Some (lstrip value)) None).
Proof.
  intros Hne Hw Hv. unfold Spec.directive_line. simpl.
  rewrite span_app_stop by done. rewrite Hne. simpl.
  pose proof (span_isspace_lstrip (value +:+ "}")) as Hs.
  destruct (span isspace (value +:+ "}")) as [ws rest]. simpl in Hs. subst rest.
  rewrite lstrip_app_nonspace by done.
  by rewrite until_app by (by apply contains_lstrip).
Qed.

Lemma rstrip_directive_line name value :
  rstrip (Spec.directive_line name value) = Spec.directive_line name value.
Proof.
  unfold Spec.directive_line.
  replace ("{" +:+ name +:+ ":" +:+ value +:+ "}")
    with (("{" +:+ name +:+ ":" +:+ value) +:+ String "}" "") by (by str_norm).
  by rewrite rstrip_app_nonspace.
Qed.

(** X23: A directive [{name:value}] whose name is [key] in any mix of upper
    and lower case, and whose value holds no closing brace, sets the key
    of the document to the value without its leading white space, and
    changes nothing else. *)
Theorem line_step_key_directive st name value :
  lower name = "key" → contains "}" value = false →
  line_step st (Spec.directive_line name value)
  = mkParsedChordPro (title st) (artist st) (Some (lstrip value)) (tempo st)
      (lines st) (raw_chords st).
Proof.
  intros Hname Hv.
  assert (is_empty name = false) as Hne by (by rewrite <- lower_word, Hname).
  assert (Spec.all_chars is_word name = true) as Hw.
  { assert (∀ x y, lower_char x = y → is_word y = true → is_word x = true) as Hlow.
    { intros x y <- Hy. unfold lower_char in Hy.
      destruct (code_in 65 90 x) eqn:E.
      - unfold is_word. rewrite E. by rewrite orb_true_r.
      - by case_bool_decide; [subst x|]. }
    destruct name as [|a [|b [|c [|d name]]]]; try discriminate Hname.
    injection Hname as Ha Hb Hc. cbn [Spec.all_chars].
    by rewrite (Hlow a "k"%chr), (Hlow b "e"%chr), (Hlow c "y"%chr). }
  unfold line_step. rewrite rstrip_directive_line, DIRECTIVE_PATTERN_search_unfold.
  rewrite DIRECTIVE_PATTERN_match_directive_line by done.
  cbn [d_group1 d_group2 d_group3].
  assert (or_else (Some name) None = Some name) as ->.
  { unfold or_else. simpl. by rewrite Hne. }
  rewrite !or_empty_Some, Hname. done.
Qed.

Lemma line_step_key_directive_witness :
  lower "Key" = "key" ∧ contains "}" (String (Char 160) " Eb") = false
  ∧ line_step Spec.empty_document (Spec.directive_line "Key" (String (Char 160) " Eb"))
    = mkParsedChordPro None None (Some "Eb") None [] [].
Proof.
  split; [reflexivity|]. split; [reflexivity|].
  exact (line_step_key_directive Spec.empty_document "Key" (String (Char 160) " Eb")
           eq_refl eq_refl).
Defined.

End parsed_document.

(** ** Further properties of key detection *)

Section detected_key.

Lemma detect_key_roots content :
  detect_key content =
    if truthy (key (parse_chordpro content)) then key (parse_chordpro content)
    else Spec.first_highest (Spec.chord_roots content).
Proof.
  unfold detect_key, Spec.chord_roots.
  destruct (truthy (key (parse_chordpro content))); [done|].
  destruct (raw_chords (parse_chordpro content)) as [|chord0 chords]; [done|].
  rewrite count_roots_tally, fmap_cons, root_counts_spec.
  rewrite <- dict_max_key_first_highest by done.
  by destruct (_ <$> Spec.first_occurrences _).
Qed.

Lemma maximum_exists (f : string → Z) (l : list string) :
  l ≠ [] → ∃ x, x ∈ l ∧ Forall (λ y, f y ≤ f x) l.
Proof.
  induction l as [|a l IH]; [done|]. intros _.
  destruct l as [|b l].
  - exists a. split; [by left|]. by repeat constructor.
  - destruct IH as (x & Hx & Hmax); [done|].
    destruct (decide (f x ≤ f a)) as [Hle|Hgt].
    + exists a. split; [by left|]. constructor; [done|].
      eapply Forall_impl; [exact Hmax|]. simpl. intros y ?. lia.
    + exists x. split; [by right|]. constructor; [lia|done].
Qed.

Lemma first_highest_Some rs : rs ≠ [] → ∃ r, Spec.first_highest rs = Some r ∧ r ∈ rs.
Proof.
  intros Hne. destruct (maximum_exists (Spec.total rs) rs Hne) as (x & Hx & Hmax).
  unfold Spec.first_highest.
  destruct (filter (Spec.highest rs) rs) as [|r l] eqn:Hf.
  - assert (x ∈ filter (Spec.highest rs) rs) as Hin by (by apply list_elem_of_filter).
    rewrite Hf in Hin. by apply elem_of_nil in Hin.
  - exists r. split; [done|].
    assert (r ∈ filter (Spec.highest rs) rs) as Hin by (rewrite Hf; left).
    by apply list_elem_of_filter in Hin as [_ ?].
Qed.

(** X24: [detect_key] finds a key whenever there is something to go by: it
    returns nothing exactly when the document has no key in its metadata
    and no chord on a line that is not a directive; a key that it returns
    is never empty, and is the metadata key or the root of a chord of the
    document. *)
Theorem detect_key_found content :
  let parsed := parse_chordpro content in
  (detect_key content = None
   ↔ truthy (key parsed) = false ∧ raw_chords parsed = [])
  ∧ ∀ k, detect_key content = Some k →
         is_empty k = false
         ∧ (key parsed = Some k
            ∨ ∃ g, g ∈ raw_chords parsed ∧ k = root (parse_chord g)).
Proof.
  cbv zeta. rewrite detect_key_roots. unfold Spec.chord_roots.
  pose proof (raw_chords_valid content) as Hv.
  destruct (truthy (key (parse_chordpro content))) eqn:Hk.
  - split.
    + split; [|by intros [? _]]. intros Hn. by rewrite Hn in Hk.
    + intros k Hkey. rewrite Hkey in Hk. simpl in Hk.
      split; [by apply negb_true_iff|by left].
  - destruct (raw_chords (parse_chordpro content)) as [|g gs] eqn:Hr.
    + split; [done|]. by intros k.
    + destruct (first_highest_Some ((λ chord, root (parse_chord chord)) <$> g :: gs))
        as (r & Hfh & Hin); [done|].
      rewrite Hfh. split; [split; [done|by intros [_ ?]]|].
      intros k [= <-]. apply list_elem_of_fmap in Hin as (g' & -> & Hg').
      split; [|right; by exists g'].
      rewrite Forall_forall in Hv. destruct (Hv g' Hg') as [Hs _].
      by destruct (parse_chord_shape g' Hs) as [? _].
Qed.

End detected_key.

(** ** The handlers of the chord routes *)

Section chord_routes.

Lemma validate_chordpro_lexical content :
  validate_chordpro content
  = (bool_decide (Spec.lexical_warnings content = []), Spec.lexical_warnings content).
Proof.
  unfold validate_chordpro. rewrite invalid_chord_loop.
  2:{ pose proof (groups_scan content) as H. rewrite <- finditer_groups in H.
      rewrite Forall_fmap in H. eapply Forall_impl; [exact H|]. by intros m [? _]. }
  unfold Spec.lexical_warnings.
  generalize (mismatch_warning (count "[" content) (count "]" content)).
  generalize (count "[" content) (count "]" content). intros o c w.
  destruct (decide (o = c)) as [->|Hne].
  - rewrite (bool_decide_eq_false_2 (c ≠ c)) by (intros H; by apply H).
    by destruct (has_substring "[]" content).
  - rewrite (bool_decide_eq_true_2 (o ≠ c)) by done.
    by destruct (has_substring "[]" content).
Qed.

(** X25: The handler [transpose_chords] never fails with another exception
    than its own: it answers 400 with the warnings of the two counting
    checks when the brackets of the document do not balance or an empty
    pair of brackets occurs, and in every other case returns the
    transposed document with a shift between 0 and 11. *)
Theorem transpose_chords_outcome request :
  let content := ChordRoutes.request_content request in
  let from_key := ChordRoutes.request_from_key request in
  let to_key := ChordRoutes.request_to_key request in
  ∃ transposed,
    transpose_chordpro content from_key to_key = Some transposed
    ∧ 0 ≤ calculate_transpose_semitones from_key to_key < 12
    ∧ ChordRoutes.transpose_chords request
      = Some (if decide (count "[" content = count "]" content
                         ∧ has_substring "[]" content = false)
              then ChordRoutes.Return
                     (ChordRoutes.mkTransposeResponse transposed from_key to_key
                        (calculate_transpose_semitones from_key to_key))
              else ChordRoutes.Raise
                     (ChordRoutes.mkHTTPException 400
                        ("Invalid ChordPro content: "
                         +:+ join ", " (Spec.lexical_warnings content)))).
Proof.
  cbv zeta. destruct request as [content from_key to_key].
  unfold ChordRoutes.transpose_chords.
  cbn [ChordRoutes.request_content ChordRoutes.request_from_key
       ChordRoutes.request_to_key].
  destruct (transpose_chordpro_is_Some content from_key to_key) as [out Hout].
  exists out. split; [done|]. split; [apply calculate_transpose_semitones_range|].
  rewrite validate_chordpro_lexical, Hout. unfold Spec.lexical_warnings.
  destruct (decide (count "[" content = count "]" content)) as [Hc|Hc],
           (has_substring "[]" content) eqn:Hs; simpl.
  - by rewrite decide_False by (by intros [_ ?]).
  - by rewrite decide_True.
  - by rewrite decide_False by (by intros [? _]).
  - by rewrite decide_False by (by intros [? _]).
Qed.

(** X26: The handler [detect_key] returns what the service function
    [detect_key] returns; its confidence is high exactly when the metadata
    hold a key, low exactly when no key is returned, which is when the
    document has neither a key in its metadata nor a chord on a line that
    is not a directive, and medium otherwise. *)
Theorem detect_key_confidence content :
  let response := ChordRoutes.detect_key content in
  let parsed := parse_chordpro content in
  ChordRoutes.detected response = detect_key content
  ∧ ChordRoutes.confidence response
    = (if truthy (key parsed) then "high"
       else if bool_decide (raw_chords parsed = []) then "low" else "medium")
  ∧ (ChordRoutes.confidence response = "low" ↔ ChordRoutes.detected response = None).
Proof.
  cbv zeta. unfold ChordRoutes.detect_key.
  pose proof (detect_key_roots content) as Hd.
  destruct (truthy (key (parse_chordpro content))) eqn:Hk; simpl.
  - split; [done|]. split; [done|]. split; [done|].
    intros Hn. by rewrite Hn in Hk.
  - split; [done|]. unfold Spec.chord_roots in Hd.
    destruct (raw_chords (parse_chordpro content)) as [|g gs] eqn:Hr.
    + rewrite Hd. by vm_compute.
    + destruct (first_highest_Some ((λ chord, root (parse_chord chord)) <$> g :: gs))
        as (r & Hfh & Hin); [done|].
      rewrite Hd, Hfh.
      assert (is_empty r = false) as Hne.
      { apply list_elem_of_fmap in Hin as (g' & -> & Hg').
        pose proof (raw_chords_valid content) as Hv.
        rewrite Hr, Forall_forall in Hv. destruct (Hv g' Hg') as [Hs _].
        by destruct (parse_chord_shape g' Hs) as [? _]. }
      simpl. rewrite Hne. simpl. by split.
Qed.

End chord_routes.

(** ** The chord parser on chords that start with a note letter *)

Section chord_root.

Lemma ROOT_PATTERN_match_note c t :
  is_note_letter c = true → contains LF t = false →
  ROOT_PATTERN_match (String c t)
  = match t with
    | String a t' => if is_accidental a then Some (String c (String a ""), t')
                     else Some (String c "", t)
    | EmptyString => Some (String c "", t)
    end.
Proof.
  intros Hc Ht. simpl. rewrite Hc, (lazy_dot_to_end_no_LF t Ht).
  destruct t as [|a t']; [done|].
  destruct (is_accidental a) eqn:Ha; [|done].
  simpl in Ht. apply orb_false_iff in Ht as [_ Ht].
  by rewrite (lazy_dot_to_end_no_LF t' Ht).
Qed.

(** X27: [parse_chord] on a chord whose body, the stripped input up to its
    first slash, starts with a letter A-G and holds no line feed: the root
    is that letter in upper case, with the character after it when that is
    [#] or [b]; the quality is all the rest of the body; and the bass is
    the text between the first and the second slash. *)
Theorem parse_chord_root s :
  starts_with_note_letter (Spec.chord_body s) = true →
  contains LF (Spec.chord_body s) = false →
  ∃ letter accidental,
    Spec.chord_body s = String letter (accidental +:+ quality (parse_chord s))
    ∧ root (parse_chord s) = String (upper_char letter) accidental
    ∧ Spec.note_spelling (root (parse_chord s))
    ∧ accidental
      = (if Spec.starts_with_accidental (Spec.after_first_char (Spec.chord_body s))
         then substring 0 1 (Spec.after_first_char (Spec.chord_body s)) else "")
    ∧ bass (parse_chord s) = Spec.chord_bass s.
Proof.
  intros Hb HLF. unfold parse_chord. rewrite parse_chord_parts.
  destruct (Spec.chord_body s) as [|c t]; [done|]. simpl in Hb, HLF.
  apply orb_false_iff in HLF as [_ HLF].
  rewrite ROOT_PATTERN_match_note by done.
  destruct (note_letter_plain c Hb) as (_ & _ & _ & _ & _ & Hup & Hupup).
  assert (Spec.note_spelling (String (upper_char c) "")) as Hplain.
  { exists (upper_char c), "". repeat split; try done. by left. }
  destruct t as [|a t'].
  - exists c, "". by cbn.
  - cbn [Spec.after_first_char Spec.starts_with_accidental].
    destruct (is_accidental a) eqn:Ha.
    + destruct (accidental_plain a Ha) as (_ & _ & _ & _ & Hlow).
      exists c, (String a ""). cbn. rewrite Hupup, !Hlow.
      split; [done|]. split; [done|]. split; [|split; [by destruct t'|done]].
      exists (upper_char c), (String a ""). repeat split; try done.
      right. by exists a.
    + exists c, "". by cbn.
Qed.

Lemma parse_chord_root_witness :
  starts_with_note_letter (Spec.chord_body " eb7/G ") = true
  ∧ contains LF (Spec.chord_body " eb7/G ") = false
  ∧ ∃ letter accidental,
      Spec.chord_body " eb7/G "
      = String letter (accidental +:+ quality (parse_chord " eb7/G "))
      ∧ root (parse_chord " eb7/G ") = String (upper_char letter) accidental
      ∧ Spec.note_spelling (root (parse_chord " eb7/G "))
      ∧ accidental
        = (if Spec.starts_with_accidental
                (Spec.after_first_char (Spec.chord_body " eb7/G "))
           then substring 0 1 (Spec.after_first_char (Spec.chord_body " eb7/G "))
           else "")
      ∧ bass (parse_chord " eb7/G ") = Spec.chord_bass " eb7/G ".
Proof.
  split; [reflexivity|]. split; [reflexivity|].
  exact (parse_chord_root " eb7/G " eq_refl eq_refl).
Defined.

End chord_root.

(** ** The two pitch-class tables *)

Section two_tables.

Lemma remove_char_app c a b :
  remove_char c (a +:+ b) = remove_char c a +:+ remove_char c b.
Proof.
  induction a as [|d a IH]; simpl; [done|].
  destruct (bool_decide (d = c)); simpl; by rewrite IH.
Qed.

Lemma KEY_SEMITONES_index base v :
  KEY_SEMITONES !! base = Some v →
  get_semitone_index base = v
  ∧ remove_char "m" base = base ∧ strip base = base ∧ endswith "m" base = false.
Proof.
  intros H. apply elem_of_list_to_map_2 in H.
  repeat (apply elem_of_cons in H as [[= -> ->]|H]; [by vm_compute|]).
  by apply elem_of_nil in H.
Qed.

Lemma known_key_pitch_class key v :
  KEY_SEMITONES !! (normalize_key key).1 = Some v →
  get_semitone key = v ∧ get_semitone_index (Spec.key_root key) = v.
Proof.
  intros H. pose proof (normalize_key_fst_snd key) as Hn.
  unfold get_semitone. rewrite Hn, H. split; [done|].
  destruct (KEY_SEMITONES_index _ _ H) as (Hidx & Hrm & Hst & _).
  unfold Spec.key_root.
  unfold normalize_key, endswith in H, Hrm, Hst, Hidx. simpl in *.
  destruct (last_char key) as [c|] eqn:Hc.
  - destruct (bool_decide (c = "m"%chr)) eqn:Hm.
    + apply bool_decide_eq_true in Hm. subst c.
      rewrite <- (drop_last_last_char key "m" Hc), remove_char_app. simpl.
      by rewrite app_nil_r_str, Hrm, Hst.
    + by rewrite Hrm, Hst.
  - by rewrite Hrm, Hst.
Qed.

(** X28: The two modules agree on the keys of the table [KEY_SEMITONES], with
    or without the minor marker: [get_semitone] of the compatibility engine
    is the index that the transposer uses, and the folded distance of two
    such keys is the shorter way round of their transposition shift. *)
Theorem get_key_distance_of_shift a b :
  is_Some (KEY_SEMITONES !! (normalize_key a).1) →
  is_Some (KEY_SEMITONES !! (normalize_key b).1) →
  get_semitone a = get_semitone_index (Spec.key_root a)
  ∧ get_key_distance a b
    = Z.min (calculate_transpose_semitones a b) (12 - calculate_transpose_semitones a b).
Proof.
  intros [x Hx] [y Hy].
  pose proof (KEY_SEMITONES_range _ _ Hx) as Hxr.
  pose proof (KEY_SEMITONES_range _ _ Hy) as Hyr.
  destruct (known_key_pitch_class a x Hx) as [Ha Ha'].
  destruct (known_key_pitch_class b y Hy) as [Hb Hb'].
  split; [by rewrite Ha, Ha'|].
  unfold get_key_distance, calculate_transpose_semitones.
  fold (Spec.key_root a). fold (Spec.key_root b).
  rewrite Ha, Hb, Ha', Hb'.
  destruct (decide (x ≤ y)).
  - rewrite (Z.mod_small (y - x)) by lia. lia.
  - replace ((y - x) mod 12) with (y - x + 12); [lia|].
    rewrite <- (Z.mod_small (y - x + 12) 12) by lia.
    by rewrite <- Z.add_mod_idemp_r, Z.mod_same, Z.add_0_r by lia.
Qed.

Lemma get_key_distance_of_shift_witness :
  is_Some (KEY_SEMITONES !! (normalize_key "Bbm").1)
  ∧ is_Some (KEY_SEMITONES !! (normalize_key "D").1)
  ∧ get_semitone "Bbm" = get_semitone_index (Spec.key_root "Bbm")
  ∧ get_key_distance "Bbm" "D"
    = Z.min (calculate_transpose_semitones "Bbm" "D")
            (12 - calculate_transpose_semitones "Bbm" "D").
Proof.
  assert (is_Some (KEY_SEMITONES !! (normalize_key "Bbm").1)) as H1 by (by eexists).
  assert (is_Some (KEY_SEMITONES !! (normalize_key "D").1)) as H2 by (by eexists).
  exact (conj H1 (conj H2 (get_key_distance_of_shift "Bbm" "D" H1 H2))).
Defined.

End two_tables.
